(** * xray-knife: CIDR expansion, history files, API handlers, result batching

    A shallow embedding of
    - [utils.incrementIP], [utils.CIDRtoListIP], [utils.IsIPv6] (package utils),
    - [appendResultsToCSV], [loadResultsFromCSV], the HTTP handlers and the
      routes of [web/api_handlers.go],
    - [WebSocketService] ([web/frontend/src/services/websocket.ts]): the
      [http_result] batching, the listeners, the connection and the messages,
      and the effect of [Dashboard] that holds the log listener,
    - [build.sh],
    together with the parts of Go's [net], [net/netip], [encoding/csv] and of
    [gocsv] that these functions call. *)

From Stdlib Require Import ZArith Lia List Ascii String.
From stdpp Require Import base list strings gmap.

Set Warnings "-register-all".

Local Open Scope Z_scope.

(** * The program *)

(** ** Bytes and slices

    A Go [byte] is a [Z] in [0, 256); the wrap-around of byte arithmetic is
    written out with [mod 256].  A slice of bytes ([net.IP], [net.IPMask]) is a
    list; the [nil] slice is the empty list (both have [len] 0, which is all
    the functions below look at). *)

Abbreviation byte := Z (only parsing).
Abbreviation IP := (list Z) (only parsing).
Abbreviation IPMask := (list Z) (only parsing).

Definition is_byte (b : Z) : Prop := 0 <= b < 256.
Definition bytes_ok (l : list byte) : Prop := Forall is_byte l.

(** The unsigned big-endian number a byte slice spells. *)
Definition be_value (l : list byte) : Z := fold_left (fun acc b => acc * 256 + b) l 0.

(** A Go [string] is a sequence of bytes: a Rocq [string], read byte by byte. *)
Definition byte_of_ascii (a : ascii) : Z := Z.of_N (N_of_ascii a).
Definition ascii_of_byte (b : Z) : ascii := ascii_of_N (Z.to_N b).

Fixpoint bytes_of_string (s : string) : list Z :=
  match s with
  | EmptyString => []
  | String a s' => byte_of_ascii a :: bytes_of_string s'
  end.

Fixpoint string_of_bytes (l : list Z) : string :=
  match l with
  | [] => EmptyString
  | b :: l' => String (ascii_of_byte b) (string_of_bytes l')
  end.

(** Character codes the parsers and printers name. *)
Definition ch_dot : Z := 46.      (* '.' *)
Definition ch_colon : Z := 58.    (* ':' *)
Definition ch_percent : Z := 37.  (* '%' *)
Definition ch_slash : Z := 47.    (* '/' *)
Definition ch_0 : Z := 48.
Definition ch_9 : Z := 57.
Definition ch_a : Z := 97.
Definition ch_f : Z := 102.
Definition ch_A : Z := 65.
Definition ch_F : Z := 70.

(** ** Package [net/netip]: addresses and their text form *)
Module netip.

(** [netip.Addr] without a zone: [net.ParseCIDR] refuses an address with one. *)
Inductive Addr :=
  | Addr4 (a : list Z)     (* AddrFrom4: 4 bytes *)
  | Addr6 (a : list Z).    (* AddrFrom16: 16 bytes, 4-in-6 forms included *)

Definition BitLen (ip : Addr) : Z :=
  match ip with Addr4 _ => 32 | Addr6 _ => 128 end.

Definition v4InV6Prefix : list Z := [0; 0; 0; 0; 0; 0; 0; 0; 0; 0; 255; 255].

(** [Addr.As16]: an IPv4 address becomes its IPv4-mapped IPv6 form. *)
Definition As16 (ip : Addr) : list Z :=
  match ip with
  | Addr4 a => v4InV6Prefix ++ a
  | Addr6 a => a
  end.

(** [parseIPv4]: the loop over the bytes of [s].  [first] says [i == 0],
    [prev] is [s[i-1]], the rest of the list being empty says
    [i == len(s)-1]; [fields] holds [fields[0..pos)]. *)
Fixpoint parseIPv4_loop (s : list Z) (first : bool) (prev : Z)
    (val : Z) (pos : nat) (digLen : Z) (fields : list Z) : option Addr :=
  match s with
  | [] =>
      if (pos <? 3)%nat then None                   (* IPv4 address too short *)
      else Some (Addr4 (fields ++ [val mod 256]))
  | c :: rest =>
      if (ch_0 <=? c) && (c <=? ch_9) then
        if (digLen =? 1) && (val =? 0) then None    (* octet with leading zero *)
        else
          let val' := val * 10 + (c - ch_0) in
          if 255 <? val' then None                  (* value >255 *)
          else parseIPv4_loop rest false c val' pos (digLen + 1) fields
      else if c =? ch_dot then
        if first || bool_decide (rest = []) || (prev =? ch_dot) then None
        else if (pos =? 3)%nat then None            (* address too long *)
        else parseIPv4_loop rest false c 0 (S pos) 0 (fields ++ [val mod 256])
      else None                                     (* unexpected character *)
  end.

Definition parseIPv4 (s : list Z) : option Addr :=
  parseIPv4_loop s true 0 0 0%nat 0 [].

(** The hex-number loop of [parseIPv6]: returns [(off, acc)], or [None] when a
    group has more than 4 digits or exceeds [0xffff]. *)
Fixpoint parseHex_loop (s : list Z) (off : Z) (acc : Z) : option (Z * Z * list Z) :=
  match s with
  | [] => Some (off, acc, [])
  | c :: rest =>
      let digit :=
        if (ch_0 <=? c) && (c <=? ch_9) then Some (c - ch_0)
        else if (ch_a <=? c) && (c <=? ch_f) then Some (c - ch_a + 10)
        else if (ch_A <=? c) && (c <=? ch_F) then Some (c - ch_A + 10)
        else None in
      match digit with
      | None => Some (off, acc, s)                  (* break *)
      | Some d =>
          let acc' := (Z.shiftl acc 4 + d) mod 2 ^ 32 in
          if 3 <? off then None                     (* more than 4 digits *)
          else if 65535 <? acc' then None           (* value >= 2^16 *)
          else parseHex_loop rest (off + 1) acc'
      end
  end.

(** What the group loop of [parseIPv6] leaves: the array, [i], the ellipsis
    position and the unread rest of the string. *)
Record v6state := { v6_ip : list Z; v6_i : nat; v6_ellipsis : option nat; v6_rest : list Z }.

(** The loop [for i < 16]: [groups] counts the 16-bit groups still free, so
    [i = 16 - 2 * groups] and the loop condition fails when it reaches 0. *)
Fixpoint parseIPv6_loop (groups : nat) (s : list Z) (ip : list Z) (i : nat)
    (ellipsis : option nat) : option v6state :=
  match groups with
  | O => Some {| v6_ip := ip; v6_i := i; v6_ellipsis := ellipsis; v6_rest := s |}
  | S groups' =>
      match parseHex_loop s 0 0 with
      | None => None
      | Some (off, acc, after) =>
          if off =? 0 then None                     (* no digits *)
          else
            match after with
            | c :: _ =>
                if c =? ch_dot then
                  (* trailing embedded IPv4, parsed from the start of this group *)
                  if bool_decide (ellipsis = None) && negb (i =? 12)%nat then None
                  else if (16 <? i + 4)%nat then None
                  else
                    match parseIPv4 s with
                    | Some (Addr4 [a; b; c4; d]) =>
                        Some {| v6_ip := <[(i + 3)%nat := d]> (<[(i + 2)%nat := c4]> (<[(i + 1)%nat := b]> (<[i := a]> ip)));
                                v6_i := (i + 4)%nat; v6_ellipsis := ellipsis; v6_rest := [] |}
                    | _ => None
                    end
                else
                  let ip' := <[(i + 1)%nat := acc mod 256]> (<[i := Z.shiftr acc 8 mod 256]> ip) in
                  let i' := (i + 2)%nat in
                  (* s = s[off:] is not empty here *)
                  if negb (c =? ch_colon) then None  (* want colon *)
                  else
                    match after with
                    | [_] => None                    (* colon must be followed by more *)
                    | _ :: c2 :: rest2 =>
                        if c2 =? ch_colon then
                          match ellipsis with
                          | Some _ => None           (* multiple :: *)
                          | None =>
                              match rest2 with
                              | [] => Some {| v6_ip := ip'; v6_i := i'; v6_ellipsis := Some i'; v6_rest := [] |}
                              | _ => parseIPv6_loop groups' rest2 ip' i' (Some i')
                              end
                          end
                        else parseIPv6_loop groups' (c2 :: rest2) ip' i' ellipsis
                    | [] => None
                    end
            | [] =>
                (* stop at end of string *)
                Some {| v6_ip := <[(i + 1)%nat := acc mod 256]> (<[i := Z.shiftr acc 8 mod 256]> ip);
                        v6_i := (i + 2)%nat; v6_ellipsis := ellipsis; v6_rest := [] |}
            end
      end
  end.

(** Expanding the ellipsis: [for j := i - 1; j >= ellipsis; j-- { ip[j+n] = ip[j] }]
    and then [clear(ip[ellipsis : ellipsis+n])]. *)
Fixpoint shiftUp (count : nat) (ellipsis n : nat) (ip : list Z) : list Z :=
  match count with
  | O => ip
  | S count' =>
      let j := (ellipsis + count')%nat in
      shiftUp count' ellipsis n (<[(j + n)%nat := default 0 (ip !! j)]> ip)
  end.

Fixpoint clearRange (count : nat) (from : nat) (ip : list Z) : list Z :=
  match count with
  | O => ip
  | S count' => clearRange count' (S from) (<[from := 0]> ip)
  end.

Definition parseIPv6 (s : list Z) : option Addr :=
  if bool_decide (ch_percent ∈ s) then None          (* a zone: refused by ParseCIDR *)
  else
    let '(ellipsis, s1) :=
      match s with
      | c1 :: c2 :: rest => if (c1 =? ch_colon) && (c2 =? ch_colon) then (Some 0%nat, rest) else (None, s)
      | _ => (None, s)
      end in
    match ellipsis, s1 with
    | Some _, [] => Some (Addr6 (replicate 16 0))     (* only the ellipsis *)
    | _, _ =>
        match parseIPv6_loop 8 s1 (replicate 16 0) 0 ellipsis with
        | None => None
        | Some st =>
            if negb (bool_decide (v6_rest st = [])) then None   (* trailing garbage *)
            else if (v6_i st <? 16)%nat then
              match v6_ellipsis st with
              | None => None                          (* address string too short *)
              | Some e =>
                  let n := (16 - v6_i st)%nat in
                  Some (Addr6 (clearRange n e (shiftUp (v6_i st - e) e n (v6_ip st))))
              end
            else
              match v6_ellipsis st with
              | Some _ => None                        (* :: must expand to a field of zeros *)
              | None => Some (Addr6 (v6_ip st))
              end
        end
    end.

(** [ParseAddr]: the first of '.', ':' and '%' in [s] picks the parser. *)
Fixpoint ParseAddr_scan (whole : list Z) (s : list Z) : option Addr :=
  match s with
  | [] => None                                       (* unable to parse IP *)
  | c :: rest =>
      if c =? ch_dot then parseIPv4 whole
      else if c =? ch_colon then parseIPv6 whole
      else if c =? ch_percent then None
      else ParseAddr_scan whole rest
  end.

Definition ParseAddr (s : list Z) : option Addr := ParseAddr_scan s s.

(** [digits = "0123456789abcdef"] *)
Definition digits (d : Z) : Z := if d <? 10 then ch_0 + d else ch_a + (d - 10).

Definition appendDecimal (b : list Z) (x : Z) : list Z :=
  let b := if 100 <=? x then b ++ [digits (x / 100)] else b in
  let b := if 10 <=? x then b ++ [digits (x / 10 mod 10)] else b in
  b ++ [digits (x mod 10)].

Definition appendHex (b : list Z) (x : Z) : list Z :=
  let b := if 4096 <=? x then b ++ [digits (Z.shiftr x 12)] else b in
  let b := if 256 <=? x then b ++ [digits (Z.land (Z.shiftr x 8) 15)] else b in
  let b := if 16 <=? x then b ++ [digits (Z.land (Z.shiftr x 4) 15)] else b in
  b ++ [digits (Z.land x 15)].

(** [Addr.string4] *)
Definition string4 (a : list Z) : list Z :=
  match a with
  | [a0; a1; a2; a3] =>
      appendDecimal (appendDecimal (appendDecimal (appendDecimal [] a0 ++ [ch_dot]) a1 ++ [ch_dot]) a2 ++ [ch_dot]) a3
  | _ => []
  end.

(** [Addr.v6u16 i]: the [i]-th 16-bit group. *)
Definition v6u16 (a : list Z) (i : nat) : Z :=
  default 0 (a !! (2 * i)%nat) * 256 + default 0 (a !! (2 * i + 1)%nat).

(** The inner loop of [appendTo6] that measures the run of zero groups
    starting at [j]: [for j < 8 && ip.v6u16(j) == 0 { j++ }]. *)
Fixpoint zeroRunEnd (fuel : nat) (a : list Z) (j : nat) : nat :=
  match fuel with
  | O => j
  | S fuel' => if (j <? 8)%nat && (v6u16 a j =? 0) then zeroRunEnd fuel' a (S j) else j
  end.

(** The first loop of [appendTo6]: the longest run of at least two zero
    groups, the first such on ties, as [(zeroStart, zeroEnd)]; [(255, 255)]
    when there is none. *)
Fixpoint longestZeroRun (count : nat) (a : list Z) (i : nat) (zs ze : nat) : nat * nat :=
  match count with
  | O => (zs, ze)
  | S count' =>
      let j := zeroRunEnd 8 a i in
      let l := (j - i)%nat in
      if (2 <=? l)%nat && (ze - zs <? l)%nat
      then longestZeroRun count' a (S i) i j
      else longestZeroRun count' a (S i) zs ze
  end.

(** The second loop of [appendTo6]; [count] bounds the groups still to print. *)
Fixpoint appendGroups (count : nat) (a : list Z) (i : nat) (zs ze : nat) (ret : list Z) : list Z :=
  match count with
  | O => ret
  | S count' =>
      if (8 <=? i)%nat then ret
      else if (i =? zs)%nat then
        let ret := ret ++ [ch_colon; ch_colon] in
        if (8 <=? ze)%nat then ret
        else appendGroups count' a (S ze) zs ze (appendHex ret (v6u16 a ze))
      else
        let ret := if (0 <? i)%nat then ret ++ [ch_colon] else ret in
        appendGroups count' a (S i) zs ze (appendHex ret (v6u16 a i))
  end.

(** [Addr.string6] of a 16-byte address without zone. *)
Definition string6 (a : list Z) : list Z :=
  let '(zs, ze) := longestZeroRun 8 a 0 255 255 in
  appendGroups 8 a 0 zs ze [].

End netip.

(** ** Package [net]: [IP], [IPMask], [IPNet], [ParseCIDR] *)
Module net.

Definition IPv4len : nat := 4.
Definition IPv6len : nat := 16.

Record IPNet := { IPNet_IP : IP; IPNet_Mask : IPMask }.

Definition isZeros (p : list Z) : bool := forallb (fun b => b =? 0) p.
Definition allFF (p : list Z) : bool := forallb (fun b => b =? 255) p.

(** [IP.To4]: the 4-byte form of an IPv4 or IPv4-mapped address, [nil] for
    anything else. *)
Definition To4 (ip : IP) : IP :=
  if (length ip =? IPv4len)%nat then ip
  else if (length ip =? IPv6len)%nat && isZeros (take 10 ip)
          && (default 0 (ip !! 10%nat) =? 255) && (default 0 (ip !! 11%nat) =? 255)
       then drop 12 ip
       else [].

(** [IP.Mask] *)
Definition Mask (ip : IP) (mask : IPMask) : IP :=
  let mask :=
    if (length mask =? IPv6len)%nat && (length ip =? IPv4len)%nat && allFF (take 12 mask)
    then drop 12 mask else mask in
  let ip :=
    if (length mask =? IPv4len)%nat && (length ip =? IPv6len)%nat
       && bool_decide (take 12 ip = netip.v4InV6Prefix)
    then drop 12 ip else ip in
  if negb (length ip =? length mask)%nat then []
  else zip_with Z.land ip mask.

(** The loop of [CIDRMask] over the [l] bytes of the mask, [n] ones left to
    place; [^byte(0xff >> n)] is the complement within a byte. *)
Fixpoint CIDRMask_loop (l : nat) (n : Z) : IPMask :=
  match l with
  | O => []
  | S l' =>
      if 8 <=? n then 255 :: CIDRMask_loop l' (n - 8)
      else Z.lxor 255 (Z.shiftr 255 n) :: CIDRMask_loop l' 0
  end.

Definition CIDRMask (ones bits : Z) : IPMask :=
  if negb (bits =? 32) && negb (bits =? 128) then []
  else if (ones <? 0) || (bits <? ones) then []
  else CIDRMask_loop (Z.to_nat (bits / 8)) ones.

(** [networkNumberAndMask]; [(nil, nil)] is [([], [])]. *)
Definition networkNumberAndMask (n : IPNet) : IP * IPMask :=
  let ip4 := To4 (IPNet_IP n) in
  let ip := if bool_decide (ip4 = []) then IPNet_IP n else ip4 in
  if bool_decide (ip4 = []) && negb (length ip =? IPv6len)%nat then ([], [])
  else
    let m := IPNet_Mask n in
    if (length m =? IPv4len)%nat then
      if negb (length ip =? IPv4len)%nat then ([], []) else (ip, m)
    else if (length m =? IPv6len)%nat then
      if (length ip =? IPv4len)%nat then (ip, drop 12 m) else (ip, m)
    else ([], []).

(** The comparison loop of [IPNet.Contains],
    [for i := 0; i < l; i++ { if nn[i]&m[i] != ip[i]&m[i] { return false } }],
    run over the three slices in step (they have the same length [l] when
    the loop is reached with a network built by [ParseCIDR]). *)
Fixpoint sameMasked (nn m ip : list Z) : bool :=
  match nn, m, ip with
  | n0 :: nn', m0 :: m', i0 :: ip' =>
      if negb (Z.land n0 m0 =? Z.land i0 m0) then false else sameMasked nn' m' ip'
  | _, _, _ => true
  end.

(** [IPNet.Contains] *)
Definition Contains (n : IPNet) (ip : IP) : bool :=
  let '(nn, m) := networkNumberAndMask n in
  let ip := if bool_decide (To4 ip = []) then ip else To4 ip in
  if negb (length ip =? length nn)%nat then false
  else sameMasked nn m ip.

(** [ubtoa]-free rendering of an odd-length slice is not needed: [String]
    is only applied to slices of length 0, 4 or 16 here; other lengths give
    ["?"] followed by the hex digits. *)
Definition hexString (b : list Z) : list Z :=
  flat_map (fun x => [netip.digits (Z.shiftr x 4); netip.digits (Z.land x 15)]) b.

(** [IP.String] *)
Definition String (ip : IP) : string :=
  if (length ip =? 0)%nat then "<nil>"%string
  else if negb (length ip =? IPv4len)%nat && negb (length ip =? IPv6len)%nat
  then string_of_bytes (63 :: hexString ip)
  else if (length (To4 ip) =? IPv4len)%nat then string_of_bytes (netip.string4 (To4 ip))
  else string_of_bytes (netip.string6 ip).

(** [dtoi]: decimal to integer; [(n, i, ok)]. *)
Definition big : Z := 16777215.

Fixpoint dtoi_loop (s : list Z) (n i : Z) : Z * Z * bool :=
  match s with
  | c :: rest =>
      if (ch_0 <=? c) && (c <=? ch_9) then
        let n' := n * 10 + (c - ch_0) in
        if big <=? n' then (big, i, false) else dtoi_loop rest n' (i + 1)
      else if i =? 0 then (0, 0, false) else (n, i, true)
  | [] => if i =? 0 then (0, 0, false) else (n, i, true)
  end.

Definition dtoi (s : list Z) : Z * Z * bool := dtoi_loop s 0 0.

(** [s[:i]] and [s[i+1:]] for the first ['/'] of [s]. *)
Fixpoint splitSlash (s : list Z) : option (list Z * list Z) :=
  match s with
  | [] => None
  | c :: rest =>
      if c =? ch_slash then Some ([], rest)
      else match splitSlash rest with
           | Some (addr, mask) => Some (c :: addr, mask)
           | None => None
           end
  end.

(** The two parts of a CIDR string that [ParseCIDR] reads: the address and
    the prefix length, checked against the address family. *)
Definition parseCIDRParts (s : string) : option (netip.Addr * Z) :=
  match splitSlash (bytes_of_string s) with
  | None => None
  | Some (addr, mask) =>
      match netip.ParseAddr addr with
      | None => None
      | Some ipAddr =>
          let '(n, i, ok) := dtoi mask in
          if negb ok || negb (i =? Z.of_nat (length mask)) || (n <? 0) || (netip.BitLen ipAddr <? n)
          then None
          else Some (ipAddr, n)
      end
  end.

(** [ParseCIDR]: the address in 16-byte form and the network
    [IPNet{IP: addr16.Mask(m), Mask: m}] with [m = CIDRMask(n, BitLen)]. *)
Definition ParseCIDR (s : string) : option (IP * IPNet) :=
  match parseCIDRParts s with
  | None => None
  | Some (ipAddr, n) =>
      let m := CIDRMask n (netip.BitLen ipAddr) in
      let addr16 := netip.As16 ipAddr in
      Some (addr16, {| IPNet_IP := Mask addr16 m; IPNet_Mask := m |})
  end.

(** [ParseIP]: the 16-byte form of the address [s] spells; [nil] when [s]
    is not the text of an address, or names a zone. *)
Definition ParseIP (s : string) : IP :=
  match netip.ParseAddr (bytes_of_string s) with
  | Some addr => netip.As16 addr
  | None => []
  end.

End net.

(** The [n] bytes that spell [v mod 256 ^ n], most significant first. *)
Fixpoint be_bytes (n : nat) (v : Z) : list Z :=
  match n with
  | O => []
  | S k => be_bytes k (v / 256) ++ [v mod 256]
  end.

Module utils.

(** [incrementIP]: the loop [for n := len(ip) - 1; n >= 0; n--].  The first
    argument counts the indices not yet visited, so the index looked at is
    [n - 1]; [continue] is the recursive call and [break] returns. *)
Fixpoint incrementIP_loop (n : nat) (ip : IP) : IP :=
  match n with
  | O => ip
  | S k =>
      match ip !! k with
      | Some b =>
          if b =? 255 then incrementIP_loop k (<[k := 0]> ip)
          else <[k := (b + 1) mod 256]> ip
      | None => ip
      end
  end.

Definition incrementIP (ip : IP) : IP := incrementIP_loop (length ip) ip.

(** What a call of [CIDRtoListIP] ends in: the pair [(IPs, err)] it
    returns, or the end of the program when [append] cannot grow the slice
    (the panic "growslice: len out of range", or the runtime's fatal "out of
    memory"). *)
Inductive result :=
  | Ok (IPs : list string)
  | Err (msg : string)
  | OutOfMemory.

(** The most strings a slice holds on any target: [growslice] panics once
    the capacity asked for, times the size of a string header (16 bytes on
    the 64-bit targets, 8 on the others), exceeds [maxAlloc], which is at
    most [2 ^ 48]. *)
Definition maxLen : Z := 2 ^ 44.

Section memory.

(** Whether the runtime finds the memory to grow a slice of [n] strings by
    one more. *)
Variable memory : nat -> bool.

(** Whether [append] to a slice of [n] strings goes through. *)
Definition canAppend (n : nat) : bool := (Z.of_nat n <? maxLen) && memory n.

(** The loop
    [for ip := ip.Mask(ipNet.Mask); ipNet.Contains(ip); incrementIP(&ip)]
    with [IPs = append(IPs, ip.String())] as its body.  The loop has no bound
    of its own, so the embedding counts iterations: [None] says the loop is
    still running after [fuel] tests of its condition. *)
Fixpoint CIDRtoListIP_loop (fuel : nat) (ipNet : net.IPNet) (ip : IP) (IPs : list string)
    : option result :=
  match fuel with
  | O => None
  | S fuel' =>
      if net.Contains ipNet ip
      then
        if canAppend (length IPs)
        then CIDRtoListIP_loop fuel' ipNet (incrementIP ip) (IPs ++ [net.String ip])
        else Some OutOfMemory
      else Some (Ok IPs)
  end.

Definition CIDRtoListIP (fuel : nat) (cidr : string) : option result :=
  match net.ParseCIDR cidr with
  | None => Some (Err ("Couldn't parse " +:+ cidr +:+ " CIDR"))
  | Some (ip, ipNet) =>
      CIDRtoListIP_loop fuel ipNet (net.Mask ip (net.IPNet_Mask ipNet)) []
  end.

End memory.

(** [IsIPv6] *)
Definition IsIPv6 (ipStr : string) : bool :=
  let ip := net.ParseIP ipStr in
  if bool_decide (ip = []) then false                (* not a valid IP address *)
  else bool_decide (net.To4 ip = []).

End utils.

(** ** Package [web]: errors, JSON bodies and responses *)

(** A Go [error], as the code observes it: its message ([err.Error()]) and
    whether [os.IsNotExist] holds of it. *)
Record error := { Error : string; IsNotExist : bool }.

(** [errors.New] and [fmt.Errorf] without [%w]. *)
Definition errorString (msg : string) : error := {| Error := msg; IsNotExist := false |}.

(** [fmt.Errorf(prefix + "%w", err)]: the message of [err] after [prefix]. *)
Definition wrapError (prefix : string) (err : error) : error :=
  {| Error := prefix +:+ Error err; IsNotExist := false |}.

(** The value handed to [encoding/json]. *)
Inductive JSON :=
  | JNull
  | JBool (b : bool)
  | JNumber (n : Z)
  | JString (s : string)
  | JArray (items : list JSON)
  | JObject (members : list (string * JSON)).

(** [map[string]string{k: v}] and [map[string][]string{k: l}] *)
Definition stringMap (k v : string) : JSON := JObject [(k, JString v)].
Definition stringsMap (k : string) (l : option (list string)) : JSON :=
  JObject [(k, match l with None => JNull | Some l => JArray (map JString l) end)].

(** What a handler writes to its [http.ResponseWriter]. *)
Record Response := { StatusCode : Z; Body : JSON }.

Definition StatusOK : Z := 200.
Definition StatusNotFound : Z := 404.
Definition StatusConflict : Z := 409.
Definition StatusInternalServerError : Z := 500.

Module web.

(** Modelled from the spec: [writeJSONResponse] and [writeJSONError] are
    helpers of package [web] defined outside the files at hand.  "All bodies
    JSON; errors [{"error": string}] with the indicated status." *)
Definition writeJSONResponse (status : Z) (payload : JSON) : Response :=
  {| StatusCode := status; Body := payload |}.

Definition writeJSONError (msg : string) (status : Z) : Response :=
  {| StatusCode := status; Body := stringMap "error" msg |}.

Definition MethodGet : string := "GET".
Definition MethodPost : string := "POST".

(** The part of an [*http.Request] the handlers read. *)
Record Request := { Method : string }.

Definition cloudflareRangesLink : list string :=
  [ "https://www.cloudflare.com/ips-v4";
    "https://www.cloudflare.com/ips-v6" ]%string.

Definition cloudflareRanges : list string :=
  [ (* IPv4 Fallback *)
    "173.245.48.0/20";
    "103.21.244.0/22";
    "103.22.200.0/22";
    "103.31.4.0/22";
    "141.101.64.0/18";
    "108.162.192.0/18";
    "190.93.240.0/20";
    "188.114.96.0/20";
    "197.234.240.0/22";
    "198.41.128.0/17";
    "162.158.0.0/15";
    "104.16.0.0/13";
    "104.24.0.0/14";
    "172.64.0.0/13";
    "131.0.72.0/22";
    (* IPv6 Fallback *)
    "2606:4700::/32";
    "2803:f800::/32";
    "2400:cb00::/32";
    "2c0f:f248::/32";
    "2a06:98c0::/29" ]%string.

(** [strings.Split(s, "\n")] *)
Fixpoint splitLines (s : string) : list string :=
  match s with
  | EmptyString => [EmptyString]
  | String a s' =>
      if Ascii.eqb a "010"%char then EmptyString :: splitLines s'
      else match splitLines s' with
           | h :: t => String a h :: t
           | [] => [String a EmptyString]
           end
  end.

Section handlers.

(** The [ServiceManager] behind the handlers: its state and the two
    operations the proxy handlers call, each returning the error or [nil]. *)
Variable manager : Type.
Variable StopProxy : manager -> manager * option error.
Variable RotateProxy : manager -> manager * option error.

(** [methodNotAllowed(w)]: the reply to a request with the wrong method. *)
Variable methodNotAllowed : Response.

Definition handleProxyStop (m : manager) (r : Request) : manager * Response :=
  if negb (String.eqb (Method r) MethodPost) then (m, methodNotAllowed)
  else
    match StopProxy m with
    | (m', Some err) => (m', writeJSONError (Error err) StatusNotFound)
    | (m', None) => (m', writeJSONResponse StatusOK (stringMap "status" "Proxy service stopped"))
    end.

Definition handleProxyRotate (m : manager) (r : Request) : manager * Response :=
  if negb (String.eqb (Method r) MethodPost) then (m, methodNotAllowed)
  else
    match RotateProxy m with
    | (m', Some err) => (m', writeJSONError (Error err) StatusConflict)
    | (m', None) => (m', writeJSONResponse StatusOK (stringMap "status" "Rotate signal sent"))
    end.

(** *** [handleCfScannerRanges]

    What [http.Get(url)] and reading the body come to, per URL. *)
Inductive fetched :=
  | GetFailed (err : error)                       (* http.Get returned an error *)
  | BadStatus (Status : string)                   (* resp.StatusCode != 200 *)
  | ReadFailed (err : error)                      (* io.ReadAll returned an error *)
  | Fetched (body : string).                      (* status 200 and the body *)

Variable Get : string -> fetched.

(** [strings.TrimSpace] *)
Variable TrimSpace : string -> string.

(** The variables shared by the goroutines, guarded by [mu]. *)
Record shared := { allRanges : option (list string); firstError : option error }.

Definition setFirstError (s : shared) (err : error) : shared :=
  match firstError s with
  | None => {| allRanges := allRanges s; firstError := Some err |}
  | Some _ => s
  end.

(** [append(allRanges, lines...)] onto a possibly [nil] slice. *)
Definition appendRanges (s : shared) (lines : list string) : shared :=
  {| allRanges := match allRanges s, lines with
                  | None, [] => None
                  | None, _ => Some lines
                  | Some l, _ => Some (l ++ lines)
                  end;
     firstError := firstError s |}.

(** The body of one goroutine, [go func(url string)]: everything it does to
    the shared variables happens in one critical section. *)
Definition fetchOne (url : string) (s : shared) : shared :=
  match Get url with
  | GetFailed err =>
      setFirstError s (wrapError ("failed to fetch " +:+ url +:+ ": ") err)
  | BadStatus status =>
      setFirstError s (errorString ("bad status from " +:+ url +:+ ": " +:+ status))
  | ReadFailed err =>
      setFirstError s (wrapError ("failed to read body from " +:+ url +:+ ": ") err)
  | Fetched body => appendRanges s (splitLines (TrimSpace body))
  end.

(** [wg.Wait()] returns once every goroutine has run its critical section;
    [order] is the order in which they took the lock. *)
Definition fetchAll (order : list string) : shared :=
  fold_left (fun s url => fetchOne url s) order {| allRanges := None; firstError := None |}.

(** The handler's reply and what it logs. *)
Definition handleCfScannerRanges (order : list string) (r : Request) : Response * list string :=
  if negb (String.eqb (Method r) MethodGet) then (methodNotAllowed, [])
  else
    let s := fetchAll order in
    match firstError s with
    | Some err =>
        (writeJSONResponse StatusOK (stringsMap "ranges" (Some cloudflareRanges)),
         ["Failed to fetch live Cloudflare IP ranges, using fallback list. Error: " +:+ Error err])
    | None => (writeJSONResponse StatusOK (stringsMap "ranges" (allRanges s)), [])
    end.

End handlers.

End web.

(** ** [WebSocketService]: batching of [http_result] messages *)
Module websocket.

Definition BATCH_INTERVAL : Z := 250. (* ms *)

Section service.
(** The payload of an [http_result] message. *)
Variable HttpResult : Type.

(** The two private fields of [WebSocketService] the batching uses. *)
Record WebSocketService := {
  httpResultBuffer : list HttpResult;
  httpResultTimer : option nat
}.

(** The browser's side: the intervals registered with [window.setInterval]
    and not yet cleared, each with its period, and the next timer id; and
    the store's side: the batches handed to [addHttpResultsBatch], oldest
    first, and the status set by [setHttpTestStatus]. *)
Record World := {
  service : WebSocketService;
  intervals : list (nat * Z);
  nextTimer : nat;
  delivered : list (list HttpResult);
  httpTestStatus : string
}.

(** [flushHttpResultBuffer]: the buffer goes to the store as one batch and
    the field is set to a fresh empty array (the array handed over is not
    written to again). *)
Definition flushHttpResultBuffer (w : World) : World :=
  match httpResultBuffer (service w) with
  | [] => w
  | buffer =>
      {| service := {| httpResultBuffer := [];
                       httpResultTimer := httpResultTimer (service w) |};
         intervals := intervals w; nextTimer := nextTimer w;
         delivered := delivered w ++ [buffer];
         httpTestStatus := httpTestStatus w |}
  end.

(** [startHttpResultBatching] *)
Definition startHttpResultBatching (w : World) : World :=
  match httpResultTimer (service w) with
  | None =>
      {| service := {| httpResultBuffer := httpResultBuffer (service w);
                       httpResultTimer := Some (nextTimer w) |};
         intervals := intervals w ++ [(nextTimer w, BATCH_INTERVAL)];
         nextTimer := S (nextTimer w);
         delivered := delivered w; httpTestStatus := httpTestStatus w |}
  | Some _ => w
  end.

(** [stopHttpResultBatching] *)
Definition stopHttpResultBatching (w : World) : World :=
  let w :=
    match httpResultTimer (service w) with
    | Some id =>
        {| service := {| httpResultBuffer := httpResultBuffer (service w);
                         httpResultTimer := None |};
           intervals := filter (fun t => fst t <> id) (intervals w);
           nextTimer := nextTimer w;
           delivered := delivered w; httpTestStatus := httpTestStatus w |}
    | None => w
    end in
  flushHttpResultBuffer w.

(** The messages [handleMessage] tells apart, as far as the batching goes. *)
Inductive message :=
  | http_result (data : HttpResult)
  | http_test_status (status : string)
  | other_message.

Definition setHttpTestStatus (status : string) (w : World) : World :=
  {| service := service w; intervals := intervals w; nextTimer := nextTimer w;
     delivered := delivered w; httpTestStatus := status |}.

(** [handleMessage], cases ['http_result'] and ['http_test_status']. *)
Definition handleMessage (m : message) (w : World) : World :=
  match m with
  | http_result data =>
      let w := startHttpResultBatching w in
      {| service := {| httpResultBuffer := httpResultBuffer (service w) ++ [data];
                       httpResultTimer := httpResultTimer (service w) |};
         intervals := intervals w; nextTimer := nextTimer w;
         delivered := delivered w; httpTestStatus := httpTestStatus w |}
  | http_test_status status =>
      let w := stopHttpResultBatching w in
      if String.eqb status "finished" || String.eqb status "stopped"
      then setHttpTestStatus "idle" w
      else setHttpTestStatus status w
  | other_message => w
  end.

(** What happens to the service: a message arrives, a registered interval
    fires, the socket closes ([ws.onclose]) or [disconnect] is called. *)
Inductive event :=
  | Message (m : message)
  | IntervalFires (id : nat)
  | Closed
  | Disconnect.

Definition step (w : World) (e : event) : World :=
  match e with
  | Message m => handleMessage m w
  | IntervalFires id =>
      if existsb (fun t => Nat.eqb (fst t) id) (intervals w)
      then flushHttpResultBuffer w else w
  | Closed => stopHttpResultBatching w
  | Disconnect => stopHttpResultBatching w
  end.

Definition initial : World :=
  {| service := {| httpResultBuffer := []; httpResultTimer := None |};
     intervals := []; nextTimer := 0; delivered := []; httpTestStatus := "idle" |}.

Definition run (trace : list event) : World := fold_left step trace initial.

(** The payloads of the [http_result] messages of a trace, in order. *)
Definition received (trace : list event) : list HttpResult :=
  flat_map (fun e => match e with Message (http_result d) => [d] | _ => [] end) trace.

End service.

End websocket.

(** ** Decimal numbers in messages and fields *)

(** [strconv.Itoa] / [FormatInt(n, 10)]: [digits] bounds the number of
    digits written. *)
Fixpoint itoa_loop (digits : nat) (n : Z) (acc : string) : string :=
  match digits with
  | O => acc
  | S digits' =>
      let acc' := String (ascii_of_byte (ch_0 + n mod 10)) acc in
      if n <? 10 then acc' else itoa_loop digits' (n / 10) acc'
  end.

Definition itoa (n : Z) : string :=
  if n <? 0 then String "-"%char (itoa_loop (S (Z.to_nat (Z.log2 (- n)))) (- n) EmptyString)
  else itoa_loop (S (Z.to_nat (Z.log2 n))) n EmptyString.

(** ** Package [encoding/csv] *)
Module csv.

Definition Comma : Z := 44.      (* ',' *)
Definition ch_quote : Z := 34.   (* the double quote *)
Definition ch_LF : Z := 10.      (* '\n' *)
Definition ch_CR : Z := 13.      (* '\r' *)

(** *** Writer (with [Comma = ','] and [UseCRLF = false], as
    [csv.NewWriter] sets them) *)

(** [unicode.IsSpace] of the first rune of [field], read off its UTF-8 bytes:
    the ASCII spaces, U+0085, U+00A0, U+1680, U+2000..U+200A, U+2028, U+2029,
    U+202F, U+205F and U+3000. *)
Definition firstRuneIsSpace (field : list Z) : bool :=
  match field with
  | b0 :: rest =>
      if b0 <? 128 then (b0 =? 9) || (b0 =? 10) || (b0 =? 11) || (b0 =? 12) || (b0 =? 13) || (b0 =? 32)
      else
        match rest with
        | b1 :: rest' =>
            if b0 =? 194 then (b1 =? 133) || (b1 =? 160)
            else
              match rest' with
              | b2 :: _ =>
                  ((b0 =? 225) && (b1 =? 154) && (b2 =? 128))
                  || ((b0 =? 226) && (b1 =? 128)
                      && (((128 <=? b2) && (b2 <=? 138)) || (b2 =? 168) || (b2 =? 169) || (b2 =? 175)))
                  || ((b0 =? 226) && (b1 =? 129) && (b2 =? 159))
                  || ((b0 =? 227) && (b1 =? 128) && (b2 =? 128))
              | [] => false
              end
        | [] => false
        end
  | [] => false
  end.

(** [Writer.fieldNeedsQuotes] *)
Definition fieldNeedsQuotes (field : list Z) : bool :=
  match field with
  | [] => false
  | _ =>
      if bool_decide (field = [92; 46]) then true      (* `\.` *)
      else if existsb (fun c => (c =? ch_LF) || (c =? ch_CR) || (c =? ch_quote) || (c =? Comma)) field
      then true
      else firstRuneIsSpace field
  end.

(** The loop of [Writer.Write] over a field that is quoted: a quote is
    doubled, every other byte is copied. *)
Fixpoint writeQuoted (field : list Z) : list Z :=
  match field with
  | [] => []
  | c :: field' =>
      if c =? ch_quote then ch_quote :: ch_quote :: writeQuoted field'
      else c :: writeQuoted field'
  end.

Definition writeField (field : list Z) : list Z :=
  if fieldNeedsQuotes field then ch_quote :: writeQuoted field ++ [ch_quote] else field.

(** The fields of a record from the [n]-th on, each after a comma when
    [n > 0]. *)
Fixpoint writeFields (first : bool) (record : list (list Z)) : list Z :=
  match record with
  | [] => []
  | field :: record' =>
      (if first then [] else [Comma]) ++ writeField field ++ writeFields false record'
  end.

(** [Writer.Write]: the bytes of one record, ended by ['\n']. *)
Definition Write (record : list (list Z)) : list Z := writeFields true record ++ [ch_LF].

(** *** Reader (with the settings of [csv.NewReader]: [Comma = ','], no
    comment character, [FieldsPerRecord = 0], no lazy quotes, no trimming) *)

(** The quote character as a string. *)
Definition quote : string := String "034"%char EmptyString.

Definition ErrBareQuote : string := "bare " +:+ quote +:+ " in non-quoted-field".
Definition ErrQuote : string := "extraneous or missing " +:+ quote +:+ " in quoted-field".
Definition ErrFieldCount : string := "wrong number of fields".

(** [ParseError.Error] *)
Definition ParseError (StartLine Line Column : Z) (Err : string) : error :=
  {| Error :=
       if String.eqb Err ErrFieldCount
       then "record on line " +:+ itoa Line +:+ ": " +:+ Err
       else if negb (StartLine =? Line)
       then "record on line " +:+ itoa StartLine +:+ "; parse error on line " +:+ itoa Line
            +:+ ", column " +:+ itoa Column +:+ ": " +:+ Err
       else "parse error on line " +:+ itoa Line +:+ ", column " +:+ itoa Column +:+ ": " +:+ Err;
     IsNotExist := false |}.

(** What [Reader.readLine] makes of the input, line by line: the carriage
    return of a line that ends in a carriage return and a line feed is
    removed, and so is a carriage return that ends the input. *)
Fixpoint readLines (input : list Z) : list Z :=
  match input with
  | [] => []
  | c :: rest =>
      if c =? ch_CR then
        match rest with
        | [] => []
        | c' :: _ => if c' =? ch_LF then readLines rest else c :: readLines rest
        end
      else c :: readLines rest
  end.

(** Where [readRecord] stands in the text. *)
Inductive mode :=
  | RecordStart     (* before the first line of a record *)
  | FieldStart      (* [parseField:], before a field *)
  | Unquoted        (* in a non-quoted field *)
  | Quoted          (* in a quoted field *)
  | QuoteSeen.      (* after a quote met in a quoted field *)

(** [r.numLine], the line the record started on, and [pos]. *)
Record position := { numLine : Z; recLine : Z; posLine : Z; posCol : Z }.

Definition nextCol (p : position) : position :=
  {| numLine := numLine p; recLine := recLine p; posLine := posLine p; posCol := posCol p + 1 |}.

(** A blank line was read. *)
Definition skipLine (p : position) : position :=
  {| numLine := numLine p + 1; recLine := recLine p; posLine := posLine p; posCol := posCol p |}.

(** The first line of a record was read. *)
Definition startRecord (p : position) : position :=
  {| numLine := numLine p + 1; recLine := numLine p + 1; posLine := numLine p + 1; posCol := 1 |}.

(** A quoted field runs over the end of a line: the next line is read, and
    [pos] moves to it when it is not empty. *)
Definition nextLine (more : bool) (p : position) : position :=
  {| numLine := numLine p + 1; recLine := recLine p;
     posLine := if more then posLine p + 1 else posLine p;
     posCol := if more then 1 else posCol p + 1 |}.

Definition records := list (list (list Z)).

(** The end of a record: the check against [FieldsPerRecord], which the
    first record sets. *)
Definition endRecord (FieldsPerRecord : Z) (record : list (list Z)) (p : position)
    : error + Z :=
  if 0 <? FieldsPerRecord then
    if negb (Z.of_nat (length record) =? FieldsPerRecord)
    then inl (ParseError (recLine p) (recLine p) 1 ErrFieldCount)
    else inr FieldsPerRecord
  else inr (Z.of_nat (length record)).

Section step.
(** How reading goes on after the byte at hand. *)
Variable continue : mode -> list Z -> list (list Z) -> records -> Z -> position -> error + records.
(** Whether input is left after the byte at hand. *)
Variable more : bool.

(** A byte of a non-quoted field, or the comma or line end after a field. *)
Definition stepUnquoted (c : Z) (field : list Z) (record : list (list Z)) (done : records)
    (fpr : Z) (p : position) : error + records :=
  if c =? Comma then continue FieldStart [] (record ++ [field]) done fpr (nextCol p)
  else if c =? ch_LF then
    match endRecord fpr (record ++ [field]) p with
    | inl err => inl err
    | inr fpr' => continue RecordStart [] [] (done ++ [record ++ [field]]) fpr' p
    end
  else if c =? ch_quote then inl (ParseError (recLine p) (numLine p) (posCol p) ErrBareQuote)
  else continue Unquoted (field ++ [c]) record done fpr (nextCol p).

Definition stepField (c : Z) (record : list (list Z)) (done : records)
    (fpr : Z) (p : position) : error + records :=
  if c =? ch_quote then continue Quoted [] record done fpr (nextCol p)
  else stepUnquoted c [] record done fpr p.

Definition step (m : mode) (c : Z) (field : list Z) (record : list (list Z)) (done : records)
    (fpr : Z) (p : position) : error + records :=
  match m with
  | RecordStart =>
      if c =? ch_LF then continue RecordStart [] [] done fpr (skipLine p)
      else stepField c [] done fpr (startRecord p)
  | FieldStart => stepField c record done fpr p
  | Unquoted => stepUnquoted c field record done fpr p
  | Quoted =>
      if c =? ch_quote then continue QuoteSeen field record done fpr (nextCol p)
      else if c =? ch_LF then continue Quoted (field ++ [c]) record done fpr (nextLine more p)
      else continue Quoted (field ++ [c]) record done fpr (nextCol p)
  | QuoteSeen =>
      if c =? ch_quote then continue Quoted (field ++ [ch_quote]) record done fpr (nextCol p)
      else if (c =? Comma) || (c =? ch_LF) then stepUnquoted c field record done fpr p
      else inl (ParseError (recLine p) (numLine p) (posCol p - 1) ErrQuote)
  end.
End step.

(** The end of the input. *)
Definition atEOF (m : mode) (field : list Z) (record : list (list Z)) (done : records)
    (fpr : Z) (p : position) : error + records :=
  match m with
  | RecordStart => inr done
  | Quoted => inl (ParseError (recLine p) (posLine p) (posCol p) ErrQuote)
  | FieldStart | Unquoted | QuoteSeen =>
      match endRecord fpr (record ++ [field]) p with
      | inl err => inl err
      | inr _ => inr (done ++ [record ++ [field]])
      end
  end.

(** [readRecord] called again and again, as [ReadAll] does, over the lines
    [readLine] delivers. *)
Fixpoint readRecords (input : list Z) (m : mode) (field : list Z) (record : list (list Z))
    (done : records) (fpr : Z) (p : position) : error + records :=
  match input with
  | [] => atEOF m field record done fpr p
  | c :: rest =>
      step (readRecords rest) (negb (bool_decide (rest = []))) m c field record done fpr p
  end.

(** [Reader.ReadAll] *)
Definition ReadAll (input : list Z) : error + records :=
  readRecords (readLines input) RecordStart [] [] [] 0
    {| numLine := 0; recLine := 0; posLine := 0; posCol := 0 |}.

End csv.

(** ** Package [gocsv] *)

(** What [gocsv] reads off a struct type by reflection: the names of its
    columns (the [csv] tags of its fields, in order), the text of each field
    of a value, and the way back, from the header row of a file and one of its
    rows to a value, or to the index of the column that could not be parsed
    and the error's message.  [jsonOf] is what [encoding/json] makes of a
    value.  The struct types themselves ([pkghttp.Result],
    [scanner.ScanResult]) are declared outside the files at hand; their
    fields are of kinds [gocsv] turns into text without an error. *)
Class RowCodec (R : Type) := {
  csvHeader : list string;
  csvFields : R -> list string;
  csvDecode : list string -> list string -> (nat * string) + R;
  jsonOf : R -> JSON
}.

Module gocsv.

Definition ErrEmptyCSVFile : error := errorString "empty csv file given".
Definition ErrNoStructTags : error := errorString "no csv struct tags found".

Section codec.
Context {R : Type} `{RowCodec R}.

Definition row (fields : list string) : list Z := csv.Write (map bytes_of_string fields).

(** [writeTo]: the header row unless [omitHeaders], then one row per
    element of [in]; the bytes that reach the underlying writer once the
    [csv.Writer] is flushed. *)
Definition writeTo (batch : list R) (omitHeaders : bool) : list Z :=
  (if omitHeaders then [] else row csvHeader)
  ++ concat (map (fun r => row (csvFields r)) batch).

Definition MarshalCSV (batch : list R) : list Z := writeTo batch false.
Definition MarshalCSVWithoutHeaders (batch : list R) : list Z := writeTo batch true.

(** The loop of [readTo] over the rows after the header; [i] is the index of
    the row at hand. *)
Fixpoint decodeBody (headers : list string) (body : list (list string)) (i : Z)
    : error + list R :=
  match body with
  | [] => inr []
  | csvRow :: body' =>
      match csvDecode headers csvRow with
      | inl (j, msg) => inl (csv.ParseError 0 (i + 2) (Z.of_nat j + 1) msg)
      | inr r =>
          match decodeBody headers body' (i + 1) with
          | inl err => inl err
          | inr rs => inr (r :: rs)
          end
      end
  end.

(** [readTo] over the rows [GetCSVRows] returned, with [out] pointing to a
    [nil] slice: the slice after the call ([None] is [nil]), or the error.
    [ensureOutCapacity] makes a slice only when there are more rows after
    the header than the slice is long, so a header with no row after it
    leaves the slice [nil]. *)
Definition readTo (csvRows : list (list string)) : error + option (list R) :=
  match csvRows with
  | [] => inl ErrEmptyCSVFile
  | headers :: body =>
      if (length (csvHeader (R := R)) =? 0)%nat then inl ErrNoStructTags
      else
        match body with
        | [] => inr None
        | _ =>
            match decodeBody headers body 0 with
            | inl err => inl err
            | inr rows => inr (Some rows)
            end
        end
  end.

(** [UnmarshalFile], i.e. [readTo] over [csv.NewReader(file).ReadAll()]. *)
Definition UnmarshalFile (content : list Z) : error + option (list R) :=
  match csv.ReadAll content with
  | inl err => inl err
  | inr csvRows => readTo (map (map string_of_bytes) csvRows)
  end.

End codec.
End gocsv.

(** ** Files *)

(** A path of the working directory holds a file with its bytes, or a file
    that cannot be opened; a path not in the map holds nothing. *)
Inductive file :=
  | File (content : list Z)
  | NoAccess.

Module os.

Definition PathError (Op Path Err : string) (notExist : bool) : error :=
  {| Error := Op +:+ " " +:+ Path +:+ ": " +:+ Err; IsNotExist := notExist |}.

(** What the operating system refuses during one call, whatever the files
    hold (a directory that cannot be written, a full or failing disk): for
    each operation the text of the error ("permission denied", "read-only
    file system", "no space left on device", ...), or [None] when it goes
    through.  A write that fails says how many bytes of the call the file
    took before it, and whether the failure showed while the rows were
    still being marshalled rather than at the last flush. *)
Record Faults := {
  onCreate : option string;
  onStat : option string;
  onWrite : option (nat * bool * string);
  onRemove : option string
}.

Definition noFaults : Faults :=
  {| onCreate := None; onStat := None; onWrite := None; onRemove := None |}.

(** [os.Open] *)
Definition Open (fs : gmap string file) (name : string) : error + list Z :=
  match fs !! name with
  | None => inl (PathError "open" name "no such file or directory" true)
  | Some NoAccess => inl (PathError "open" name "permission denied" false)
  | Some (File content) => inr content
  end.

(** [os.OpenFile(name, O_WRONLY|O_CREATE|O_APPEND, 0644)]: the file system
    with the file created if it was not there, and the bytes it holds. *)
Definition OpenFile_append (faults : Faults) (fs : gmap string file) (name : string)
    : error + (gmap string file * list Z) :=
  match fs !! name with
  | None =>
      match onCreate faults with
      | Some msg => inl (PathError "open" name msg false)
      | None => inr (<[name := File []]> fs, [])
      end
  | Some NoAccess => inl (PathError "open" name "permission denied" false)
  | Some (File content) => inr (fs, content)
  end.

(** [File.Stat] on an open file: its error. *)
Definition Stat (faults : Faults) (name : string) : option error :=
  match onStat faults with
  | Some msg => Some (PathError "stat" name msg false)
  | None => None
  end.

(** The size of the buffer of a [bufio.Writer]. *)
Definition defaultBufSize : nat := 4096.

(** What becomes of the bytes a call pushes through its buffered writers
    onto a file opened for appending. *)
Inductive written :=
  | AllWritten
  | WriteFailed (reached : nat) (marshalling : bool) (err : error).

(** The bytes go to the file in writes of at most a buffer each, the last
    of them at the final flush; nothing is written for no bytes, and a
    failure shows only if the file is offered more than it takes.  Up to
    one buffer of bytes, the only write is the one of the final flush. *)
Definition Write (faults : Faults) (name : string) (bytes : list Z) : written :=
  match onWrite faults with
  | Some (reached, early, msg) =>
      if (reached <? length bytes)%nat
      then WriteFailed reached (early && (defaultBufSize <? length bytes)%nat)
             (PathError "write" name msg false)
      else AllWritten
  | None => AllWritten
  end.

(** [os.Remove] *)
Definition Remove (faults : Faults) (fs : gmap string file) (name : string)
    : gmap string file * option error :=
  match fs !! name with
  | None => (fs, Some (PathError "remove" name "no such file or directory" true))
  | Some _ =>
      match onRemove faults with
      | Some msg => (fs, Some (PathError "remove" name msg false))
      | None => (delete name fs, None)
      end
  end.

End os.

(** ** [web/api_handlers.go]: the history files *)
Module history.

(** Modelled from the spec: the constants [httpTesterHistoryFile] and
    [cfScannerHistoryFile] are declared outside the files at hand.  "Two CSV
    files in the working directory: [http_test_history.csv],
    [cf_scan_history.csv]." *)
Definition httpTesterHistoryFile : string := "http_test_history.csv".
Definition cfScannerHistoryFile : string := "cf_scan_history.csv".

Section files.
Context {R : Type} `{RowCodec R}.

(** [appendResultsToCSV]: the file system after the call and the error
    returned.  The rows go through the [csv.Writer] and the [bufio.Writer]
    onto a file opened with [O_APPEND]: what reaches the file lands after
    the bytes it held.  A write that fails while [gocsv] is still writing
    rows comes back as its error, one that fails at the last
    [bufWriter.Flush()] is returned as it is. *)
Definition appendResultsToCSV (faults : os.Faults) (fs : gmap string file) (filePath : string)
    (batch : list R) : gmap string file * option error :=
  match os.OpenFile_append faults fs filePath with
  | inl err => (fs, Some (wrapError "failed to open file for appending: " err))
  | inr (fs, content) =>
      match os.Stat faults filePath with
      | Some err => (fs, Some (wrapError "failed to stat file: " err))
      | None =>
          let Size := Z.of_nat (length content) in
          let bytes :=
            if Size =? 0 then gocsv.MarshalCSV batch
            else gocsv.MarshalCSVWithoutHeaders batch in
          match os.Write faults filePath bytes with
          | os.AllWritten => (<[filePath := File (content ++ bytes)]> fs, None)
          | os.WriteFailed reached marshalling err =>
              (<[filePath := File (content ++ take reached bytes)]> fs,
               Some (if marshalling
                     then wrapError "failed to marshal and append results to CSV: " err
                     else err))
          end
      end
  end.

(** [loadResultsFromCSV], called with [v] pointing to a [nil] slice: the
    slice after the call ([None] is [nil]) or the error returned. *)
Definition loadResultsFromCSV (fs : gmap string file) (filePath : string)
    : error + option (list R) :=
  match os.Open fs filePath with
  | inl err => if IsNotExist err then inr None else inl err
  | inr content =>
      match gocsv.UnmarshalFile content with
      | inl err =>
          if String.eqb (Error err) "EOF" then inr None
          else inl (wrapError "failed to parse CSV file: " err)
      | inr results => inr results
      end
  end.

Variable methodNotAllowed : Response.

(** [handleHttpTestHistory] *)
Definition handleHttpTestHistory (fs : gmap string file) (r : web.Request) : Response :=
  if negb (String.eqb (web.Method r) web.MethodGet) then methodNotAllowed
  else
    match loadResultsFromCSV fs httpTesterHistoryFile with
    | inl err =>
        web.writeJSONError ("failed to load http test history: " +:+ Error err)
          StatusInternalServerError
    | inr results =>
        let results := match results with None => [] | Some rs => rs end in
        web.writeJSONResponse StatusOK (JArray (map jsonOf results))
    end.

(** [handleCfScannerHistory] *)
Definition handleCfScannerHistory (fs : gmap string file) (r : web.Request) : Response :=
  if negb (String.eqb (web.Method r) web.MethodGet) then methodNotAllowed
  else
    match loadResultsFromCSV fs cfScannerHistoryFile with
    | inl _ => web.writeJSONResponse StatusOK (JArray [])
    | inr None => web.writeJSONResponse StatusOK JNull
    | inr (Some rs) => web.writeJSONResponse StatusOK (JArray (map jsonOf rs))
    end.

(** [handleHttpTestClearHistory]: the file system after the call and the
    reply. *)
Definition handleHttpTestClearHistory (faults : os.Faults) (fs : gmap string file)
    (r : web.Request) : gmap string file * Response :=
  if negb (String.eqb (web.Method r) web.MethodPost) then (fs, methodNotAllowed)
  else
    match os.Remove faults fs httpTesterHistoryFile with
    | (fs', Some err) =>
        if negb (IsNotExist err)
        then (fs', web.writeJSONError ("Failed to clear http test history file: " +:+ Error err)
                     StatusInternalServerError)
        else (fs', web.writeJSONResponse StatusOK (stringMap "status" "History cleared"))
    | (fs', None) => (fs', web.writeJSONResponse StatusOK (stringMap "status" "History cleared"))
    end.

(** [handleCfScannerClearHistory] *)
Definition handleCfScannerClearHistory (faults : os.Faults) (fs : gmap string file)
    (r : web.Request) : gmap string file * Response :=
  if negb (String.eqb (web.Method r) web.MethodPost) then (fs, methodNotAllowed)
  else
    match os.Remove faults fs cfScannerHistoryFile with
    | (fs', Some err) =>
        if negb (IsNotExist err)
        then (fs', web.writeJSONError ("Failed to clear history file: " +:+ Error err)
                     StatusInternalServerError)
        else (fs', web.writeJSONResponse StatusOK (stringMap "status" "History cleared"))
    | (fs', None) => (fs', web.writeJSONResponse StatusOK (stringMap "status" "History cleared"))
    end.

End files.
End history.

(** ** [web/api_handlers.go]: the other handlers and the routes *)

Definition StatusAccepted : Z := 202.
Definition StatusBadRequest : Z := 400.

Module api.

Section handlers.

(** The [ServiceManager] behind the handlers: its state and its methods,
    every one of which may change the state; and the values the request
    bodies decode to. *)
Variable manager : Type.
Variable ProxyConfig Options HttpTestRequest ScannerConfig : Type.
Variable StartProxy : ProxyConfig -> manager -> manager * option error.
Variable StopProxy : manager -> manager * option error.
Variable RotateProxy : manager -> manager * option error.
Variable GetProxyStatus : manager -> manager * string.
Variable GetProxyDetails : manager -> manager * (error + JSON).
Variable StartHttpTest : HttpTestRequest -> manager -> manager * option error.
Variable GetHttpTestStatus : manager -> manager * string.
Variable StopHttpTest : manager -> manager.
Variable StartScanner : ScannerConfig -> manager -> manager * option error.
Variable StopScanner : manager -> manager.
Variable GetScannerStatus : manager -> manager * bool.

(** [decodeJSONBody(w, r, &dst)], per type of [dst]: the value the body
    decodes to, or the error.  For [handleHttpTest] the body decodes to the
    three parts of the anonymous struct. *)
Variable decodeProxyConfig : string -> error + ProxyConfig.
Variable decodeHttpTest : string -> error + (list string * Z * Options).
Variable decodeScannerConfig : string -> error + ScannerConfig.

(** The composite literal [pkghttp.HttpTestRequest{Links: ..., ThreadCount:
    ..., Options: ...}]. *)
Variable mkHttpTestRequest : list string -> Z -> Options -> HttpTestRequest.

Variable methodNotAllowed : Response.

(** The rows of the two history files. *)
Context {HttpRow ScanRow : Type} {httpCodec : RowCodec HttpRow} {scanCodec : RowCodec ScanRow}.

(** What [handleCfScannerRanges] meets: the fetches and the order in which
    its goroutines take the lock. *)
Variable Get : string -> web.fetched.
Variable TrimSpace : string -> string.
Variable order : list string.

(** What the operating system refuses while a request is served. *)
Variable faults : os.Faults.

(** What the handlers act on: the manager and the files of the working
    directory. *)
Record World := { mgr : manager; files : gmap string file }.

(** A handler: from the request (its method and its body) and the world to
    the world after it and the reply written. *)
Definition Handler : Type := web.Request -> string -> World -> World * Response.

Definition withManager (w : World) (m : manager) : World := {| mgr := m; files := files w |}.
Definition withFiles (w : World) (fs : gmap string file) : World := {| mgr := mgr w; files := fs |}.

Definition invalidBody (err : error) : Response :=
  web.writeJSONError ("Invalid request body: " +:+ Error err) StatusBadRequest.

Definition handleProxyStart : Handler := fun r body w =>
  if negb (String.eqb (web.Method r) web.MethodPost) then (w, methodNotAllowed)
  else
    match decodeProxyConfig body with
    | inl err => (w, invalidBody err)
    | inr cfg =>
        match StartProxy cfg (mgr w) with
        | (m, Some err) => (withManager w m, web.writeJSONError (Error err) StatusInternalServerError)
        | (m, None) =>
            (withManager w m,
             web.writeJSONResponse StatusOK (stringMap "status" "Proxy service started"))
        end
    end.

Definition handleProxyStop : Handler := fun r body w =>
  let '(m, reply) := web.handleProxyStop manager StopProxy methodNotAllowed (mgr w) r in
  (withManager w m, reply).

Definition handleProxyStatus : Handler := fun r body w =>
  if negb (String.eqb (web.Method r) web.MethodGet) then (w, methodNotAllowed)
  else
    let '(m, status) := GetProxyStatus (mgr w) in
    (withManager w m, web.writeJSONResponse StatusOK (stringMap "status" status)).

Definition handleProxyDetails : Handler := fun r body w =>
  if negb (String.eqb (web.Method r) web.MethodGet) then (w, methodNotAllowed)
  else
    match GetProxyDetails (mgr w) with
    | (m, inl err) => (withManager w m, web.writeJSONError (Error err) StatusNotFound)
    | (m, inr details) => (withManager w m, web.writeJSONResponse StatusOK details)
    end.

Definition handleProxyRotate : Handler := fun r body w =>
  let '(m, reply) := web.handleProxyRotate manager RotateProxy methodNotAllowed (mgr w) r in
  (withManager w m, reply).

Definition handleHttpTest : Handler := fun r body w =>
  if negb (String.eqb (web.Method r) web.MethodPost) then (w, methodNotAllowed)
  else
    match decodeHttpTest body with
    | inl err => (w, invalidBody err)
    | inr (Links, ThreadCount, options) =>
        let req := mkHttpTestRequest Links ThreadCount options in
        match StartHttpTest req (mgr w) with
        | (m, Some err) => (withManager w m, web.writeJSONError (Error err) StatusConflict)
        | (m, None) =>
            (withManager w m,
             web.writeJSONResponse StatusAccepted (stringMap "status" "HTTP test started"))
        end
    end.

Definition handleHttpTestStatus : Handler := fun r body w =>
  if negb (String.eqb (web.Method r) web.MethodGet) then (w, methodNotAllowed)
  else
    let '(m, status) := GetHttpTestStatus (mgr w) in
    (withManager w m, web.writeJSONResponse StatusOK (stringMap "status" status)).

Definition handleHttpTestStop : Handler := fun r body w =>
  if negb (String.eqb (web.Method r) web.MethodPost) then (w, methodNotAllowed)
  else
    (withManager w (StopHttpTest (mgr w)),
     web.writeJSONResponse StatusOK (stringMap "status" "HTTP test stop signal sent")).

Definition handleHttpTestHistory : Handler := fun r body w =>
  (w, history.handleHttpTestHistory (R := HttpRow) methodNotAllowed (files w) r).

Definition handleHttpTestClearHistory : Handler := fun r body w =>
  let '(fs, reply) := history.handleHttpTestClearHistory methodNotAllowed faults (files w) r in
  (withFiles w fs, reply).

Definition handleCfScannerStart : Handler := fun r body w =>
  if negb (String.eqb (web.Method r) web.MethodPost) then (w, methodNotAllowed)
  else
    match decodeScannerConfig body with
    | inl err => (w, invalidBody err)
    | inr cfg =>
        match StartScanner cfg (mgr w) with
        | (m, Some err) => (withManager w m, web.writeJSONError (Error err) StatusConflict)
        | (m, None) =>
            (withManager w m,
             web.writeJSONResponse StatusAccepted (stringMap "status" "Scanner started"))
        end
    end.

Definition handleCfScannerStop : Handler := fun r body w =>
  if negb (String.eqb (web.Method r) web.MethodPost) then (w, methodNotAllowed)
  else
    (withManager w (StopScanner (mgr w)),
     web.writeJSONResponse StatusOK (stringMap "status" "Scanner stopped")).

Definition handleCfScannerStatus : Handler := fun r body w =>
  if negb (String.eqb (web.Method r) web.MethodGet) then (w, methodNotAllowed)
  else
    let '(m, isScanning) := GetScannerStatus (mgr w) in
    (withManager w m, web.writeJSONResponse StatusOK (JObject [("is_scanning"%string, JBool isScanning)])).

Definition handleCfScannerHistory : Handler := fun r body w =>
  (w, history.handleCfScannerHistory (R := ScanRow) methodNotAllowed (files w) r).

Definition handleCfScannerClearHistory : Handler := fun r body w =>
  let '(fs, reply) := history.handleCfScannerClearHistory methodNotAllowed faults (files w) r in
  (withFiles w fs, reply).

Definition handleCfScannerRanges : Handler := fun r body w =>
  (w, fst (web.handleCfScannerRanges methodNotAllowed Get TrimSpace order r)).

(** [RegisterRoutes]: the patterns handed to [mux.HandleFunc], in order,
    each with its handler. *)
Definition RegisterRoutes : list (string * Handler) :=
  [ ("/api/v1/proxy/start", handleProxyStart);
    ("/api/v1/proxy/stop", handleProxyStop);
    ("/api/v1/proxy/rotate", handleProxyRotate);
    ("/api/v1/proxy/status", handleProxyStatus);
    ("/api/v1/proxy/details", handleProxyDetails);
    ("/api/v1/http/test", handleHttpTest);
    ("/api/v1/http/test/status", handleHttpTestStatus);
    ("/api/v1/http/test/stop", handleHttpTestStop);
    ("/api/v1/http/test/history", handleHttpTestHistory);
    ("/api/v1/http/test/clear_history", handleHttpTestClearHistory);
    ("/api/v1/scanner/cf/start", handleCfScannerStart);
    ("/api/v1/scanner/cf/stop", handleCfScannerStop);
    ("/api/v1/scanner/cf/status", handleCfScannerStatus);
    ("/api/v1/scanner/cf/history", handleCfScannerHistory);
    ("/api/v1/scanner/cf/clear_history", handleCfScannerClearHistory);
    ("/api/v1/scanner/cf/ranges", handleCfScannerRanges) ]%string.

End handlers.

End api.

(** ** [WebSocketService] as a whole: listeners, connection, messages *)
Module client.

(** The property names every object inherits from [Object.prototype]:
    [this.listeners[event]] is one of its functions (or, for [__proto__], the
    prototype itself) when [event] is one of them, since [listeners] starts
    as [{}] and only gets the keys [on] creates. *)
Definition protoKeys : list string :=
  [ "constructor"; "__defineGetter__"; "__defineSetter__"; "hasOwnProperty";
    "__lookupGetter__"; "__lookupSetter__"; "isPrototypeOf"; "propertyIsEnumerable";
    "toString"; "valueOf"; "__proto__"; "toLocaleString" ]%string.

(** [readyState] of a [WebSocket]. *)
Definition CONNECTING : Z := 0.
Definition OPEN : Z := 1.
Definition CLOSING : Z := 2.
Definition CLOSED : Z := 3.

(** The escape character of the colour codes in the log lines. *)
Definition esc : string := String "027" EmptyString.

(** The calls of the store's functions [handleMessage] and the batching
    make, with their argument ([None] is [undefined]). *)
Inductive StoreCall :=
  | addHttpResultsBatch (batch : list (option JSON))
  | setHttpTestStatus (status : option JSON)
  | updateScanResults (data : option JSON)
  | setScanStatus (status : option JSON)
  | setHttpTestProgress (data : option JSON)
  | setScanProgress (data : option JSON)
  | setProxyDetails (details : option JSON)
  | setProxyStatus (status : option JSON).

Section service.

(** [JSON.parse]: the value, or [None] when it throws. *)
Variable JSON_parse : string -> option JSON.
(** How a template literal renders a value; [None] when the conversion
    throws (an object whose own [toString] is not a function). *)
Variable toText : option JSON -> option string.
(** Whether a listener, named by a number, throws when called.  Listeners
    and the store's functions do not call back into the service, and the
    store's functions return. *)
Variable throws : nat -> bool.

(** The service with what surrounds it: the batching state (buffer, timer
    and the intervals of the browser), the own keys of [this.listeners] with
    the members of each [Set] in insertion order, [this.ws], the [readyState]
    of every socket created so far, the pending [setTimeout(connect, 3000)]
    timers, and three logs: the calls made to the store, the calls made to
    listeners, and the first argument of every [console.error] and
    [console.warn]. *)
Record Client := {
  batching : websocket.World (option JSON);
  listeners : list (string * list nat);
  ws : option nat;
  readyState : list Z;
  timeouts : list nat;
  nextTimeout : nat;
  storeLog : list StoreCall;
  calls : list (nat * string * option JSON);
  console : list string
}.

Definition initial : Client :=
  {| batching := websocket.initial (option JSON); listeners := []; ws := None; readyState := [];
     timeouts := []; nextTimeout := 0; storeLog := []; calls := []; console := [] |}.

Definition withBatching (c : Client) (b : websocket.World (option JSON)) : Client :=
  {| batching := b; listeners := listeners c; ws := ws c; readyState := readyState c;
     timeouts := timeouts c; nextTimeout := nextTimeout c; storeLog := storeLog c;
     calls := calls c; console := console c |}.

Definition withListeners (c : Client) (l : list (string * list nat)) : Client :=
  {| batching := batching c; listeners := l; ws := ws c; readyState := readyState c;
     timeouts := timeouts c; nextTimeout := nextTimeout c; storeLog := storeLog c;
     calls := calls c; console := console c |}.

Definition store (call : StoreCall) (c : Client) : Client :=
  {| batching := batching c; listeners := listeners c; ws := ws c; readyState := readyState c;
     timeouts := timeouts c; nextTimeout := nextTimeout c; storeLog := storeLog c ++ [call];
     calls := calls c; console := console c |}.

Definition consoleLog (label : string) (c : Client) : Client :=
  {| batching := batching c; listeners := listeners c; ws := ws c; readyState := readyState c;
     timeouts := timeouts c; nextTimeout := nextTimeout c; storeLog := storeLog c;
     calls := calls c; console := console c ++ [label] |}.

(** [this.listeners[event]] when it is an own key. *)
Fixpoint ownSet (l : list (string * list nat)) (event : string) : option (list nat) :=
  match l with
  | [] => None
  | (k, set) :: l' => if String.eqb k event then Some set else ownSet l' event
  end.

Fixpoint setOwn (l : list (string * list nat)) (event : string) (set : list nat)
    : list (string * list nat) :=
  match l with
  | [] => [(event, set)]
  | (k, old) :: l' =>
      if String.eqb k event then (k, set) :: l' else (k, old) :: setOwn l' event set
  end.

(** [Set.prototype.add] and [Set.prototype.delete] *)
Definition setAdd (set : list nat) (callback : nat) : list nat :=
  if existsb (Nat.eqb callback) set then set else set ++ [callback].
Definition setDelete (set : list nat) (callback : nat) : list nat :=
  filter (fun x => x <> callback) set.

(** [on]; [None] is the [TypeError] of calling [add] on something that is
    not a [Set]. *)
Definition on (event : string) (callback : nat) (c : Client) : option Client :=
  match ownSet (listeners c) event with
  | Some set => Some (withListeners c (setOwn (listeners c) event (setAdd set callback)))
  | None =>
      if bool_decide (event ∈ protoKeys) then None
      else Some (withListeners c (setOwn (listeners c) event (setAdd [] callback)))
  end.

(** [off] *)
Definition off (event : string) (callback : nat) (c : Client) : option Client :=
  match ownSet (listeners c) event with
  | Some set => Some (withListeners c (setOwn (listeners c) event (setDelete set callback)))
  | None => if bool_decide (event ∈ protoKeys) then None else Some c
  end.

(** One turn of the [forEach] of [emit]: the callback is called, and what
    it throws is caught and reported. *)
Definition callListener (event : string) (data : option JSON) (c : Client) (callback : nat)
    : Client :=
  let c :=
    {| batching := batching c; listeners := listeners c; ws := ws c;
       readyState := readyState c; timeouts := timeouts c; nextTimeout := nextTimeout c;
       storeLog := storeLog c; calls := calls c ++ [(callback, event, data)];
       console := console c |} in
  if throws callback
  then consoleLog ("Error in WebSocket event listener for '" +:+ event +:+ "':") c
  else c.

(** [emit] *)
Definition emit (event : string) (data : option JSON) (c : Client) : option Client :=
  match ownSet (listeners c) event with
  | Some set => Some (fold_left (callListener event data) set c)
  | None => if bool_decide (event ∈ protoKeys) then None else Some c
  end.

(** [this.emit('log', line)]: ['log'] is no key of [Object.prototype], so
    the call returns. *)
Definition emitLog (data : option JSON) (c : Client) : Client :=
  match emit "log" data c with Some c' => c' | None => c end.

(** [flushHttpResultBuffer], [startHttpResultBatching] and
    [stopHttpResultBatching], with the call to the store on record. *)
Definition flushHttpResultBuffer (c : Client) : Client :=
  let b := batching c in
  let c := match websocket.httpResultBuffer (option JSON) (websocket.service (option JSON) b) with
           | [] => c
           | buffer => store (addHttpResultsBatch buffer) c
           end in
  withBatching c (websocket.flushHttpResultBuffer (option JSON) b).

Definition startHttpResultBatching (c : Client) : Client :=
  withBatching c (websocket.startHttpResultBatching (option JSON) (batching c)).

Definition stopHttpResultBatching (c : Client) : Client :=
  let b := batching c in
  let c := match websocket.httpResultBuffer (option JSON) (websocket.service (option JSON) b) with
           | [] => c
           | buffer => store (addHttpResultsBatch buffer) c
           end in
  withBatching c (websocket.stopHttpResultBatching (option JSON) b).

(** [message[key]] for a parsed message: [None] is the [TypeError] of
    reading a property of [null]; [Some None] is [undefined]. *)
Fixpoint lastMember (members : list (string * JSON)) (key : string) (found : option JSON)
    : option JSON :=
  match members with
  | [] => found
  | (k, v) :: members' => lastMember members' key (if String.eqb k key then Some v else found)
  end.

Definition property (message : JSON) (key : string) : option (option JSON) :=
  match message with
  | JNull => None
  | JObject members => Some (lastMember members key None)
  | _ => Some None
  end.

Definition isString (v : option JSON) (s : string) : bool :=
  match v with Some (JString t) => String.eqb t s | _ => false end.

Definition pushHttpResult (data : option JSON) (c : Client) : Client :=
  let b := batching c in
  withBatching c
    {| websocket.service :=
         {| websocket.httpResultBuffer :=
              websocket.httpResultBuffer (option JSON) (websocket.service (option JSON) b) ++ [data];
            websocket.httpResultTimer := websocket.httpResultTimer (option JSON) (websocket.service (option JSON) b) |};
       websocket.intervals := websocket.intervals (option JSON) b;
       websocket.nextTimer := websocket.nextTimer (option JSON) b;
       websocket.delivered := websocket.delivered (option JSON) b;
       websocket.httpTestStatus := websocket.httpTestStatus (option JSON) b |}.

(** The [catch] of [handleMessage]. *)
Definition invalidData (rawData : string) (c : Client) : Client :=
  emitLog (Some (JString (esc +:+ "[31m[WebSocket] Received invalid data: " +:+ rawData
                           +:+ esc +:+ "[0m")))
    (consoleLog "WebSocket received non-JSON message:" c).

(** The [switch] of [handleMessage] on [message.type], for a message that
    is not [null]. *)
Definition dispatch (rawData : string) (type data : option JSON) (c : Client) : Client :=
  if isString type "log" then emitLog data c
  else if isString type "proxy_status" then
    let c := store (setProxyStatus data) c in
    if isString data "stopped" then store (setProxyDetails (Some JNull)) c else c
  else if isString type "proxy_details" then store (setProxyDetails data) c
  else if isString type "http_result" then pushHttpResult data (startHttpResultBatching c)
  else if isString type "http_test_status" then
    let c := stopHttpResultBatching c in
    if isString data "finished" || isString data "stopped"
    then store (setHttpTestStatus (Some (JString "idle"))) c
    else store (setHttpTestStatus data) c
  else if isString type "cfscan_result" then store (updateScanResults data) c
  else if isString type "cfscan_status" then
    if isString data "finished" || isString data "error" || isString data "stopped"
    then store (setScanStatus (Some (JString "idle"))) c
    else store (setScanStatus data) c
  else if isString type "http_test_progress" then store (setHttpTestProgress data) c
  else if isString type "cf_scan_progress" then store (setScanProgress data) c
  else
    match toText type with
    | Some text =>
        consoleLog "Unhandled WebSocket message:"
          (emitLog (Some (JString (esc +:+ "[33m[WebSocket] Unhandled message type: "
                                    +:+ text +:+ esc +:+ "[0m"))) c)
    | None => invalidData rawData c
    end.

(** [handleMessage] on a text frame. *)
Definition handleMessage (rawData : string) (c : Client) : Client :=
  if String.eqb rawData EmptyString then c
  else
    match JSON_parse rawData with
    | None => invalidData rawData c
    | Some message =>
        match property message "type", property message "data" with
        | Some type, Some data => dispatch rawData type data c
        | _, _ => invalidData rawData c
        end
    end.

Definition stateOf (c : Client) (socket : nat) : Z := default CLOSED (readyState c !! socket).

Definition setState (socket : nat) (state : Z) (c : Client) : Client :=
  {| batching := batching c; listeners := listeners c; ws := ws c;
     readyState := <[socket := state]> (readyState c);
     timeouts := timeouts c; nextTimeout := nextTimeout c; storeLog := storeLog c;
     calls := calls c; console := console c |}.

(** [connect]: nothing while [this.ws] is connecting or open; otherwise a
    new socket, connecting, becomes [this.ws]. *)
Definition connect (c : Client) : Client :=
  let live := match ws c with Some socket => stateOf c socket <? CLOSING | None => false end in
  if live then c
  else
    {| batching := batching c; listeners := listeners c;
       ws := Some (length (readyState c)); readyState := readyState c ++ [CONNECTING];
       timeouts := timeouts c; nextTimeout := nextTimeout c; storeLog := storeLog c;
       calls := calls c; console := console c |}.

(** [this.ws?.close()]: a socket that is connecting or open starts
    closing; one that is closing or closed stays as it is. *)
Definition closeCurrent (c : Client) : Client :=
  match ws c with
  | Some socket => if stateOf c socket <? CLOSING then setState socket CLOSING c else c
  | None => c
  end.

(** [disconnect] *)
Definition disconnect (c : Client) : Client := closeCurrent (stopHttpResultBatching c).

(** [ws.onopen], [ws.onerror] and [ws.onclose] *)
Definition onopen (c : Client) : Client :=
  emitLog (Some (JString (esc +:+ "[32m[WebSocket] Connection established." +:+ esc +:+ "[0m"))) c.

Definition onerror (type : string) (c : Client) : Client :=
  closeCurrent
    (emitLog (Some (JString (esc +:+ "[31m[WebSocket] Error: " +:+ type +:+ esc +:+ "[0m")))
       (consoleLog "WebSocket error:" c)).

Definition onclose (c : Client) : Client :=
  let c := stopHttpResultBatching
             (emitLog (Some (JString (esc +:+ "[31m[WebSocket] Connection closed. Retrying in 3 seconds..."
                                       +:+ esc +:+ "[0m"))) c) in
  {| batching := batching c; listeners := listeners c; ws := ws c; readyState := readyState c;
     timeouts := timeouts c ++ [nextTimeout c]; nextTimeout := S (nextTimeout c);
     storeLog := storeLog c; calls := calls c; console := console c |}.

(** What happens to the service: calls of its public methods, and what the
    browser delivers.  A socket opens when it is connecting; a frame arrives
    on a socket that is open; a socket closes once, with an [error] event
    before the [close] event when the connection failed; an interval or a
    timeout fires while it is registered. *)
Inductive event :=
  | CallOn (event : string) (callback : nat)
  | CallOff (event : string) (callback : nat)
  | CallConnect
  | CallDisconnect
  | Opens (socket : nat)
  | Frame (socket : nat) (rawData : string)
  | Closes (socket : nat) (error : option string)
  | IntervalFires (id : nat)
  | TimeoutFires (id : nat).

Definition step (c : Client) (e : event) : Client :=
  match e with
  | CallOn ev callback => match on ev callback c with Some c' => c' | None => c end
  | CallOff ev callback => match off ev callback c with Some c' => c' | None => c end
  | CallConnect => connect c
  | CallDisconnect => disconnect c
  | Opens socket =>
      if (socket <? length (readyState c))%nat && (stateOf c socket =? CONNECTING)
      then onopen (setState socket OPEN c) else c
  | Frame socket rawData =>
      if (socket <? length (readyState c))%nat && (stateOf c socket =? OPEN)
      then handleMessage rawData c else c
  | Closes socket error =>
      if (socket <? length (readyState c))%nat && negb (stateOf c socket =? CLOSED)
      then
        let c := setState socket CLOSED c in
        let c := match error with Some type => onerror type c | None => c end in
        onclose c
      else c
  | IntervalFires id =>
      if existsb (fun t => Nat.eqb (fst t) id) (websocket.intervals (option JSON) (batching c))
      then flushHttpResultBuffer c else c
  | TimeoutFires id =>
      if existsb (Nat.eqb id) (timeouts c)
      then
        connect
          {| batching := batching c; listeners := listeners c; ws := ws c;
             readyState := readyState c;
             timeouts := filter (fun t => t <> id) (timeouts c); nextTimeout := nextTimeout c;
             storeLog := storeLog c; calls := calls c; console := console c |}
      else c
  end.

Definition run (trace : list event) : Client := fold_left step trace initial.

End service.

End client.

(** ** [Dashboard]: the effect that holds the log listener *)
Module dashboard.

(** The body of the effect: [connect()], then [on('log', logListener)] with
    the closure this run of the effect creates, named by a number. *)
Definition effect (logListener : nat) : list client.event :=
  [ client.CallConnect; client.CallOn "log" logListener ].

(** The function the effect returns, which [React] calls before the next
    run of the effect and when the component unmounts. *)
Definition cleanup (logListener : nat) : list client.event :=
  [ client.CallOff "log" logListener ].

(** The runs of the effect that are over: each attached its listener, the
    service went through some events, and the cleanup ran. *)
Definition lifetime (runs : list (nat * list client.event)) : list client.event :=
  flat_map (fun run => effect (fst run) ++ snd run ++ cleanup (fst run)) runs.

End dashboard.

(** ** [build.sh] *)
Module build.

Definition APP_NAME : string := "xray-knife".
Definition BUILD_DIR : string := "build".
Definition SOURCE_FILE : string := "main.go".
Definition BUILD_TAGS : string :=
  "with_gvisor,with_quic,with_wireguard,with_ech,with_utls,with_clash_api,with_grpc".
Definition LDFLAGS : string := "-s -w".

(** The check mark of the success lines, in UTF-8. *)
Definition checkMark : string := String "226" (String "156" (String "147" EmptyString)).

(** One [go build] command: the variables the script sets for it and its
    arguments. *)
Record GoBuild := {
  GOOS : string;
  GOARCH : string;
  GOARM : option string;
  CGO_ENABLED : string;
  tags : string;
  ldflags : string;
  trimpath : bool;
  output : string;
  source : string
}.

(** What a call of [build_app] does: the command it runs, the lines it
    echoes and its exit status. *)
Record Job := {
  command : GoBuild;
  lines : list string;
  status : Z
}.

(** What a run of the script does: the lines its own shell echoes, the
    [go build] commands run, in the order they are started, the lines echoed
    by each background job (they reach the terminal interleaved with the
    others), and the exit status. *)
Record Run := {
  stdout : list string;
  commands : list GoBuild;
  background : list (list string);
  exit : Z
}.

Section script.

(** [$0] *)
Variable script : string.
(** Whether [main.go] is a regular file. *)
Variable sourceExists : bool.
(** The exit status of [mkdir -p build]. *)
Variable mkdir : Z.
(** The exit status of a [go build] command. *)
Variable go : GoBuild -> Z.
(** [$!] after the job of that index was started. *)
Variable pid : nat -> string.

Definition usage : string := "Usage: " +:+ script +:+ " <platform> [amd64|arm64|arm]".

(** [echo ...; exit 1] *)
Definition fail (lines : list string) : Run :=
  {| stdout := lines; commands := []; background := []; exit := 1 |}.

(** [build_app]; [goarm] is empty when there is no fifth argument.  Under
    [set -e] a failing [go build] ends the shell that runs the function
    before the success line. *)
Definition build_app (platform output_name target_goos target_goarch goarm : string) : Job :=
  let set := negb (String.eqb goarm EmptyString) in
  let command :=
    {| GOOS := target_goos; GOARCH := target_goarch;
       GOARM := if set then Some goarm else None;
       CGO_ENABLED := "0"; tags := BUILD_TAGS; ldflags := LDFLAGS; trimpath := true;
       output := BUILD_DIR +:+ "/" +:+ output_name; source := SOURCE_FILE |} in
  let starting :=
    "Starting build for " +:+ platform +:+ " (" +:+ target_goos +:+ "/" +:+ target_goarch
      +:+ (if set then "/GOARM=" +:+ goarm else EmptyString) +:+ ")..." in
  {| command := command;
     lines := if go command =? 0
              then [ starting;
                     checkMark +:+ " Build successful: " +:+ BUILD_DIR +:+ "/" +:+ output_name ]
              else [ starting ];
     status := go command |}.

(** A call of [build_app] in the script's own shell, as the last thing it
    does. *)
Definition foreground (job : Job) : Run :=
  {| stdout := lines job; commands := [command job]; background := []; exit := status job |}.

(** The seven jobs of [all]. *)
Definition jobs : list Job :=
  [ build_app "macOS (amd64)" (APP_NAME +:+ "_darwin_amd64") "darwin" "amd64" EmptyString;
    build_app "macOS (arm64)" (APP_NAME +:+ "_darwin_arm64") "darwin" "arm64" EmptyString;
    build_app "Windows (amd64)" (APP_NAME +:+ "_windows_amd64.exe") "windows" "amd64" EmptyString;
    build_app "Windows (arm64)" (APP_NAME +:+ "_windows_arm64.exe") "windows" "arm64" EmptyString;
    build_app "Linux (amd64)" (APP_NAME +:+ "_linux_amd64") "linux" "amd64" EmptyString;
    build_app "Linux (arm64)" (APP_NAME +:+ "_linux_arm64") "linux" "arm64" EmptyString;
    build_app "Linux (armv7hf)" (APP_NAME +:+ "_linux_armv7hf") "linux" "arm" "7" ].

(** The loop over [pids]: one line for each job that failed. *)
Fixpoint waitAll (index : nat) (js : list Job) : list string :=
  match js with
  | [] => []
  | job :: js' =>
      (if status job =? 0 then [] else [ "A build failed (PID: " +:+ pid index +:+ ")" ])
        ++ waitAll (S index) js'
  end.

Definition all : Run :=
  let failed := waitAll 0 jobs in
  {| stdout :=
       [ "Building for all supported OS/architecture combinations concurrently..." ]
         ++ failed
         ++ [ match failed with
              | [] => checkMark +:+ " All builds completed successfully!"
              | _ => "One or more builds failed."
              end ];
     commands := map command jobs;
     background := map lines jobs;
     exit := match failed with [] => 0 | _ => 1 end |}.

(** The script, called with the arguments [args]. *)
Definition main (args : list string) : Run :=
  if negb sourceExists then fail [ "Error: Source file '" +:+ SOURCE_FILE +:+ "' not found." ]
  else if negb (mkdir =? 0)
  then {| stdout := []; commands := []; background := []; exit := mkdir |}
  else
    match args with
    | [] => fail [ "Error: Missing platform argument."; usage ]
    | platform :: rest =>
        let arch_arg :=
          match rest with
          | arch :: _ => if String.eqb arch EmptyString then "amd64" else arch
          | [] => "amd64"
          end in
        if negb (String.eqb arch_arg "amd64") && negb (String.eqb arch_arg "arm64")
           && negb (String.eqb arch_arg "arm")
        then fail [ "Error: Invalid architecture '" +:+ arch_arg
                      +:+ "'. Supported: amd64, arm64, arm (arm only for linux).";
                    usage ]
        else if String.eqb arch_arg "arm" && negb (String.eqb platform "linux")
        then fail [ "Error: ARM architecture is only supported for linux platform." ]
        else if String.eqb platform "macos" || String.eqb platform "darwin"
        then foreground (build_app "macOS" (APP_NAME +:+ "_darwin_" +:+ arch_arg)
                           "darwin" arch_arg EmptyString)
        else if String.eqb platform "win" || String.eqb platform "windows"
        then foreground (build_app "Windows" (APP_NAME +:+ "_windows_" +:+ arch_arg +:+ ".exe")
                           "windows" arch_arg EmptyString)
        else if String.eqb platform "linux"
        then
          if String.eqb arch_arg "arm"
          then foreground (build_app "Linux (armv7hf)" (APP_NAME +:+ "_linux_armv7hf")
                             "linux" "arm" "7")
          else foreground (build_app "Linux" (APP_NAME +:+ "_linux_" +:+ arch_arg)
                             "linux" arch_arg EmptyString)
        else if String.eqb platform "all" then all
        else fail [ "Error: Invalid or missing platform argument.";
                    usage;
                    "Available platforms (OS):";
                    "  - macos (or darwin)";
                    "  - win (or windows)";
                    "  - linux";
                    "  - all (builds for all OS/arch combinations concurrently)";
                    "Available architectures: amd64, arm64, arm (arm only for linux; defaults to armv7hf)" ]
    end.

End script.

End build.

(** * Vocabulary of the statements *)

(** The number [::ffff:0.0.0.0], first of the IPv4-mapped addresses. *)
Definition mapped0 : Z := 65535 * 2 ^ 32.

(** Whether a 128-bit number is an IPv4-mapped address [::ffff:a.b.c.d]. *)
Definition is_mapped (v : Z) : bool := v / 2 ^ 32 =? 65535.

(** ** The block of a CIDR, as numbers *)

Definition Addr_bytes (addr : netip.Addr) : list Z :=
  match addr with netip.Addr4 a => a | netip.Addr6 a => a end.

Definition Addr_len (addr : netip.Addr) : nat :=
  match addr with netip.Addr4 _ => 4%nat | netip.Addr6 _ => 16%nat end.

Definition Addr_ok (addr : netip.Addr) : Prop :=
  bytes_ok (Addr_bytes addr) /\ length (Addr_bytes addr) = Addr_len addr.

(** Number of addresses of a block with prefix length [n]. *)
Definition block_size (addr : netip.Addr) (n : Z) : Z := 2 ^ (netip.BitLen addr - n).

(** First address of the block: the address with its host bits cleared. *)
Definition block_base (addr : netip.Addr) (n : Z) : Z :=
  be_value (Addr_bytes addr) - be_value (Addr_bytes addr) mod block_size addr n.

(** What [IPNet.Contains] answers for the address numbered [v], in the
    network [ParseCIDR] builds from [addr] and [n]: [v] lies in the block,
    and, for an IPv6 network wider than /96, [v] is not IPv4-mapped. *)
Definition in_network (addr : netip.Addr) (n : Z) (v : Z) : bool :=
  (v / block_size addr n =? be_value (Addr_bytes addr) / block_size addr n)
  && match addr with
     | netip.Addr4 _ => true
     | netip.Addr6 _ => (96 <=? n) || negb (is_mapped v)
     end.

(** The network of [ParseCIDR]. *)
Definition network (addr : netip.Addr) (n : Z) : net.IPNet :=
  let m := net.CIDRMask n (netip.BitLen addr) in
  {| net.IPNet_IP := net.Mask (netip.As16 addr) m; net.IPNet_Mask := m |}.

(** Whether an IPv6 network wider than /96 holds the IPv4-mapped addresses:
    its block contains [::ffff:0.0.0.0]. *)
Definition covers_mapped (addr : netip.Addr) (n : Z) : bool :=
  match addr with
  | netip.Addr4 _ => false
  | netip.Addr6 a => (n <? 96) && (mapped0 / block_size addr n =? be_value a / block_size addr n)
  end.

(** The text of the [count] addresses from number [first] on. *)
Definition addresses (addr : netip.Addr) (first count : Z) : list string :=
  map (fun v => net.String (be_bytes (Addr_len addr) v)) (seqZ first count).

(** ** Results of a call, whatever the number of loop iterations *)

(** [CIDRtoListIP cidr] ends in [r]. *)
Definition returns (memory : nat -> bool) (cidr : string) (r : utils.result) : Prop :=
  exists fuel, utils.CIDRtoListIP memory fuel cidr = Some r.

(** [CIDRtoListIP cidr] never returns: after any number of iterations its
    loop is still running, or the program has run out of memory. *)
Definition never_returns (memory : nat -> bool) (cidr : string) : Prop :=
  forall fuel r, utils.CIDRtoListIP memory fuel cidr = Some r -> r = utils.OutOfMemory.

(** Memory enough for a slice of [count] strings: every [append] on the
    way there goes through. *)
Definition holds (memory : nat -> bool) (count : Z) : Prop :=
  forall k : nat, Z.of_nat k < count -> utils.canAppend memory k = true.

(** Memory that gives out at a slice of [k] strings: the [append] to it is
    the first that fails. *)
Definition fails_at (memory : nat -> bool) (k : nat) : Prop :=
  utils.canAppend memory k = false
  /\ forall j : nat, (j < k)%nat -> utils.canAppend memory j = true.

(** Memory without end, but for the length a slice can have. *)
Definition plenty : nat -> bool := fun _ => true.

(** ** The proxy handlers *)

Definition stopped_reply (err : option error) : Response :=
  match err with
  | None => {| StatusCode := 200; Body := JObject [("status"%string, JString "Proxy service stopped")] |}
  | Some e => {| StatusCode := 404; Body := JObject [("error"%string, JString (Error e))] |}
  end.

Definition rotated_reply (err : option error) : Response :=
  match err with
  | None => {| StatusCode := 200; Body := JObject [("status"%string, JString "Rotate signal sent")] |}
  | Some e => {| StatusCode := 409; Body := JObject [("error"%string, JString (Error e))] |}
  end.

(** A manager that only remembers whether a proxy instance exists. *)
Definition toyStop (running : bool) : bool * option error :=
  if running then (false, None) else (false, Some (errorString "proxy service is not running")).
Definition toyRotate (running : bool) : bool * option error :=
  if running then (true, None) else (false, Some (errorString "proxy service is not running")).

(** ** The fallback list *)

Definition isIPv4CIDR (s : string) : bool :=
  match net.parseCIDRParts s with Some (netip.Addr4 _, _) => true | _ => false end.

Definition isIPv6CIDR (s : string) : bool :=
  match net.parseCIDRParts s with Some (netip.Addr6 _, _) => true | _ => false end.

(** ** The ranges handler: what was fetched *)
Section ranges_fetched.
Variable Get : string -> web.fetched.
Variable TrimSpace : string -> string.

Definition fetch_failed (url : string) : bool :=
  match Get url with web.Fetched _ => false | _ => true end.

(** The lines of the bodies fetched, in the order the goroutines finished. *)
Definition live_ranges (order : list string) : option (list string) :=
  web.allRanges (fold_left (fun s url =>
    match Get url with
    | web.Fetched body => web.appendRanges s (web.splitLines (TrimSpace body))
    | _ => s
    end) order {| web.allRanges := None; web.firstError := None |}).

End ranges_fetched.

(** One fetch succeeds, the other fails at [http.Get]. *)
Definition halfGet (url : string) : web.fetched :=
  if String.eqb url "https://www.cloudflare.com/ips-v4"
  then web.Fetched "1.1.1.0/24"
  else web.GetFailed (errorString "dial tcp: i/o timeout").

(** ** The batching service between events *)
Section batching_invariant.
Import websocket.
Variable HttpResult : Type.

Local Abbreviation World := (World HttpResult).
Local Abbreviation buffer w := (httpResultBuffer HttpResult (service HttpResult w)).
Local Abbreviation timer w := (httpResultTimer HttpResult (service HttpResult w)).

(** What holds of the service after every event. *)
Record batching_inv (w : World) (got : list HttpResult) : Prop := {
  inv_all : concat (delivered _ w) ++ buffer w = got;
  inv_timer : intervals _ w = match timer w with
                              | Some id => [(id, BATCH_INTERVAL)]
                              | None => []
                              end;
  inv_armed : buffer w <> [] -> timer w <> None
}.

End batching_invariant.

Arguments batching_inv {HttpResult} w got.

(** ** Reading back what the writer wrote *)

(** A field as the reader hands it back: every ["\r\n"] in it has become
    ["\n"]. *)
Fixpoint unCRLF (field : list Z) : list Z :=
  match field with
  | [] => []
  | c :: rest =>
      match rest with
      | [] => [c]
      | c' :: _ => if (c =? csv.ch_CR) && (c' =? csv.ch_LF) then unCRLF rest else c :: unCRLF rest
      end
  end.

(** A field free of ["\r\n"]. *)
Definition noCRLF (field : list Z) : Prop := unCRLF field = field.

(** The text of a field once [readLines] has gone over it. *)
Definition normField (f : list Z) : list Z :=
  if csv.fieldNeedsQuotes f
  then csv.ch_quote :: csv.writeQuoted (unCRLF f) ++ [csv.ch_quote]
  else f.

Fixpoint normFields (first : bool) (record : list (list Z)) : list Z :=
  match record with
  | [] => []
  | field :: record' =>
      (if first then [] else [csv.Comma]) ++ normField field ++ normFields false record'
  end.

Definition normWrite (record : list (list Z)) : list Z := normFields true record ++ [csv.ch_LF].

(** A byte that may stand in a non-quoted field. *)
Definition plain (c : Z) : Prop :=
  c <> csv.ch_LF /\ c <> csv.ch_CR /\ c <> csv.ch_quote /\ c <> csv.Comma.

(** ** The history file, written and read back *)

(** Whether a string holds a carriage return directly followed by a line
    feed. *)
Fixpoint hasCRLF (s : string) : bool :=
  match s with
  | EmptyString => false
  | String c rest =>
      match rest with
      | EmptyString => false
      | String c' _ => (Ascii.eqb c "013" && Ascii.eqb c' "010") || hasCRLF rest
      end
  end.

(** The shape of a row type: at least two columns, column names free of
    ["\r\n"], and one field for every column. *)
Class RowCodecLaws (R : Type) `{RowCodec R} : Prop := {
  header_columns : (2 <= length (csvHeader (R := R)))%nat;
  header_clean : Forall (fun h => hasCRLF h = false) (csvHeader (R := R));
  fields_columns : forall r : R, length (csvFields r) = length (csvHeader (R := R))
}.

(** A string as the reader hands it back. *)
Definition readBack (s : string) : string := string_of_bytes (unCRLF (bytes_of_string s)).

(** The bytes of a file, and none for a path that holds no file. *)
Definition contentOf (fs : gmap string file) (filePath : string) : list Z :=
  match fs !! filePath with
  | Some (File content) => content
  | _ => []
  end.

(** The records [encoding/csv] reads from some bytes, and from a file, as
    strings. *)
Definition recordsIn (bytes : list Z) : error + list (list string) :=
  match csv.ReadAll bytes with
  | inl err => inl err
  | inr records => inr (map (map string_of_bytes) records)
  end.

Definition recordsOf (fs : gmap string file) (filePath : string) : error + list (list string) :=
  recordsIn (contentOf fs filePath).

Section appends.
Context {R : Type} `{RowCodec R}.

(** The fields of the rows of a batch, as the reader hands them back. *)
Definition rowsOf (batch : list R) : list (list string) :=
  map (fun r => map readBack (csvFields r)) batch.

(** No field of a batch holds ["\r\n"]. *)
Definition cleanBatch (batch : list R) : Prop :=
  Forall (fun r => Forall (fun f => hasCRLF f = false) (csvFields r)) batch.

(** What a call of [appendResultsToCSV] is to write: everything for a file of no bytes, the rows
    alone for another. *)
Definition toWrite (old : list Z) (batch : list R) : list Z :=
  if Z.of_nat (length old) =? 0 then gocsv.MarshalCSV batch
  else gocsv.MarshalCSVWithoutHeaders batch.

(** The file system after a run of calls of [appendResultsToCSV] on one
    file that all returned [nil]; [None] when one of them returned an
    error. *)
Fixpoint appendAll (fs : gmap string file) (filePath : string)
    (calls : list (os.Faults * list R)) : option (gmap string file) :=
  match calls with
  | [] => Some fs
  | (faults, batch) :: calls' =>
      match history.appendResultsToCSV faults fs filePath batch with
      | (fs', None) => appendAll fs' filePath calls'
      | (_, Some _) => None
      end
  end.

(** What [loadResultsFromCSV] makes of what [gocsv.readTo] returns. *)
Definition loaded (read : error + option (list R)) : error + option (list R) :=
  match read with
  | inl err => inl (wrapError "failed to parse CSV file: " err)
  | inr results => inr results
  end.

End appends.

Definition LF : string := String "010" EmptyString.

(** ** A row type for the examples *)

(** The row structs are declared outside the files at hand, and the two
    functions take any slice of structs.  The examples use a struct of text
    columns alone,
    [struct { Link string `csv:"link" json:"link"`; Error string `csv:"error" json:"error"` }]:
    [gocsv] writes a string field as it is and sets it to the text it reads;
    a column of the file that no field is tagged with is skipped, and a field
    whose column is missing keeps its zero value. *)
Module textrow.

Record Row := { link : string; error : string }.

Definition header : list string := ["link"; "error"]%string.

Definition fields (r : Row) : list string := [link r; error r].

Definition zero : Row := {| link := EmptyString; error := EmptyString |}.

Definition setField (r : Row) (name value : string) : Row :=
  if String.eqb name "link" then {| link := value; error := error r |}
  else if String.eqb name "error" then {| link := link r; error := value |}
  else r.

Fixpoint decodeRow (headers csvRow : list string) (r : Row) : Row :=
  match headers, csvRow with
  | name :: headers', value :: csvRow' => decodeRow headers' csvRow' (setField r name value)
  | _, _ => r
  end.

Definition json (r : Row) : JSON :=
  JObject [("link", JString (link r)); ("error", JString (error r))]%string.

End textrow.

#[export] Instance textrow_codec : RowCodec textrow.Row := {
  csvHeader := textrow.header;
  csvFields := textrow.fields;
  csvDecode := fun headers csvRow => inr (textrow.decodeRow headers csvRow textrow.zero);
  jsonOf := textrow.json
}.



(** Three rows that hold commas, quotes, line breaks, a leading space and
    an empty field, but no ["\r\n"]. *)
Definition sampleBatch : list textrow.Row :=
  [ {| textrow.link := "vmess://a,b"; textrow.error := EmptyString |};
    {| textrow.link := " trojan://c";
       textrow.error := "read: " +:+ String "034" "reset" +:+ String "034" LF +:+ "by peer" |};
    {| textrow.link := EmptyString; textrow.error := "no link" |} ].

(** The decimal digits [appendDecimal] writes for a byte. *)
Definition decimal (x : Z) : list Z := netip.appendDecimal [] x.

(** No error of the reader or of [gocsv] reads "EOF". *)
Definition not_EOF (err : error) : Prop := Error err <> "EOF"%string.

(** The method each route answers to: GET for the status, details, history
    and ranges routes, POST for the others. *)
Definition acceptedMethod (pattern : string) : string :=
  if bool_decide (pattern ∈ [ "/api/v1/proxy/status"; "/api/v1/proxy/details";
                              "/api/v1/http/test/status"; "/api/v1/http/test/history";
                              "/api/v1/scanner/cf/status"; "/api/v1/scanner/cf/history";
                              "/api/v1/scanner/cf/ranges" ]%string)
  then "GET"%string else "POST"%string.

(** The connection part of the state: [this.ws], the sockets, the pending
    reconnects and the next timeout id. *)
Definition connection (c : client.Client) : option nat * list Z * list nat * nat :=
  (client.ws c, client.readyState c, client.timeouts c, client.nextTimeout c).

(** [this.ws] names a socket that was created, and a socket that is
    connecting or open is [this.ws]. *)
Definition sockets_inv (c : client.Client) : Prop :=
  (forall s, client.ws c = Some s -> (s < length (client.readyState c))%nat)
  /\ (forall s, (s < length (client.readyState c))%nat ->
      client.stateOf c s < client.CLOSING -> client.ws c = Some s).

(** While [this.ws] is closed a reconnect is pending. *)
Definition reconnect_pending (c : client.Client) : Prop :=
  forall s, client.ws c = Some s -> client.stateOf c s = client.CLOSED ->
  client.timeouts c <> [].

(** What holds of the connection after every event. *)
Definition connection_inv (c : client.Client) : Prop := sockets_inv c /\ reconnect_pending c.

(** The callbacks registered for an event, in the order [emit] calls them. *)
Definition registered (c : client.Client) (event : string) : list nat :=
  default [] (client.ownSet (client.listeners c) event).

(** Whether the last call of [on] or [off] in a trace that names the event
    and the callback is a call of [on]; [now] when there is none. *)
Fixpoint lastIsOn (trace : list client.event) (event : string) (callback : nat) (now : bool)
    : bool :=
  match trace with
  | [] => now
  | client.CallOn e k :: trace' =>
      lastIsOn trace' event callback
        (if String.eqb e event && Nat.eqb k callback then true else now)
  | client.CallOff e k :: trace' =>
      lastIsOn trace' event callback
        (if String.eqb e event && Nat.eqb k callback then false else now)
  | _ :: trace' => lastIsOn trace' event callback now
  end.

(** No key of [this.listeners] is a property of [Object.prototype], and no
    [Set] holds a callback twice. *)
Definition listeners_inv (c : client.Client) : Prop :=
  forall event, (event ∈ client.protoKeys -> client.ownSet (client.listeners c) event = None)
                /\ NoDup (registered c event).

(** The buffer and the timer of the service. *)
Definition bufferOf (c : client.Client) : list (option JSON) :=
  websocket.httpResultBuffer (option JSON) (websocket.service (option JSON) (client.batching c)).
Definition timerOf (c : client.Client) : option nat :=
  websocket.httpResultTimer (option JSON) (websocket.service (option JSON) (client.batching c)).

(** The line [handleMessage] emits for a frame it cannot read. *)
Definition invalidLine (rawData : string) : option JSON :=
  Some (JString (client.esc +:+ "[31m[WebSocket] Received invalid data: " +:+ rawData
                   +:+ client.esc +:+ "[0m")).

(** An event that is no call of [on] or [off] for 'log'. *)
Definition leavesLog (e : client.event) : bool :=
  match e with
  | client.CallOn event _ | client.CallOff event _ => negb (String.eqb event "log")
  | _ => true
  end.

(** * Properties *)

(** ** Big-endian numbers and [incrementIP] *)
Section be_value_facts.

Lemma be_value_fold (l : list byte) (a : Z) :
  fold_left (fun acc b => acc * 256 + b) l a = a * 256 ^ Z.of_nat (length l) + be_value l.
Proof.
  unfold be_value. revert a. induction l as [|x l IH]; intros a; simpl (fold_left _ _ _).
  - simpl. lia.
  - rewrite (IH (a * 256 + x)), (IH (0 * 256 + x)).
    rewrite length_cons, Nat2Z.inj_succ, Z.pow_succ_r by lia. lia.
Qed.

Lemma be_value_cons (b : byte) (l : list byte) :
  be_value (b :: l) = b * 256 ^ Z.of_nat (length l) + be_value l.
Proof. unfold be_value at 1. simpl. rewrite be_value_fold. lia. Qed.

Lemma be_value_app (l1 l2 : list byte) :
  be_value (l1 ++ l2) = be_value l1 * 256 ^ Z.of_nat (length l2) + be_value l2.
Proof.
  unfold be_value at 1. rewrite fold_left_app. fold (be_value l1).
  apply be_value_fold.
Qed.

Lemma be_value_snoc (l : list byte) (b : byte) :
  be_value (l ++ [b]) = be_value l * 256 + b.
Proof. rewrite be_value_app. unfold be_value at 2. simpl. lia. Qed.

Lemma be_value_bound (l : list byte) :
  bytes_ok l -> 0 <= be_value l < 256 ^ Z.of_nat (length l).
Proof.
  induction l as [|b l IH] using rev_ind; intros Hok.
  - change (0 <= 0 < 1). lia.
  - apply Forall_app in Hok as [Hl Hb]. apply Forall_inv in Hb.
    specialize (IH Hl). unfold is_byte in Hb.
    rewrite be_value_snoc, length_app. simpl length.
    replace (Z.of_nat (length l + 1)) with (Z.succ (Z.of_nat (length l))) by lia.
    rewrite Z.pow_succ_r by lia. lia.
Qed.

End be_value_facts.

Section incrementIP_facts.
Import utils.

Lemma incrementIP_loop_S (k : nat) (ip : IP) :
  incrementIP_loop (S k) ip =
  match ip !! k with
  | Some b =>
      if b =? 255 then incrementIP_loop k (<[k := 0]> ip)
      else <[k := (b + 1) mod 256]> ip
  | None => ip
  end.
Proof. reflexivity. Qed.

(** Running the loop over the first [length l] indices of [l ++ zs] leaves
    the suffix [zs] alone and turns [l] into its successor. *)
Lemma incrementIP_loop_spec (l zs : list byte) :
  bytes_ok l ->
  exists l', incrementIP_loop (length l) (l ++ zs) = l' ++ zs
             /\ length l' = length l
             /\ bytes_ok l'
             /\ be_value l' = (be_value l + 1) mod 256 ^ Z.of_nat (length l).
Proof.
  revert zs. induction l as [|b l IH] using rev_ind; intros zs Hok.
  - exists []. split; [reflexivity|]. split; [reflexivity|]. split; [constructor|reflexivity].
  - apply Forall_app in Hok as [Hl Hb]. apply Forall_inv in Hb.
    unfold is_byte in Hb.
    pose proof (be_value_bound l Hl) as Hbound.
    assert (Hrun : incrementIP_loop (length (l ++ [b])) ((l ++ [b]) ++ zs) =
                   if b =? 255 then incrementIP_loop (length l) (l ++ 0 :: zs)
                   else l ++ ((b + 1) mod 256) :: zs).
    { rewrite length_app. simpl length. rewrite Nat.add_1_r, incrementIP_loop_S.
      rewrite <- app_assoc. simpl app.
      rewrite list_lookup_middle by reflexivity.
      rewrite !insert_app_r_alt by lia. rewrite Nat.sub_diag. reflexivity. }
    assert (Hlen : Z.of_nat (length (l ++ [b])) = Z.succ (Z.of_nat (length l))).
    { rewrite length_app. simpl. lia. }
    rewrite Hrun, Hlen, Z.pow_succ_r by lia. clear Hrun.
    destruct (Z.eqb_spec b 255) as [->|Hne].
    + destruct (IH (0 :: zs) Hl) as (l' & Hrun & Hlen' & Hok' & Hval).
      exists (l' ++ [0]). rewrite Hrun, <- app_assoc. split; [reflexivity|].
      split; [rewrite !length_app; simpl; lia|].
      split; [apply Forall_app; split; [assumption|repeat constructor; unfold is_byte; lia]|].
      rewrite !be_value_snoc, Hval.
      replace (be_value l * 256 + 255 + 1) with ((be_value l + 1) * 256) by lia.
      rewrite (Z.mul_comm 256 (256 ^ _)).
      rewrite Z.mul_mod_distr_r by lia. lia.
    + exists (l ++ [(b + 1) mod 256]).
      rewrite <- app_assoc. split; [reflexivity|].
      split; [rewrite !length_app; simpl; lia|].
      assert (Hb1 : (b + 1) mod 256 = b + 1) by (apply Z.mod_small; lia).
      split.
      * apply Forall_app; split; [assumption|].
        repeat constructor; unfold is_byte; lia.
      * rewrite !be_value_snoc, Hb1. rewrite Z.mod_small; lia.
Qed.

End incrementIP_facts.

Section be_bytes_facts.

Lemma length_be_bytes (n : nat) (v : Z) : length (be_bytes n v) = n.
Proof.
  revert v. induction n as [|n IH]; intros v; [reflexivity|].
  simpl. rewrite length_app, IH. simpl. lia.
Qed.

Lemma be_bytes_ok (n : nat) (v : Z) : bytes_ok (be_bytes n v).
Proof.
  revert v. induction n as [|n IH]; intros v; [constructor|].
  simpl. apply Forall_app. split; [apply IH|].
  constructor; [|constructor]. unfold is_byte. apply Z.mod_pos_bound. lia.
Qed.

Lemma be_value_be_bytes (n : nat) (v : Z) :
  be_value (be_bytes n v) = v mod 256 ^ Z.of_nat n.
Proof.
  revert v. induction n as [|n IH]; intros v.
  - change (0 = v mod 1). rewrite Z.mod_1_r. reflexivity.
  - simpl be_bytes. rewrite be_value_snoc, IH.
    rewrite Nat2Z.inj_succ, Z.pow_succ_r by lia.
    rewrite (Z.rem_mul_r v 256 (256 ^ Z.of_nat n)) by lia. lia.
Qed.

Lemma be_bytes_be_value (l : list Z) :
  bytes_ok l -> be_bytes (length l) (be_value l) = l.
Proof.
  induction l as [|b l IH] using rev_ind; intros Hok; [reflexivity|].
  apply Forall_app in Hok as [Hl Hb]. apply Forall_inv in Hb. unfold is_byte in Hb.
  rewrite length_app. simpl length. rewrite Nat.add_1_r. simpl be_bytes.
  rewrite be_value_snoc.
  replace ((be_value l * 256 + b) / 256) with (be_value l).
  2:{ apply (Z.div_unique _ _ _ b); lia. }
  replace ((be_value l * 256 + b) mod 256) with b.
  2:{ apply (Z.mod_unique _ _ (be_value l)); lia. }
  rewrite IH by assumption. reflexivity.
Qed.

Lemma be_value_inj (l1 l2 : list Z) :
  bytes_ok l1 -> bytes_ok l2 -> length l1 = length l2 ->
  be_value l1 = be_value l2 -> l1 = l2.
Proof.
  intros H1 H2 Hlen Hv.
  rewrite <- (be_bytes_be_value l1 H1), <- (be_bytes_be_value l2 H2).
  rewrite Hlen, Hv. reflexivity.
Qed.

Lemma be_bytes_mod (n : nat) (v : Z) :
  be_bytes n (v mod 256 ^ Z.of_nat n) = be_bytes n v.
Proof.
  apply be_value_inj; try apply be_bytes_ok.
  - rewrite !length_be_bytes. reflexivity.
  - rewrite !be_value_be_bytes. apply Z.mod_mod.
    apply Z.pow_nonzero; lia.
Qed.

Lemma be_bytes_small (n : nat) (v : Z) :
  0 <= v < 256 ^ Z.of_nat n -> be_value (be_bytes n v) = v.
Proof. intros H. rewrite be_value_be_bytes. apply Z.mod_small. exact H. Qed.

End be_bytes_facts.

Section incrementIP_value.
Import utils.

(** [incrementIP] is the successor on [length ip]-byte counters. *)
Lemma incrementIP_be_bytes (ip : list Z) :
  bytes_ok ip -> incrementIP ip = be_bytes (length ip) (be_value ip + 1).
Proof.
  intros Hok. unfold incrementIP.
  destruct (incrementIP_loop_spec ip [] Hok) as (l' & Hrun & Hlen & Hok' & Hval).
  rewrite !app_nil_r in Hrun. rewrite Hrun.
  apply be_value_inj; [assumption|apply be_bytes_ok| |].
  - rewrite length_be_bytes. exact Hlen.
  - rewrite be_value_be_bytes. exact Hval.
Qed.

Lemma incrementIP_of_value (n : nat) (v : Z) :
  incrementIP (be_bytes n v) = be_bytes n (v + 1).
Proof.
  rewrite incrementIP_be_bytes by apply be_bytes_ok.
  rewrite length_be_bytes, be_value_be_bytes.
  rewrite <- (be_bytes_mod n (v mod _ + 1)), <- (be_bytes_mod n (v + 1)).
  f_equal. rewrite Zplus_mod_idemp_l. reflexivity.
Qed.

End incrementIP_value.

(** ** Masks, [Contains] and the two address families *)
Section mask_facts.
Import net.

(** A property checked on the 256 byte values holds of every byte. *)
Lemma byte_cases (P : Z -> bool) :
  forallb P (seqZ 0 256) = true -> forall b, is_byte b -> P b = true.
Proof.
  intros Hall b Hb. rewrite forallb_forall in Hall. apply Hall.
  apply list_elem_of_In, elem_of_seqZ. unfold is_byte in Hb. lia.
Qed.

Lemma land_byte_255 (b : Z) : is_byte b -> Z.land b 255 = b.
Proof.
  intros Hb. apply Z.eqb_eq.
  apply (byte_cases (fun b => Z.land b 255 =? b)); [vm_compute; reflexivity|exact Hb].
Qed.

(** The partial mask byte [^byte(0xff >> n)] clears the low [8 - n] bits. *)
Lemma land_byte_partial (b n : Z) :
  is_byte b -> 0 <= n < 8 ->
  Z.land b (Z.lxor 255 (Z.shiftr 255 n)) = b - b mod 2 ^ (8 - n).
Proof.
  intros Hb Hn. apply Z.eqb_eq.
  assert (Hcases : forallb (fun n => forallb (fun b =>
            Z.land b (Z.lxor 255 (Z.shiftr 255 n)) =? b - b mod 2 ^ (8 - n)) (seqZ 0 256))
            (seqZ 0 8) = true) by (vm_compute; reflexivity).
  rewrite forallb_forall in Hcases.
  apply (byte_cases (fun b => Z.land b (Z.lxor 255 (Z.shiftr 255 n)) =? b - b mod 2 ^ (8 - n)));
    [|exact Hb].
  apply Hcases. apply list_elem_of_In, elem_of_seqZ. lia.
Qed.

Lemma pow256 (k : nat) : 256 ^ Z.of_nat k = 2 ^ (8 * Z.of_nat k).
Proof. rewrite Z.pow_mul_r by lia. reflexivity. Qed.

Lemma length_CIDRMask_loop (l : nat) (n : Z) : length (CIDRMask_loop l n) = l.
Proof. revert n. induction l as [|l IH]; intros n; simpl; [reflexivity|].
  destruct (8 <=? n); simpl; rewrite IH; reflexivity. Qed.

(** Masking with a prefix mask of [n] ones rounds the address down to a
    multiple of [2 ^ (bits - n)]. *)
Lemma land_CIDRMask_loop (ip : list Z) (n : Z) :
  bytes_ok ip -> 0 <= n <= 8 * Z.of_nat (length ip) ->
  let r := zip_with Z.land ip (CIDRMask_loop (length ip) n) in
  bytes_ok r /\ length r = length ip /\
  be_value r = be_value ip - be_value ip mod 2 ^ (8 * Z.of_nat (length ip) - n).
Proof.
  revert n. induction ip as [|b ip IH]; intros n Hok Hn.
  - simpl in *. split; [constructor|]. split; [reflexivity|].
    replace n with 0 by lia. reflexivity.
  - apply Forall_cons in Hok as [Hb Hok].
    pose proof (be_value_bound ip Hok) as Hbound.
    rewrite pow256 in Hbound.
    rewrite length_cons, Nat2Z.inj_succ in *.
    simpl CIDRMask_loop. destruct (Z.leb_spec 8 n) as [Hge|Hlt]; simpl zip_with.
    + destruct (IH (n - 8) Hok ltac:(lia)) as (Hok' & Hlen' & Hval').
      split; [constructor; [rewrite land_byte_255; assumption|assumption]|].
      split; [simpl; rewrite Hlen'; reflexivity|].
      rewrite !be_value_cons, Hlen', Hval', land_byte_255 by assumption.
      rewrite pow256.
      replace (8 * Z.of_nat (length ip) - (n - 8)) with (8 * Z.succ (Z.of_nat (length ip)) - n) by lia.
      set (e := 8 * Z.succ (Z.of_nat (length ip)) - n).
      replace (8 * Z.of_nat (length ip)) with (e + (8 * Z.of_nat (length ip) - e)) by lia.
      rewrite Z.pow_add_r by lia.
      replace (b * (2 ^ e * 2 ^ (8 * Z.of_nat (length ip) - e)) + be_value ip)
        with (be_value ip + (b * 2 ^ (8 * Z.of_nat (length ip) - e)) * 2 ^ e) by lia.
      rewrite Z.mod_add by (apply Z.pow_nonzero; lia). lia.
    + destruct (IH 0 Hok ltac:(lia)) as (Hok' & Hlen' & Hval').
      rewrite Z.sub_0_r, (Z.mod_small _ _ Hbound) in Hval'.
      assert (Hpart := land_byte_partial b n Hb ltac:(lia)).
      split.
      { constructor; [|assumption]. rewrite Hpart. unfold is_byte in *.
        pose proof (Z.mod_pos_bound b (2 ^ (8 - n)) ltac:(apply Z.pow_pos_nonneg; lia)).
        pose proof (Z.mod_le b (2 ^ (8 - n)) ltac:(lia) ltac:(apply Z.pow_pos_nonneg; lia)). lia. }
      split; [simpl; rewrite Hlen'; reflexivity|].
      rewrite !be_value_cons, Hlen', Hval', Hpart, pow256.
      replace (8 * Z.succ (Z.of_nat (length ip)) - n) with (8 * Z.of_nat (length ip) + (8 - n)) by lia.
      rewrite Z.pow_add_r by lia.
      set (X := 2 ^ (8 * Z.of_nat (length ip))) in *.
      assert (HX : 0 < X) by (apply Z.pow_pos_nonneg; lia).
      assert (Hc : 0 < 2 ^ (8 - n)) by (apply Z.pow_pos_nonneg; lia).
      rewrite (Z.rem_mul_r _ X (2 ^ (8 - n))) by lia.
      replace ((b * X + be_value ip) mod X) with (be_value ip).
      2:{ apply (Z.mod_unique _ _ b); lia. }
      replace ((b * X + be_value ip) / X) with b.
      2:{ apply (Z.div_unique _ _ _ (be_value ip)); lia. }
      lia.
Qed.

End mask_facts.

Section contains_facts.
Import net.

Lemma sameMasked_zip (nn m ip : list Z) :
  length nn = length m -> length ip = length m ->
  sameMasked nn m ip = bool_decide (zip_with Z.land nn m = zip_with Z.land ip m).
Proof.
  revert nn ip. induction m as [|m0 m IH]; intros [|n0 nn] [|i0 ip] Hn Hi;
    try discriminate; [reflexivity|].
  simpl in Hn, Hi. simpl sameMasked. simpl zip_with.
  rewrite (IH nn ip) by lia.
  destruct (Z.eqb_spec (Z.land n0 m0) (Z.land i0 m0)) as [Heq|Hne]; simpl negb; cbv iota.
  - rewrite Heq. apply bool_decide_ext. split; [intros ->; reflexivity|].
    intros H. injection H. auto.
  - symmetry. apply bool_decide_eq_false. intros H. injection H. auto.
Qed.

Lemma zip_land_idem (a m : list Z) :
  zip_with Z.land (zip_with Z.land a m) m = zip_with Z.land a m.
Proof.
  revert m. induction a as [|x a IH]; intros [|y m]; simpl; try reflexivity.
  rewrite IH, <- Z.land_assoc, Z.land_diag. reflexivity.
Qed.

(** Two addresses agree under a prefix mask exactly when they lie in the
    same block of [2 ^ (bits - n)] addresses. *)
Lemma sameMasked_prefix (a ip : list Z) (n : Z) :
  bytes_ok a -> bytes_ok ip -> length ip = length a ->
  0 <= n <= 8 * Z.of_nat (length a) ->
  let m := CIDRMask_loop (length a) n in
  let B := 2 ^ (8 * Z.of_nat (length a) - n) in
  sameMasked (zip_with Z.land a m) m ip = (be_value ip / B =? be_value a / B).
Proof.
  intros Ha Hip Hlen Hn m B.
  destruct (land_CIDRMask_loop a n Ha Hn) as (Hoka & Hlena & Hvala).
  destruct (land_CIDRMask_loop ip n Hip ltac:(rewrite Hlen; exact Hn)) as (Hoki & Hleni & Hvali).
  rewrite Hlen in Hoki, Hleni, Hvali. fold m in Hoka, Hlena, Hvala, Hoki, Hleni, Hvali.
  fold B in Hvala, Hvali.
  assert (Hlm : length m = length a) by apply length_CIDRMask_loop.
  rewrite sameMasked_zip by lia. rewrite zip_land_idem.
  assert (HB : 0 < B) by (apply Z.pow_pos_nonneg; lia).
  pose proof (Z.div_mod (be_value a) B ltac:(lia)) as Hda.
  pose proof (Z.div_mod (be_value ip) B ltac:(lia)) as Hdi.
  destruct (Z.eqb_spec (be_value ip / B) (be_value a / B)) as [Heq|Hne].
  - apply bool_decide_eq_true. apply be_value_inj; try assumption; [lia|].
    rewrite Hvala, Hvali. rewrite Heq in Hdi. lia.
  - apply bool_decide_eq_false. intros Hz. apply Hne.
    apply (f_equal be_value) in Hz. rewrite Hvala, Hvali in Hz.
    assert (B * (be_value ip / B) = B * (be_value a / B)) as Hm by lia.
    apply Z.mul_reg_l in Hm; lia.
Qed.

End contains_facts.

Section family_facts.
Import net.

Lemma split12 (ip : list Z) :
  length ip = 16%nat -> bytes_ok ip ->
  be_value ip = be_value (take 12 ip) * 2 ^ 32 + be_value (drop 12 ip)
  /\ 0 <= be_value (drop 12 ip) < 2 ^ 32
  /\ length (drop 12 ip) = 4%nat
  /\ bytes_ok (take 12 ip) /\ bytes_ok (drop 12 ip).
Proof.
  intros Hlen Hok.
  assert (Hd : length (drop 12 ip) = 4%nat) by (rewrite length_drop; lia).
  assert (Hokd : bytes_ok (drop 12 ip)) by (apply Forall_drop; exact Hok).
  assert (Hokt : bytes_ok (take 12 ip)) by (apply Forall_take; exact Hok).
  pose proof (be_value_bound _ Hokd) as Hb. rewrite Hd in Hb.
  rewrite <- (take_drop 12 ip) at 1. rewrite be_value_app, Hd.
  repeat split; try assumption; try lia; apply Hb.
Qed.

Lemma is_mapped_take12 (ip : list Z) :
  length ip = 16%nat -> bytes_ok ip ->
  is_mapped (be_value ip) = bool_decide (take 12 ip = netip.v4InV6Prefix).
Proof.
  intros Hlen Hok. destruct (split12 ip Hlen Hok) as (Hv & Hlow & _ & Hokt & _).
  unfold is_mapped. rewrite Hv.
  replace ((be_value (take 12 ip) * 2 ^ 32 + be_value (drop 12 ip)) / 2 ^ 32)
    with (be_value (take 12 ip)).
  2:{ apply (Z.div_unique _ _ _ (be_value (drop 12 ip))); lia. }
  destruct (Z.eqb_spec (be_value (take 12 ip)) 65535) as [Heq|Hne].
  - symmetry. apply bool_decide_eq_true. apply be_value_inj; try assumption.
    + unfold netip.v4InV6Prefix, bytes_ok. rewrite !Forall_cons. unfold is_byte.
      repeat split; try lia. constructor.
    + rewrite length_take, Hlen. reflexivity.
  - symmetry. apply bool_decide_eq_false. intros H. apply Hne. rewrite H. reflexivity.
Qed.

Lemma To4_len4 (ip : list Z) : length ip = 4%nat -> To4 ip = ip.
Proof. intros H. unfold To4. rewrite H. reflexivity. Qed.

Lemma To4_len16 (ip : list Z) :
  length ip = 16%nat -> bytes_ok ip ->
  To4 ip = if is_mapped (be_value ip) then drop 12 ip else [].
Proof.
  intros Hlen Hok. rewrite (is_mapped_take12 ip Hlen Hok).
  unfold To4. rewrite Hlen. simpl Nat.eqb. cbv iota. simpl andb.
  do 16 (destruct ip as [|? ip]; [discriminate Hlen|]).
  destruct ip; [|discriminate Hlen]. clear Hlen Hok.
  simpl take. simpl lookup. simpl default. unfold isZeros. simpl forallb.
  unfold netip.v4InV6Prefix.
  repeat match goal with
  | |- context [Z.eqb ?x ?c] =>
      destruct (Z.eqb_spec x c) as [->|?];
      [|cbn [andb]; rewrite bool_decide_eq_false_2; [reflexivity|congruence]]
  end.
  cbn [andb]. rewrite bool_decide_eq_true_2; reflexivity.
Qed.

End family_facts.

Section network_facts.
Import net.

Lemma CIDRMask_32 (n : Z) : 0 <= n <= 32 -> CIDRMask n 32 = CIDRMask_loop 4 n.
Proof.
  intros Hn. unfold CIDRMask. simpl andb. cbv iota.
  destruct (Z.ltb_spec n 0); [lia|]. destruct (Z.ltb_spec 32 n); [lia|]. reflexivity.
Qed.

Lemma CIDRMask_128 (n : Z) : 0 <= n <= 128 -> CIDRMask n 128 = CIDRMask_loop 16 n.
Proof.
  intros Hn. unfold CIDRMask. simpl andb. cbv iota.
  destruct (Z.ltb_spec n 0); [lia|]. destruct (Z.ltb_spec 128 n); [lia|]. reflexivity.
Qed.

Lemma Mask_v4 (a m : list Z) :
  length a = 4%nat -> length m = 4%nat ->
  Mask (netip.v4InV6Prefix ++ a) m = zip_with Z.land a m.
Proof.
  intros Ha Hm.
  do 4 (destruct a as [|? a]; [discriminate Ha|]). destruct a; [|discriminate Ha].
  do 4 (destruct m as [|? m]; [discriminate Hm|]). destruct m; [|discriminate Hm].
  reflexivity.
Qed.

Lemma Mask_v6 (a m : list Z) :
  length a = 16%nat -> length m = 16%nat -> Mask a m = zip_with Z.land a m.
Proof.
  intros Ha Hm.
  do 16 (destruct a as [|? a]; [discriminate Ha|]). destruct a; [|discriminate Ha].
  do 16 (destruct m as [|? m]; [discriminate Hm|]). destruct m; [|discriminate Hm].
  reflexivity.
Qed.

Lemma Contains_len4 (base m ip : list Z) :
  length base = 4%nat -> length m = 4%nat -> length ip = 4%nat ->
  Contains {| IPNet_IP := base; IPNet_Mask := m |} ip = sameMasked base m ip.
Proof.
  intros Hb Hm Hi.
  do 4 (destruct base as [|? base]; [discriminate Hb|]). destruct base; [|discriminate Hb].
  do 4 (destruct m as [|? m]; [discriminate Hm|]). destruct m; [|discriminate Hm].
  do 4 (destruct ip as [|? ip]; [discriminate Hi|]). destruct ip; [|discriminate Hi].
  reflexivity.
Qed.

Lemma Contains_len16 (base m ip : list Z) :
  length base = 16%nat -> length m = 16%nat -> length ip = 16%nat ->
  bytes_ok base -> bytes_ok ip ->
  Contains {| IPNet_IP := base; IPNet_Mask := m |} ip =
  if is_mapped (be_value base)
  then (if is_mapped (be_value ip)
        then sameMasked (drop 12 base) (drop 12 m) (drop 12 ip) else false)
  else (if is_mapped (be_value ip) then false else sameMasked base m ip).
Proof.
  intros Hb Hm Hi Hokb Hoki.
  unfold Contains, networkNumberAndMask. simpl IPNet_IP. simpl IPNet_Mask.
  rewrite (To4_len16 base Hb Hokb), (To4_len16 ip Hi Hoki).
  clear Hokb Hoki.
  destruct (is_mapped (be_value base)), (is_mapped (be_value ip));
    do 16 (destruct base as [|? base]; [discriminate Hb|]); (destruct base; [|discriminate Hb]);
    do 16 (destruct m as [|? m]; [discriminate Hm|]); (destruct m; [|discriminate Hm]);
    do 16 (destruct ip as [|? ip]; [discriminate Hi|]); (destruct ip; [|discriminate Hi]);
    reflexivity.
Qed.

Lemma CIDRMask_loop_full (k l : nat) (n : Z) :
  8 * Z.of_nat k <= n ->
  CIDRMask_loop (k + l) n = replicate k 255 ++ CIDRMask_loop l (n - 8 * Z.of_nat k).
Proof.
  revert n. induction k as [|k IH]; intros n Hn.
  - simpl. f_equal. lia.
  - simpl Nat.add. simpl CIDRMask_loop. destruct (Z.leb_spec 8 n); [|lia].
    rewrite IH by lia. simpl. do 3 f_equal. lia.
Qed.

Lemma drop_zip_land (k : nat) (a m : list Z) :
  drop k (zip_with Z.land a m) = zip_with Z.land (drop k a) (drop k m).
Proof.
  revert a m. induction k as [|k IH]; intros a m; [reflexivity|].
  destruct a as [|x a], m as [|y m]; simpl; try reflexivity.
  - destruct (drop k a); reflexivity.
  - apply IH.
Qed.

End network_facts.

(** Arithmetic of blocks of [B = 2 ^ (128 - n)] addresses against the
    IPv4-mapped range [[mapped0, mapped0 + 2 ^ 32)]. *)
Section prefix_arithmetic.
Variable n : Z.
Let B := 2 ^ (128 - n).

Lemma block_pos : 0 <= n <= 128 -> 0 < B.
Proof. intros. apply Z.pow_pos_nonneg; lia. Qed.

Lemma pow32_split : 96 <= n <= 128 -> 2 ^ 32 = B * 2 ^ (n - 96).
Proof. intros H. unfold B. rewrite <- Z.pow_add_r by lia. f_equal. lia. Qed.

Lemma block_split : 0 <= n < 96 -> B = 2 ^ 32 * (2 * 2 ^ (95 - n)).
Proof.
  intros H. unfold B. rewrite <- (Z.pow_succ_r 2 (95 - n)) by lia.
  rewrite <- Z.pow_add_r by lia. f_equal. lia.
Qed.

Lemma same_block_same_high (x y : Z) :
  96 <= n <= 128 -> x / B = y / B -> x / 2 ^ 32 = y / 2 ^ 32.
Proof.
  intros Hn Hxy. pose proof (block_pos ltac:(lia)).
  assert (0 < 2 ^ (n - 96)) by (apply Z.pow_pos_nonneg; lia).
  rewrite pow32_split by assumption.
  rewrite <- !Z.div_div by lia. rewrite Hxy. reflexivity.
Qed.

Lemma round_down_high (x : Z) :
  96 <= n <= 128 -> (x - x mod B) / 2 ^ 32 = x / 2 ^ 32.
Proof.
  intros Hn. pose proof (block_pos ltac:(lia)).
  apply same_block_same_high; [assumption|].
  replace (x - x mod B) with (x / B * B).
  2:{ pose proof (Z.div_mod x B ltac:(lia)). lia. }
  apply Z.div_mul. lia.
Qed.

Lemma mapped_low_block (lx ly : Z) :
  96 <= n <= 128 ->
  (lx / B =? ly / B) = ((mapped0 + lx) / B =? (mapped0 + ly) / B).
Proof.
  intros Hn. pose proof (block_pos ltac:(lia)).
  unfold mapped0. rewrite pow32_split by assumption.
  replace (65535 * (B * 2 ^ (n - 96))) with (65535 * 2 ^ (n - 96) * B) by lia.
  rewrite !Z.div_add_l by lia.
  destruct (Z.eqb_spec (lx / B) (ly / B)) as [->|Hne].
  - symmetry. apply Z.eqb_refl.
  - symmetry. apply Z.eqb_neq. lia.
Qed.

Lemma round_down_not_mapped (x : Z) :
  0 <= n < 96 -> (x - x mod B) / 2 ^ 32 <> 65535.
Proof.
  intros Hn. pose proof (block_pos ltac:(lia)).
  replace (x - x mod B) with (x / B * B).
  2:{ pose proof (Z.div_mod x B ltac:(lia)). lia. }
  rewrite block_split by assumption.
  replace (x / (2 ^ 32 * (2 * 2 ^ (95 - n))) * (2 ^ 32 * (2 * 2 ^ (95 - n))))
    with (2 * (x / (2 ^ 32 * (2 * 2 ^ (95 - n))) * 2 ^ (95 - n)) * 2 ^ 32) by lia.
  rewrite Z.div_mul by lia. lia.
Qed.

End prefix_arithmetic.

Section network_value.
Import net.

Lemma BitLen_len (addr : netip.Addr) : netip.BitLen addr = 8 * Z.of_nat (Addr_len addr).
Proof. destruct addr; reflexivity. Qed.

Lemma block_size_pos (addr : netip.Addr) (n : Z) :
  0 <= n <= netip.BitLen addr -> 0 < block_size addr n.
Proof. intros. apply Z.pow_pos_nonneg; lia. Qed.

Lemma network_masked (addr : netip.Addr) (n : Z) :
  Addr_ok addr -> 0 <= n <= netip.BitLen addr ->
  let m := CIDRMask_loop (Addr_len addr) n in
  CIDRMask n (netip.BitLen addr) = m /\
  Mask (netip.As16 addr) m = zip_with Z.land (Addr_bytes addr) m.
Proof.
  intros [Hok Hlen] Hn.
  destruct addr as [a|a]; cbn [Addr_bytes Addr_len netip.BitLen netip.As16] in *.
  - rewrite CIDRMask_32 by lia. split; [reflexivity|].
    apply Mask_v4; [assumption|apply length_CIDRMask_loop].
  - rewrite CIDRMask_128 by lia. split; [reflexivity|].
    apply Mask_v6; [assumption|apply length_CIDRMask_loop].
Qed.

(** The loop of [CIDRtoListIP] starts at the first address of the block. *)
Lemma network_start (addr : netip.Addr) (n : Z) :
  Addr_ok addr -> 0 <= n <= netip.BitLen addr ->
  Mask (netip.As16 addr) (CIDRMask n (netip.BitLen addr))
  = be_bytes (Addr_len addr) (block_base addr n).
Proof.
  intros Hok Hn. destruct (network_masked addr n Hok Hn) as [-> ->].
  destruct Hok as [Hok Hlen].
  destruct (land_CIDRMask_loop (Addr_bytes addr) n Hok) as (Hok' & Hlen' & Hval').
  { rewrite Hlen, <- BitLen_len. exact Hn. }
  rewrite Hlen in Hok', Hlen', Hval'. rewrite <- BitLen_len in Hval'.
  rewrite <- (be_bytes_be_value _ Hok'), Hlen', Hval'. reflexivity.
Qed.

Lemma network_Contains (addr : netip.Addr) (n : Z) (v : Z) :
  Addr_ok addr -> 0 <= n <= netip.BitLen addr ->
  0 <= v < 256 ^ Z.of_nat (Addr_len addr) ->
  Contains (network addr n) (be_bytes (Addr_len addr) v) = in_network addr n v.
Proof.
  intros Hok Hn Hv. unfold network.
  destruct (network_masked addr n Hok Hn) as [-> ->].
  destruct Hok as [Hok Hlen].
  set (ip := be_bytes (Addr_len addr) v).
  assert (Hipok : bytes_ok ip) by apply be_bytes_ok.
  assert (Hiplen : length ip = Addr_len addr) by apply length_be_bytes.
  assert (Hipval : be_value ip = v) by (apply be_bytes_small; exact Hv).
  assert (Hn' : 0 <= n <= 8 * Z.of_nat (length (Addr_bytes addr)))
    by (rewrite Hlen, <- BitLen_len; exact Hn).
  destruct (land_CIDRMask_loop (Addr_bytes addr) n Hok Hn') as (Hok' & Hlen' & Hval').
  pose proof (sameMasked_prefix (Addr_bytes addr) ip n Hok Hipok ltac:(congruence) Hn') as Hsame.
  cbv zeta in Hsame, Hok', Hlen', Hval'.
  rewrite Hlen in Hsame, Hok', Hlen', Hval'.
  rewrite <- BitLen_len in Hsame, Hval'. fold (block_size addr n) in Hsame, Hval'.
  rewrite Hipval in Hsame.
  unfold in_network. destruct addr as [a|a]; simpl Addr_bytes in *; simpl Addr_len in *.
  - rewrite Contains_len4; [|assumption|apply length_CIDRMask_loop|assumption].
    rewrite Hsame, andb_true_r. reflexivity.
  - simpl netip.BitLen in *. unfold block_size in *. simpl netip.BitLen in *.
    rewrite Contains_len16;
      [|assumption|apply length_CIDRMask_loop|assumption|assumption|assumption].
    rewrite Hval', Hipval, Hsame.
    destruct (Z.leb_spec 96 n) as [Hge|Hlt].
    + (* at most 2^32 addresses: the block lies inside or outside the mapped range *)
      rewrite orb_true_l, andb_true_r.
      unfold is_mapped at 1. rewrite round_down_high by lia. fold (is_mapped (be_value a)).
      destruct (is_mapped (be_value a)) eqn:Hma, (is_mapped v) eqn:Hmv.
      * rewrite drop_zip_land.
        replace (drop 12 (CIDRMask_loop 16 n)) with (CIDRMask_loop 4 (n - 96)).
        2:{ change 16%nat with (12 + 4)%nat.
            rewrite (CIDRMask_loop_full 12 4 n) by lia.
            rewrite drop_app_length' by reflexivity. f_equal. }
        destruct (split12 a Hlen Hok) as (Hva & Hla & Hlena & _ & Hoka).
        destruct (split12 ip Hiplen Hipok) as (Hvi & Hli & Hleni & _ & Hoki).
        pose proof (sameMasked_prefix (drop 12 a) (drop 12 ip) (n - 96) Hoka Hoki
                      ltac:(congruence) ltac:(rewrite Hlena; lia)) as Hlow.
        cbv zeta in Hlow. rewrite Hlena in Hlow. rewrite Hlow.
        replace (8 * Z.of_nat 4 - (n - 96)) with (128 - n) by lia.
        rewrite mapped_low_block by lia.
        unfold is_mapped in Hma, Hmv. apply Z.eqb_eq in Hma, Hmv.
        assert (Ha : be_value a = mapped0 + be_value (drop 12 a)).
        { rewrite Hva in Hma |- *. unfold mapped0. f_equal. f_equal.
          rewrite Z.div_add_l in Hma by lia. rewrite Z.div_small in Hma by lia. lia. }
        assert (Hi : v = mapped0 + be_value (drop 12 ip)).
        { rewrite <- Hipval at 1. rewrite Hvi in Hipval |- *. rewrite <- Hipval in Hmv.
          unfold mapped0. f_equal. f_equal.
          rewrite Z.div_add_l in Hmv by lia. rewrite Z.div_small in Hmv by lia. lia. }
        rewrite <- Ha, <- Hi. reflexivity.
      * symmetry. apply Z.eqb_neq. intros Heq.
        apply same_block_same_high in Heq; [|lia].
        unfold is_mapped in Hma, Hmv. rewrite Heq, Hma in Hmv. discriminate.
      * symmetry. apply Z.eqb_neq. intros Heq.
        apply same_block_same_high in Heq; [|lia].
        unfold is_mapped in Hma, Hmv. rewrite Heq, Hma in Hmv. discriminate.
      * reflexivity.
    + rewrite orb_false_l.
      unfold is_mapped at 1. rewrite (proj2 (Z.eqb_neq _ _)) by (apply round_down_not_mapped; lia).
      destruct (is_mapped v); simpl; [rewrite andb_false_r|rewrite andb_true_r]; reflexivity.
Qed.

End network_value.

(** ** The loop of [CIDRtoListIP] *)
Section memory_facts.
Import utils.

(** A test on the numbers below [k] passes on all of them, or fails first
    at one of them. *)
Lemma first_failure (f : nat -> bool) (k : nat) :
  (forall j, (j < k)%nat -> f j = true)
  \/ (exists m, (m < k)%nat /\ f m = false /\ forall j, (j < m)%nat -> f j = true).
Proof.
  induction k as [|k [IH|(m & Hm & Hf & Hbelow)]].
  - left. intros j Hj. lia.
  - destruct (f k) eqn:Hk.
    + left. intros j Hj. destruct (Nat.eq_dec j k) as [->|]; [exact Hk|apply IH; lia].
    + right. exists k. split; [lia|]. split; [exact Hk|exact IH].
  - right. exists m. split; [lia|]. split; assumption.
Qed.

Lemma maxLen_pos : 0 < maxLen.
Proof. unfold maxLen. apply Z.pow_pos_nonneg; lia. Qed.

(** No memory lets a slice grow beyond [maxLen]. *)
Lemma canAppend_maxLen (memory : nat -> bool) : canAppend memory (Z.to_nat maxLen) = false.
Proof.
  unfold canAppend. pose proof maxLen_pos. rewrite Z2Nat.id by lia.
  rewrite Z.ltb_irrefl. reflexivity.
Qed.

Lemma canAppend_below (memory : nat -> bool) (k : nat) :
  canAppend memory k = true -> Z.of_nat k < maxLen.
Proof. unfold canAppend. intros H. apply andb_true_iff in H as [H _]. lia. Qed.

Lemma holds_cases (memory : nat -> bool) (count : Z) :
  holds memory count
  \/ (exists k, Z.of_nat k < count /\ fails_at memory k).
Proof.
  destruct (first_failure (canAppend memory) (Z.to_nat count)) as [Hall|(m & Hm & Hf & Hbelow)].
  - left. intros k Hk. apply Hall. lia.
  - right. exists m. split; [lia|]. split; assumption.
Qed.

Lemma holds_maxLen (memory : nat -> bool) (count : Z) : holds memory count -> count <= maxLen.
Proof.
  intros Hholds. destruct (Z.le_gt_cases count maxLen) as [|Hgt]; [assumption|].
  pose proof maxLen_pos. specialize (Hholds (Z.to_nat maxLen) ltac:(lia)).
  rewrite canAppend_maxLen in Hholds. discriminate.
Qed.

Lemma holds_plenty (count : Z) : count <= maxLen -> holds plenty count.
Proof.
  intros Hcount k Hk. unfold canAppend, plenty. rewrite andb_true_r. lia.
Qed.

End memory_facts.

Section loop_facts.
Import utils net.

Variable memory : nat -> bool.
Variable L : nat.
Variable ipNet : IPNet.
Variable P : Z -> bool.
Let N := 256 ^ Z.of_nat L.
Hypothesis Contains_P :
  forall v, 0 <= v < N -> Contains ipNet (be_bytes L v) = P v.

Lemma N_pos : 0 < N.
Proof. apply Z.pow_pos_nonneg; lia. Qed.

Lemma Contains_any (v : Z) : Contains ipNet (be_bytes L v) = P (v mod N).
Proof.
  rewrite <- be_bytes_mod. apply Contains_P. apply Z.mod_pos_bound, N_pos.
Qed.

(** One turn of the loop, on the address numbered [v]. *)
Lemma loop_step (fuel : nat) (v : Z) (acc : list string) :
  CIDRtoListIP_loop memory (S fuel) ipNet (be_bytes L v) acc
  = if P (v mod N)
    then if canAppend memory (length acc)
         then CIDRtoListIP_loop memory fuel ipNet (be_bytes L (v + 1))
                (acc ++ [String (be_bytes L v)])
         else Some OutOfMemory
    else Some (Ok acc).
Proof. cbn [CIDRtoListIP_loop]. rewrite Contains_any, incrementIP_of_value. reflexivity. Qed.

(** [k] addresses in the network followed by one outside, and memory for
    the [k] appends: the loop returns after [k + 1] tests, having appended
    the [k] addresses in order. *)
Lemma loop_returns (k : nat) (v : Z) (acc : list string) :
  (forall j, 0 <= j < Z.of_nat k -> P ((v + j) mod N) = true) ->
  P ((v + Z.of_nat k) mod N) = false ->
  (forall j, (j < k)%nat -> canAppend memory (length acc + j) = true) ->
  CIDRtoListIP_loop memory (S k) ipNet (be_bytes L v) acc
  = Some (Ok (acc ++ map (fun v => String (be_bytes L v)) (seqZ v (Z.of_nat k)))).
Proof.
  revert v acc. induction k as [|k IH]; intros v acc Hin Hout Hmem.
  - rewrite loop_step. rewrite Z.add_0_r in Hout. rewrite Hout.
    rewrite app_nil_r. reflexivity.
  - rewrite loop_step.
    rewrite <- (Z.add_0_r v) at 1. rewrite (Hin 0) by lia.
    rewrite <- (Nat.add_0_r (length acc)) at 1. rewrite (Hmem 0%nat) by lia.
    rewrite IH.
    + rewrite (seqZ_cons v (Z.of_nat (S k))) by lia.
      replace (Z.pred (Z.of_nat (S k))) with (Z.of_nat k) by lia.
      replace (Z.succ v) with (v + 1) by lia.
      simpl map. rewrite <- app_assoc. reflexivity.
    + intros j Hj. replace (v + 1 + j) with (v + (1 + j)) by lia. apply Hin. lia.
    + replace (v + 1 + Z.of_nat k) with (v + Z.of_nat (S k)) by lia. exact Hout.
    + intros j Hj. rewrite length_app. cbn [length].
      replace (length acc + 1 + j)%nat with (length acc + S j)%nat by lia. apply Hmem. lia.
Qed.

(** [k + 1] addresses in the network, and memory for [k] appends and no
    more: the program ends at the append of the last of them. *)
Lemma loop_dies (k : nat) (v : Z) (acc : list string) :
  (forall j, 0 <= j <= Z.of_nat k -> P ((v + j) mod N) = true) ->
  (forall j, (j < k)%nat -> canAppend memory (length acc + j) = true) ->
  canAppend memory (length acc + k) = false ->
  CIDRtoListIP_loop memory (S k) ipNet (be_bytes L v) acc = Some OutOfMemory.
Proof.
  revert v acc. induction k as [|k IH]; intros v acc Hin Hmem Hout.
  - rewrite loop_step. rewrite <- (Z.add_0_r v) at 1. rewrite (Hin 0) by lia.
    rewrite Nat.add_0_r in Hout. rewrite Hout. reflexivity.
  - rewrite loop_step.
    rewrite <- (Z.add_0_r v) at 1. rewrite (Hin 0) by lia.
    rewrite <- (Nat.add_0_r (length acc)) at 1. rewrite (Hmem 0%nat) by lia.
    apply IH.
    + intros j Hj. replace (v + 1 + j) with (v + (1 + j)) by lia. apply Hin. lia.
    + intros j Hj. rewrite length_app. cbn [length].
      replace (length acc + 1 + j)%nat with (length acc + S j)%nat by lia. apply Hmem. lia.
    + rewrite length_app. cbn [length].
      replace (length acc + 1 + k)%nat with (length acc + S k)%nat by lia. exact Hout.
Qed.

(** Every address reached is in the network and every append goes through:
    the loop is still running. *)
Lemma loop_runs_on (fuel : nat) (v : Z) (acc : list string) :
  (forall j, 0 <= j < Z.of_nat fuel -> P ((v + j) mod N) = true) ->
  (forall j, (j < fuel)%nat -> canAppend memory (length acc + j) = true) ->
  CIDRtoListIP_loop memory fuel ipNet (be_bytes L v) acc = None.
Proof.
  revert v acc. induction fuel as [|fuel IH]; intros v acc Hin Hmem; [reflexivity|].
  rewrite loop_step.
  rewrite <- (Z.add_0_r v) at 1. rewrite (Hin 0) by lia.
  rewrite <- (Nat.add_0_r (length acc)) at 1. rewrite (Hmem 0%nat) by lia.
  apply IH.
  - intros j Hj. replace (v + 1 + j) with (v + (1 + j)) by lia. apply Hin. lia.
  - intros j Hj. rewrite length_app. cbn [length].
    replace (length acc + 1 + j)%nat with (length acc + S j)%nat by lia. apply Hmem. lia.
Qed.

End loop_facts.

Section fuel_facts.
Import utils.
Variable memory : nat -> bool.

(** More fuel does not change what the loop ends in. *)
Lemma loop_fuel_mono (fuel extra : nat) ipNet ip acc r :
  CIDRtoListIP_loop memory fuel ipNet ip acc = Some r ->
  CIDRtoListIP_loop memory (fuel + extra) ipNet ip acc = Some r.
Proof.
  revert ip acc. induction fuel as [|fuel IH]; intros ip acc H; [discriminate|].
  simpl in *. destruct (net.Contains ipNet ip); [|exact H].
  destruct (canAppend memory (length acc)); [apply IH|]; exact H.
Qed.

Lemma CIDRtoListIP_fuel_mono (fuel extra : nat) (cidr : string) r :
  CIDRtoListIP memory fuel cidr = Some r -> CIDRtoListIP memory (fuel + extra) cidr = Some r.
Proof.
  unfold CIDRtoListIP. destruct (net.ParseCIDR cidr) as [[ip ipNet]|]; [|auto].
  apply loop_fuel_mono.
Qed.

(** So a call has at most one end. *)
Lemma CIDRtoListIP_functional (f1 f2 : nat) (cidr : string) r1 r2 :
  CIDRtoListIP memory f1 cidr = Some r1 -> CIDRtoListIP memory f2 cidr = Some r2 -> r1 = r2.
Proof.
  intros H1 H2.
  apply (CIDRtoListIP_fuel_mono _ f2) in H1. apply (CIDRtoListIP_fuel_mono _ f1) in H2.
  rewrite (Nat.add_comm f2 f1) in H2. congruence.
Qed.

End fuel_facts.

(** ** What the parsers return is well-formed *)
Section parser_facts.
Import netip.

Lemma mod256_is_byte (x : Z) : is_byte (x mod 256).
Proof. unfold is_byte. apply Z.mod_pos_bound. lia. Qed.

Lemma bytes_ok_snoc (l : list Z) (b : Z) : bytes_ok l -> is_byte b -> bytes_ok (l ++ [b]).
Proof. intros Hl Hb. apply Forall_app. split; [exact Hl|]. constructor; [exact Hb|constructor]. Qed.

Lemma bytes_ok_insert (l : list Z) (i : nat) (b : Z) :
  bytes_ok l -> is_byte b -> bytes_ok (<[i := b]> l).
Proof. intros Hl Hb. apply Forall_insert; assumption. Qed.

Lemma bytes_ok_replicate0 (k : nat) : bytes_ok (replicate k 0).
Proof. apply Forall_replicate. unfold is_byte. lia. Qed.

Lemma parseIPv4_loop_ok s first prev val pos digLen fields addr :
  parseIPv4_loop s first prev val pos digLen fields = Some addr ->
  length fields = pos -> bytes_ok fields -> (pos <= 3)%nat ->
  exists a, addr = Addr4 a /\ length a = 4%nat /\ bytes_ok a.
Proof.
  revert first prev val pos digLen fields.
  induction s as [|c rest IH]; intros first prev val pos digLen fields Hrun Hlen Hok Hpos.
  - simpl in Hrun. destruct (Nat.ltb_spec pos 3); [discriminate|].
    injection Hrun as <-. eexists. split; [reflexivity|]. split.
    + rewrite length_app. simpl. lia.
    + apply bytes_ok_snoc; [exact Hok|apply mod256_is_byte].
  - simpl in Hrun.
    destruct ((ch_0 <=? c) && (c <=? ch_9)).
    + destruct ((digLen =? 1) && (val =? 0)); [discriminate|].
      destruct (255 <? val * 10 + (c - ch_0)); [discriminate|].
      eapply IH; eassumption.
    + destruct (c =? ch_dot); [|discriminate].
      destruct (first || bool_decide (rest = []) || (prev =? ch_dot)); [discriminate|].
      destruct (Nat.eqb_spec pos 3); [discriminate|].
      eapply IH; [eassumption| | |lia].
      * rewrite length_app. simpl. lia.
      * apply bytes_ok_snoc; [exact Hok|apply mod256_is_byte].
Qed.

Lemma parseIPv4_ok s addr :
  parseIPv4 s = Some addr -> exists a, addr = Addr4 a /\ length a = 4%nat /\ bytes_ok a.
Proof.
  intros H. eapply parseIPv4_loop_ok; [exact H|reflexivity|constructor|lia].
Qed.

Lemma parseIPv6_loop_ok groups s ip i ellipsis st :
  parseIPv6_loop groups s ip i ellipsis = Some st ->
  length ip = 16%nat -> bytes_ok ip ->
  length (v6_ip st) = 16%nat /\ bytes_ok (v6_ip st).
Proof.
  revert s ip i ellipsis.
  induction groups as [|groups IH]; intros s ip i ellipsis Hrun Hlen Hok.
  - injection Hrun as <-. simpl. auto.
  - simpl in Hrun.
    destruct (parseHex_loop s 0 0) as [[[off acc] after]|]; [|discriminate].
    destruct (off =? 0); [discriminate|].
    assert (Hsave : length (<[(i + 1)%nat := acc mod 256]> (<[i := Z.shiftr acc 8 mod 256]> ip)) = 16%nat
                    /\ bytes_ok (<[(i + 1)%nat := acc mod 256]> (<[i := Z.shiftr acc 8 mod 256]> ip))).
    { split; [rewrite !length_insert; exact Hlen|].
      repeat apply bytes_ok_insert; try apply mod256_is_byte. exact Hok. }
    destruct Hsave as [Hlen' Hok'].
    destruct after as [|c after'].
    + injection Hrun as <-. simpl. auto.
    + destruct (c =? ch_dot).
      * destruct (bool_decide (ellipsis = None) && negb (i =? 12)%nat); [discriminate|].
        destruct (16 <? i + 4)%nat; [discriminate|].
        destruct (parseIPv4 s) as [addr4|] eqn:H4; [|discriminate].
        destruct (parseIPv4_ok _ _ H4) as (a & -> & Ha & Hoka).
        do 4 (destruct a as [|? a]; [discriminate Ha|]). destruct a; [|discriminate Ha].
        injection Hrun as <-. simpl.
        apply Forall_cons in Hoka as [? Hoka]. apply Forall_cons in Hoka as [? Hoka].
        apply Forall_cons in Hoka as [? Hoka]. apply Forall_cons in Hoka as [? Hoka].
        split; [rewrite !length_insert; exact Hlen|].
        repeat apply bytes_ok_insert; assumption.
      * destruct (negb (c =? ch_colon)); [discriminate|].
        destruct after' as [|c2 rest2]; [discriminate|].
        destruct (c2 =? ch_colon).
        -- destruct ellipsis; [discriminate|].
           destruct rest2.
           ++ injection Hrun as <-. simpl. auto.
           ++ eapply IH; eassumption.
        -- eapply IH; eassumption.
Qed.

Lemma shiftUp_ok count e n ip :
  bytes_ok ip -> bytes_ok (shiftUp count e n ip) /\ length (shiftUp count e n ip) = length ip.
Proof.
  revert ip. induction count as [|count IH]; intros ip Hok; [auto|].
  simpl. destruct (IH (<[(e + count + n)%nat := default 0 (ip !! (e + count)%nat)]> ip)) as [H1 H2].
  - apply bytes_ok_insert; [exact Hok|].
    destruct (ip !! (e + count)%nat) as [x|] eqn:Hx; simpl.
    + eapply Forall_lookup_1; eassumption.
    + unfold is_byte. lia.
  - split; [exact H1|]. rewrite H2. apply length_insert.
Qed.

Lemma clearRange_ok count from ip :
  bytes_ok ip -> bytes_ok (clearRange count from ip) /\ length (clearRange count from ip) = length ip.
Proof.
  revert from ip. induction count as [|count IH]; intros from ip Hok; [auto|].
  simpl. destruct (IH (S from) (<[from := 0]> ip)) as [H1 H2].
  - apply bytes_ok_insert; [exact Hok|unfold is_byte; lia].
  - split; [exact H1|]. rewrite H2. apply length_insert.
Qed.

Lemma parseIPv6_ok s addr :
  parseIPv6 s = Some addr -> exists a, addr = Addr6 a /\ length a = 16%nat /\ bytes_ok a.
Proof.
  unfold parseIPv6. destruct (bool_decide (ch_percent ∈ s)); [discriminate|].
  set (lead := match s with
               | c1 :: c2 :: rest =>
                   if (c1 =? ch_colon) && (c2 =? ch_colon) then (Some 0%nat, rest) else (None, s)
               | _ => (None, s)
               end).
  destruct lead as [ellipsis s1]. intros Hrun.
  assert (Hmain :
    match parseIPv6_loop 8 s1 (replicate 16 0) 0 ellipsis with
    | Some st =>
        if negb (bool_decide (v6_rest st = [])) then None
        else if (v6_i st <? 16)%nat
             then match v6_ellipsis st with
                  | Some e => Some (Addr6 (clearRange (16 - v6_i st) e
                                             (shiftUp (v6_i st - e) e (16 - v6_i st) (v6_ip st))))
                  | None => None
                  end
             else match v6_ellipsis st with
                  | Some _ => None
                  | None => Some (Addr6 (v6_ip st))
                  end
    | None => None
    end = Some addr ->
    exists a, addr = Addr6 a /\ length a = 16%nat /\ bytes_ok a).
  { destruct (parseIPv6_loop 8 s1 (replicate 16 0) 0 ellipsis) as [st|] eqn:Hloop; [|discriminate].
    destruct (parseIPv6_loop_ok _ _ _ _ _ _ Hloop) as [Hlen Hok];
      [apply length_replicate|apply bytes_ok_replicate0|].
    destruct (negb (bool_decide (v6_rest st = []))); [discriminate|].
    destruct (v6_i st <? 16)%nat.
    - destruct (v6_ellipsis st) as [e|]; [|discriminate].
      intros H. injection H as <-. eexists. split; [reflexivity|].
      destruct (shiftUp_ok (v6_i st - e) e (16 - v6_i st) (v6_ip st) Hok) as [H1 H2].
      destruct (clearRange_ok (16 - v6_i st) e _ H1) as [H3 H4].
      split; [rewrite H4, H2; exact Hlen|exact H3].
    - destruct (v6_ellipsis st); [discriminate|].
      intros H. injection H as <-. eexists. split; [reflexivity|]. auto. }
  destruct ellipsis as [e|]; [destruct s1|]; try (apply Hmain; exact Hrun).
  injection Hrun as <-. eexists. split; [reflexivity|].
  split; [reflexivity|apply (bytes_ok_replicate0 16)].
Qed.

Lemma ParseAddr_ok s addr : ParseAddr s = Some addr -> Addr_ok addr.
Proof.
  unfold ParseAddr. generalize s at 1. intros whole. induction s as [|c rest IH]; [discriminate|].
  simpl. destruct (c =? ch_dot).
  { intros H. destruct (parseIPv4_ok _ _ H) as (a & -> & Hlen & Hok). split; assumption. }
  destruct (c =? ch_colon).
  { intros H. destruct (parseIPv6_ok _ _ H) as (a & -> & Hlen & Hok). split; assumption. }
  destruct (c =? ch_percent); [discriminate|]. exact IH.
Qed.

(** A CIDR string that parses has a well-formed address and a prefix
    length between 0 and the address width. *)
Lemma parseCIDRParts_ok (cidr : string) addr n :
  net.parseCIDRParts cidr = Some (addr, n) ->
  Addr_ok addr /\ 0 <= n <= BitLen addr.
Proof.
  unfold net.parseCIDRParts.
  destruct (net.splitSlash _) as [[a m]|]; [|discriminate].
  destruct (ParseAddr a) as [ipAddr|] eqn:Ha; [|discriminate].
  destruct (net.dtoi m) as [[n' i] ok].
  destruct ok; simpl negb; simpl orb; [|discriminate].
  destruct (negb (i =? Z.of_nat (length m))); simpl orb; [discriminate|].
  destruct (Z.ltb_spec n' 0); simpl orb; [discriminate|].
  destruct (Z.ltb_spec (BitLen ipAddr) n'); [discriminate|].
  intros Hret. injection Hret as <- <-. split; [apply (ParseAddr_ok _ _ Ha)|lia].
Qed.

End parser_facts.

(** Walking through a block of [B] numbers inside [[0, B * T)], from its
    first number [base = A - A mod B]. *)
Section block_arithmetic.
Variables A B T : Z.
Hypothesis HB : 0 < B.
Hypothesis HA : 0 <= A < B * T.
Let base := A - A mod B.

Lemma base_quot : base = B * (A / B) /\ 0 <= A / B < T.
Proof.
  unfold base. pose proof (Z.div_mod A B ltac:(lia)). split; [lia|].
  split; [apply Z.div_pos; lia|apply Z.div_lt_upper_bound; lia].
Qed.

Lemma in_block (j : Z) :
  0 <= j < B -> (base + j) mod (B * T) = base + j /\ (base + j) / B = A / B.
Proof.
  intros Hj. destruct base_quot as [Hb Hq]. split.
  - apply Z.mod_small. nia.
  - rewrite Hb. symmetry. apply (Z.div_unique _ _ _ j); lia.
Qed.

Lemma after_block : 1 < T -> ((base + B) mod (B * T)) / B <> A / B.
Proof.
  intros HT1. destruct base_quot as [Hb Hq].
  destruct (Z.eq_dec (A / B) (T - 1)) as [Heq|Hne].
  - replace (base + B) with (B * T) by nia.
    rewrite Z.mod_same by nia. rewrite Z.div_0_l by lia. lia.
  - rewrite Z.mod_small by nia.
    replace (base + B) with ((A / B + 1) * B) by lia.
    rewrite Z.div_mul by lia. lia.
Qed.

Lemma whole_space (v : Z) : T = 1 -> (v mod (B * T)) / B = A / B.
Proof.
  intros HT1. rewrite HT1, Z.mul_1_r in *.
  rewrite (Z.div_small A B) by lia. apply Z.div_small. apply Z.mod_pos_bound. lia.
Qed.

End block_arithmetic.

Section block_walk.
Variable addr : netip.Addr.
Variable n : Z.
Hypothesis Hok : Addr_ok addr.
Hypothesis Hn : 0 <= n <= netip.BitLen addr.

Lemma space_split :
  256 ^ Z.of_nat (Addr_len addr) = block_size addr n * 2 ^ n.
Proof.
  unfold block_size. rewrite pow256, <- BitLen_len, <- Z.pow_add_r by lia.
  f_equal. lia.
Qed.

Lemma A_range : 0 <= be_value (Addr_bytes addr) < block_size addr n * 2 ^ n.
Proof.
  rewrite <- space_split. destruct Hok as [H1 H2]. rewrite <- H2.
  apply be_value_bound, H1.
Qed.

Lemma mapped_same_block (v : Z) :
  n < 96 -> netip.BitLen addr = 128 -> is_mapped v = true ->
  v / block_size addr n = mapped0 / block_size addr n.
Proof.
  intros Hlt Hbits Hm. unfold is_mapped in Hm. apply Z.eqb_eq in Hm.
  unfold block_size. rewrite Hbits, block_split by lia.
  assert (0 < 2 ^ (95 - n)) by (apply Z.pow_pos_nonneg; lia).
  rewrite <- !Z.div_div by lia. rewrite Hm. unfold mapped0.
  rewrite Z.div_mul by lia. reflexivity.
Qed.

End block_walk.

Section walks.
Local Abbreviation A addr := (be_value (Addr_bytes addr)).
Local Abbreviation N addr := (256 ^ Z.of_nat (Addr_len addr)).

(** A block that [covers_mapped] does not hold of, of prefix length at
    least 1: its addresses are in the network, the next one is not. *)
Lemma regular_walk (addr : netip.Addr) (n : Z) :
  Addr_ok addr -> 0 <= n <= netip.BitLen addr ->
  1 <= n -> covers_mapped addr n = false ->
  (forall j, 0 <= j < block_size addr n ->
     in_network addr n ((block_base addr n + j) mod N addr) = true)
  /\ in_network addr n ((block_base addr n + block_size addr n) mod N addr) = false.
Proof.
  intros Hok Hn Hn1 Hcov.
  pose proof (block_size_pos addr n Hn) as HB.
  pose proof (A_range addr n Hok Hn) as HA.
  rewrite (space_split addr n Hn). unfold block_base. split.
  - intros j Hj. destruct (in_block _ _ (2 ^ n) HB HA j Hj) as [Hmod Hq].
    rewrite Hmod. unfold in_network. rewrite Hq, Z.eqb_refl, andb_true_l.
    destruct addr as [a|a]; [reflexivity|].
    destruct (Z.leb_spec 96 n) as [|Hlt]; [reflexivity|]. rewrite orb_false_l.
    destruct (is_mapped _) eqn:Hm; [|reflexivity]. exfalso.
    apply (mapped_same_block (netip.Addr6 a) n Hn) in Hm; [|lia|reflexivity].
    cbn [covers_mapped] in Hcov. destruct (Z.ltb_spec n 96); [|lia].
    rewrite andb_true_l in Hcov. apply Z.eqb_neq in Hcov. cbn [Addr_bytes] in *. congruence.
  - unfold in_network.
    rewrite (proj2 (Z.eqb_neq _ _)); [reflexivity|].
    apply after_block; try assumption.
    change 1 with (2 ^ 0). apply Z.pow_lt_mono_r; lia.
Qed.

Lemma covers_mapped_true (addr : netip.Addr) (n : Z) :
  covers_mapped addr n = true ->
  n < 96
  /\ mapped0 / block_size addr n = A addr / block_size addr n
  /\ forall v, in_network addr n v =
       (v / block_size addr n =? A addr / block_size addr n)
       && ((96 <=? n) || negb (is_mapped v)).
Proof.
  destruct addr as [a|a]; [discriminate|]. cbn [covers_mapped].
  intros Hcov. apply andb_true_iff in Hcov as [Hlt Hq].
  apply Z.ltb_lt in Hlt. apply Z.eqb_eq in Hq. auto.
Qed.

(** An IPv6 block that holds the IPv4-mapped addresses: the addresses
    below [::ffff:0.0.0.0] are in the network, [::ffff:0.0.0.0] is not. *)
Lemma covering_walk (addr : netip.Addr) (n : Z) :
  Addr_ok addr -> 0 <= n <= netip.BitLen addr ->
  covers_mapped addr n = true ->
  0 <= mapped0 - block_base addr n < block_size addr n
  /\ (forall j, 0 <= j < mapped0 - block_base addr n ->
        in_network addr n ((block_base addr n + j) mod N addr) = true)
  /\ in_network addr n ((block_base addr n + (mapped0 - block_base addr n)) mod N addr) = false.
Proof.
  intros Hok Hn Hcov.
  pose proof (block_size_pos addr n Hn) as HB.
  pose proof (A_range addr n Hok Hn) as HA.
  pose proof (space_split addr n Hn) as Hsplit.
  destruct (covers_mapped_true addr n Hcov) as (Hlt & Hq & Hin).
  destruct (base_quot _ _ (2 ^ n) HB HA) as [Hbase HqT].
  unfold block_base.
  pose proof (Z.div_mod mapped0 (block_size addr n) ltac:(lia)) as Hdm.
  pose proof (Z.mod_pos_bound mapped0 (block_size addr n) HB) as Hmb.
  assert (Hrange : 0 <= mapped0 - (A addr - A addr mod block_size addr n)
                   < block_size addr n) by (rewrite Hbase; lia).
  split; [exact Hrange|]. rewrite Hsplit. split.
  - intros j Hj. destruct (in_block _ _ (2 ^ n) HB HA j ltac:(lia)) as [Hmod Hqj].
    rewrite Hmod, Hin, Hqj, Z.eqb_refl, andb_true_l.
    destruct (Z.leb_spec 96 n); [lia|]. rewrite orb_false_l.
    unfold is_mapped. apply negb_true_iff, Z.eqb_neq.
    assert ((A addr - A addr mod block_size addr n + j) / 2 ^ 32 < 65535); [|lia].
    apply Z.div_lt_upper_bound; [lia|]. unfold mapped0 in Hj. lia.
  - destruct (in_block _ _ (2 ^ n) HB HA _ Hrange) as [Hmod _]. rewrite Hmod, Hin.
    replace (A addr - A addr mod block_size addr n
             + (mapped0 - (A addr - A addr mod block_size addr n)))
      with mapped0 by lia.
    destruct (Z.leb_spec 96 n); [lia|].
    replace (is_mapped mapped0) with true by reflexivity.
    apply andb_false_r.
Qed.

(** The IPv4 block of prefix length 0: every 32-bit number is in the
    network. *)
Lemma whole_walk (addr : netip.Addr) (n : Z) (v : Z) :
  Addr_ok addr -> netip.BitLen addr = 32 -> n = 0 ->
  in_network addr n (v mod N addr) = true.
Proof.
  intros Hok Hbits Hn0.
  assert (Hn : 0 <= n <= netip.BitLen addr) by lia.
  pose proof (block_size_pos addr n Hn) as HB.
  pose proof (A_range addr n Hok Hn) as HA.
  rewrite (space_split addr n Hn). unfold in_network.
  rewrite (whole_space _ _ (2 ^ n) HB HA v) by (rewrite Hn0; reflexivity).
  rewrite Z.eqb_refl. destruct addr; [reflexivity|discriminate].
Qed.

End walks.

(** ** [CIDRtoListIP] on every CIDR that parses *)
Section CIDRtoListIP_facts.
Import utils.
Variable memory : nat -> bool.

Lemma CIDRtoListIP_parts (fuel : nat) (cidr : string) addr n :
  net.parseCIDRParts cidr = Some (addr, n) ->
  CIDRtoListIP memory fuel cidr
  = CIDRtoListIP_loop memory fuel (network addr n)
      (be_bytes (Addr_len addr) (block_base addr n)) [].
Proof.
  intros Hparts. destruct (parseCIDRParts_ok cidr addr n Hparts) as [Hok Hn].
  unfold CIDRtoListIP, net.ParseCIDR. rewrite Hparts. cbn [net.IPNet_Mask].
  fold (network addr n). rewrite (network_start addr n Hok Hn). reflexivity.
Qed.

Lemma CIDRtoListIP_unparsed (fuel : nat) (cidr : string) :
  net.parseCIDRParts cidr = None ->
  CIDRtoListIP memory fuel cidr = Some (Err ("Couldn't parse " +:+ cidr +:+ " CIDR")).
Proof. intros H. unfold CIDRtoListIP, net.ParseCIDR. rewrite H. reflexivity. Qed.

Lemma returns_functional (cidr : string) r1 r2 :
  returns memory cidr r1 -> returns memory cidr r2 -> r1 = r2.
Proof. intros [f1 H1] [f2 H2]. eapply CIDRtoListIP_functional; eassumption. Qed.

(** A walk of [count] addresses in the network from the first of the block
    on, followed by one outside: with memory for [count] strings the call
    returns them; with less it ends at the first [append] that fails. *)
Lemma CIDRtoListIP_walk (cidr : string) addr n (count : Z) :
  net.parseCIDRParts cidr = Some (addr, n) ->
  0 <= count ->
  (forall j, 0 <= j < count ->
     in_network addr n ((block_base addr n + j) mod 256 ^ Z.of_nat (Addr_len addr)) = true) ->
  in_network addr n ((block_base addr n + count) mod 256 ^ Z.of_nat (Addr_len addr)) = false ->
  (holds memory count ->
   CIDRtoListIP memory (S (Z.to_nat count)) cidr
   = Some (Ok (addresses addr (block_base addr n) count)))
  /\ (forall k, Z.of_nat k < count -> fails_at memory k ->
      CIDRtoListIP memory (S k) cidr = Some OutOfMemory).
Proof.
  intros Hparts Hcount Hin Hout. destruct (parseCIDRParts_ok cidr addr n Hparts) as [Hok Hn].
  split.
  - intros Hholds. rewrite (CIDRtoListIP_parts _ _ _ _ Hparts).
    rewrite (loop_returns memory (Addr_len addr) (network addr n) (in_network addr n)
               (fun v => network_Contains addr n v Hok Hn)).
    + rewrite Z2Nat.id by lia. reflexivity.
    + intros j Hj. apply Hin. lia.
    + rewrite Z2Nat.id by lia. exact Hout.
    + intros j Hj. cbn [length Nat.add]. apply Hholds. lia.
  - intros k Hk [Hfails Hbelow]. rewrite (CIDRtoListIP_parts _ _ _ _ Hparts).
    apply (loop_dies memory (Addr_len addr) (network addr n) (in_network addr n)
             (fun v => network_Contains addr n v Hok Hn)).
    + intros j Hj. apply Hin. lia.
    + intros j Hj. apply Hbelow. exact Hj.
    + exact Hfails.
Qed.

(** What such a walk ends in, whatever the memory. *)
Lemma CIDRtoListIP_walk_ends (cidr : string) addr n (count : Z) :
  net.parseCIDRParts cidr = Some (addr, n) ->
  0 <= count ->
  (forall j, 0 <= j < count ->
     in_network addr n ((block_base addr n + j) mod 256 ^ Z.of_nat (Addr_len addr)) = true) ->
  in_network addr n ((block_base addr n + count) mod 256 ^ Z.of_nat (Addr_len addr)) = false ->
  (holds memory count /\ returns memory cidr (Ok (addresses addr (block_base addr n) count)))
  \/ (~ holds memory count /\ returns memory cidr OutOfMemory).
Proof.
  intros Hparts Hcount Hin Hout.
  destruct (CIDRtoListIP_walk cidr addr n count Hparts Hcount Hin Hout) as [Hfits Hdies].
  destruct (holds_cases memory count) as [Hholds|(k & Hk & Hfails)].
  - left. split; [exact Hholds|]. eexists. apply Hfits, Hholds.
  - right. split.
    + intros Hholds. destruct Hfails as [Hfails _]. rewrite (Hholds k Hk) in Hfails. discriminate.
    + eexists. apply (Hdies k Hk Hfails).
Qed.

(** The regular case: the [2 ^ (bits - n)] addresses of the block. *)
Lemma CIDRtoListIP_regular (cidr : string) addr n :
  net.parseCIDRParts cidr = Some (addr, n) ->
  1 <= n -> covers_mapped addr n = false ->
  (holds memory (block_size addr n)
   /\ returns memory cidr (Ok (addresses addr (block_base addr n) (block_size addr n))))
  \/ (~ holds memory (block_size addr n) /\ returns memory cidr OutOfMemory).
Proof.
  intros Hparts Hn1 Hcov. destruct (parseCIDRParts_ok cidr addr n Hparts) as [Hok Hn].
  pose proof (block_size_pos addr n Hn) as HB.
  destruct (regular_walk addr n Hok Hn Hn1 Hcov) as [Hin Hout].
  apply CIDRtoListIP_walk_ends; [exact Hparts|lia|exact Hin|exact Hout].
Qed.

(** An IPv6 block wider than /96 around the IPv4-mapped range: the walk
    stops short of [::ffff:0.0.0.0]. *)
Lemma CIDRtoListIP_covering (cidr : string) addr n :
  net.parseCIDRParts cidr = Some (addr, n) ->
  covers_mapped addr n = true ->
  0 <= mapped0 - block_base addr n < block_size addr n
  /\ ((holds memory (mapped0 - block_base addr n)
       /\ returns memory cidr
            (Ok (addresses addr (block_base addr n) (mapped0 - block_base addr n))))
      \/ (~ holds memory (mapped0 - block_base addr n) /\ returns memory cidr OutOfMemory)).
Proof.
  intros Hparts Hcov. destruct (parseCIDRParts_ok cidr addr n Hparts) as [Hok Hn].
  destruct (covering_walk addr n Hok Hn Hcov) as (Hrange & Hin & Hout).
  split; [exact Hrange|].
  apply CIDRtoListIP_walk_ends; [exact Hparts|lia|exact Hin|exact Hout].
Qed.

(** The whole IPv4 space: the loop condition never fails, so the loop runs
    for as long as the appends go through. *)
Lemma CIDRtoListIP_whole_v4 (cidr : string) addr :
  net.parseCIDRParts cidr = Some (addr, 0) -> netip.BitLen addr = 32 ->
  never_returns memory cidr
  /\ (forall fuel, holds memory (Z.of_nat fuel) -> CIDRtoListIP memory fuel cidr = None)
  /\ returns memory cidr OutOfMemory.
Proof.
  intros Hparts Hbits. destruct (parseCIDRParts_ok cidr addr 0 Hparts) as [Hok Hn].
  assert (Hruns : forall fuel, holds memory (Z.of_nat fuel) ->
                    CIDRtoListIP memory fuel cidr = None).
  { intros fuel Hholds. rewrite (CIDRtoListIP_parts _ _ _ _ Hparts).
    apply (loop_runs_on memory (Addr_len addr) (network addr 0) (in_network addr 0)
             (fun v => network_Contains addr 0 v Hok Hn)).
    - intros j _. apply whole_walk; auto.
    - intros j Hj. cbn [length Nat.add]. apply Hholds. lia. }
  assert (Hdies : forall k, fails_at memory k -> CIDRtoListIP memory (S k) cidr = Some OutOfMemory).
  { intros k [Hfails Hbelow]. rewrite (CIDRtoListIP_parts _ _ _ _ Hparts).
    apply (loop_dies memory (Addr_len addr) (network addr 0) (in_network addr 0)
             (fun v => network_Contains addr 0 v Hok Hn)).
    - intros j _. apply whole_walk; auto.
    - exact Hbelow.
    - exact Hfails. }
  split; [|split; [exact Hruns|]].
  - intros fuel r Hr.
    destruct (holds_cases memory (Z.of_nat fuel)) as [Hholds|(k & Hk & Hfails)].
    + rewrite (Hruns fuel Hholds) in Hr. discriminate.
    + eapply CIDRtoListIP_functional; [exact Hr|apply (Hdies k Hfails)].
  - pose proof maxLen_pos.
    destruct (holds_cases memory (maxLen + 1)) as [Hholds|(k & Hk & Hfails)].
    + specialize (Hholds (Z.to_nat maxLen) ltac:(lia)).
      rewrite canAppend_maxLen in Hholds. discriminate.
    + eexists. apply (Hdies k Hfails).
Qed.

Lemma length_addresses addr first count :
  0 <= count -> Z.of_nat (length (addresses addr first count)) = count.
Proof.
  intros H. unfold addresses. rewrite length_map, length_seqZ. lia.
Qed.

End CIDRtoListIP_facts.

Lemma Ok_inj (l1 l2 : list string) : utils.Ok l1 = utils.Ok l2 -> l1 = l2.
Proof. intros H. injection H. auto. Qed.

Section replicate_values.

Lemma be_value_replicate_255 (k : nat) : be_value (replicate k 255) = 256 ^ Z.of_nat k - 1.
Proof.
  induction k as [|k IH]; [reflexivity|].
  rewrite replicate_S, be_value_cons, length_replicate, IH.
  rewrite Nat2Z.inj_succ, Z.pow_succ_r by lia. lia.
Qed.

Lemma be_value_replicate_0 (k : nat) : be_value (replicate k 0) = 0.
Proof.
  induction k as [|k IH]; [reflexivity|].
  rewrite replicate_S, be_value_cons, IH. lia.
Qed.

Lemma bytes_ok_replicate (k : nat) (b : Z) : is_byte b -> bytes_ok (replicate k b).
Proof. intros Hb. apply Forall_replicate, Hb. Qed.

End replicate_values.

(** C6: [incrementIP] maps an address of [n] bytes to its successor as a
    big-endian counter: the number the bytes spell grows by one modulo
    [256 ^ n]; a byte below 255 followed by bytes 255 is raised by one and the
    bytes after it wrap to 0 (the carry); the address of all 255 wraps to the
    address of all 0. *)
Theorem incrementIP_successor (ip : list Z) :
  bytes_ok ip ->
  length (utils.incrementIP ip) = length ip
  /\ bytes_ok (utils.incrementIP ip)
  /\ be_value (utils.incrementIP ip) = (be_value ip + 1) mod 256 ^ Z.of_nat (length ip)
  /\ (forall pre b k, ip = pre ++ b :: replicate k 255 -> b <> 255 ->
      utils.incrementIP ip = pre ++ (b + 1) :: replicate k 0)
  /\ (ip = replicate (length ip) 255 -> utils.incrementIP ip = replicate (length ip) 0).
Proof.
  intros Hok. rewrite (incrementIP_be_bytes ip Hok).
  split; [apply length_be_bytes|]. split; [apply be_bytes_ok|].
  split; [apply be_value_be_bytes|]. split.
  - intros pre b k -> Hb.
    apply Forall_app in Hok as [Hpre Hrest]. apply Forall_cons in Hrest as [Hbyte _].
    unfold is_byte in Hbyte.
    assert (Hok' : bytes_ok (pre ++ (b + 1) :: replicate k 0)).
    { apply Forall_app. split; [exact Hpre|]. constructor; [unfold is_byte; lia|].
      apply bytes_ok_replicate. unfold is_byte. lia. }
    rewrite <- (be_bytes_be_value _ Hok').
    replace (length (pre ++ (b + 1) :: replicate k 0)) with (length (pre ++ b :: replicate k 255))
      by (rewrite !length_app; simpl; rewrite !length_replicate; reflexivity).
    f_equal. rewrite !be_value_app, !be_value_cons, !length_replicate.
    rewrite be_value_replicate_255, be_value_replicate_0. simpl length.
    rewrite !length_replicate. lia.
  - intros Hall. rewrite Hall at 2. rewrite be_value_replicate_255.
    replace (256 ^ Z.of_nat (length ip) - 1 + 1) with (256 ^ Z.of_nat (length ip)) by lia.
    apply be_value_inj; [apply be_bytes_ok|apply bytes_ok_replicate; unfold is_byte; lia| |].
    + rewrite length_be_bytes, length_replicate. reflexivity.
    + rewrite be_value_be_bytes, be_value_replicate_0. apply Z.mod_same.
      apply Z.pow_nonzero; lia.
Qed.

Lemma bytes_ok_check (l : list Z) :
  forallb (fun b => (0 <=? b) && (b <? 256)) l = true -> bytes_ok l.
Proof.
  intros H. apply Forall_forall. intros b Hb. rewrite forallb_forall in H.
  specialize (H b (proj1 (list_elem_of_In _ _) Hb)). unfold is_byte. lia.
Qed.

Lemma incrementIP_successor_witness :
  utils.incrementIP [104; 16; 0; 255] = [104; 16; 1; 0]
  /\ utils.incrementIP [255; 255; 255; 255] = [0; 0; 0; 0].
Proof.
  split.
  - exact (proj1 (proj2 (proj2 (proj2 (incrementIP_successor [104; 16; 0; 255]
                                          (bytes_ok_check [104; 16; 0; 255] eq_refl)))))
             [104; 16] 0 1%nat eq_refl ltac:(discriminate)).
  - exact (proj2 (proj2 (proj2 (proj2 (incrementIP_successor [255; 255; 255; 255]
                                          (bytes_ok_check [255; 255; 255; 255] eq_refl)))))
             eq_refl).
Defined.

(** The two expansions the specification lists. *)
Example CIDRtoListIP_104_16_0_0_30 :
  utils.CIDRtoListIP plenty 5 "104.16.0.0/30"
  = Some (utils.Ok ["104.16.0.0"; "104.16.0.1"; "104.16.0.2"; "104.16.0.3"]%string).
Proof. vm_compute. reflexivity. Qed.

Example CIDRtoListIP_2606_4700_126 :
  utils.CIDRtoListIP plenty 5 "2606:4700::/126"
  = Some (utils.Ok ["2606:4700::"; "2606:4700::1"; "2606:4700::2"; "2606:4700::3"]%string).
Proof. vm_compute. reflexivity. Qed.

Example CIDRtoListIP_not_a_CIDR :
  utils.CIDRtoListIP plenty 5 "104.16.0.0"
  = Some (utils.Err "Couldn't parse 104.16.0.0 CIDR").
Proof. vm_compute. reflexivity. Qed.

(** C1 does not hold of the code at the CIDR "0.0.0.0/0": the string parses,
    the wrap-around of [incrementIP] leads from 255.255.255.255 back to
    0.0.0.0, which the network contains, and the call never returns: its
    loop is still running for as long as the appends go through, and the
    program ends when one does not. *)
Theorem CIDRtoListIP_whole_IPv4_space_never_returns :
  net.parseCIDRParts "0.0.0.0/0" = Some (netip.Addr4 [0; 0; 0; 0], 0)
  /\ forall memory,
       never_returns memory "0.0.0.0/0"
       /\ (forall fuel, holds memory (Z.of_nat fuel) ->
           utils.CIDRtoListIP memory fuel "0.0.0.0/0" = None)
       /\ returns memory "0.0.0.0/0" utils.OutOfMemory.
Proof.
  assert (Hparts : net.parseCIDRParts "0.0.0.0/0" = Some (netip.Addr4 [0; 0; 0; 0], 0))
    by (vm_compute; reflexivity).
  split; [exact Hparts|]. intros memory.
  exact (CIDRtoListIP_whole_v4 memory "0.0.0.0/0" _ Hparts eq_refl).
Qed.

(** Every CIDR that parses, other than an IPv4 one of prefix length 0 and
    an IPv6 one wider than /96 whose block holds [::ffff:0.0.0.0], is
    expanded into the addresses of its block, from the first to the last, in
    ascending order, when there is memory for that many strings; when there
    is not, the program ends at the first [append] that fails.  The call
    returns nothing but that list, and none at all for a block of more than
    [2 ^ 44] addresses. *)
Theorem CIDRtoListIP_lists_block (memory : nat -> bool) (cidr : string) addr n :
  net.parseCIDRParts cidr = Some (addr, n) ->
  1 <= n -> covers_mapped addr n = false ->
  let block := addresses addr (block_base addr n) (block_size addr n) in
  (holds memory (block_size addr n) -> returns memory cidr (utils.Ok block))
  /\ (~ holds memory (block_size addr n) -> returns memory cidr utils.OutOfMemory)
  /\ (forall IPs, returns memory cidr (utils.Ok IPs) ->
      IPs = block /\ block_size addr n <= utils.maxLen)
  /\ block_base addr n mod block_size addr n = 0
  /\ block_base addr n <= be_value (Addr_bytes addr) < block_base addr n + block_size addr n
  /\ block_base addr n + block_size addr n <= 2 ^ netip.BitLen addr.
Proof.
  intros Hparts Hn1 Hcov. cbv zeta.
  pose proof (CIDRtoListIP_regular memory cidr addr n Hparts Hn1 Hcov) as Hends.
  split; [|split; [|split]].
  - intros Hholds. destruct Hends as [[_ Hret]|[Hnot _]]; [exact Hret|contradiction].
  - intros Hnot. destruct Hends as [[Hholds _]|[_ Hdies]]; [contradiction|exact Hdies].
  - intros IPs Hret. destruct Hends as [[Hholds Hblock]|[_ Hdies]].
    + split; [|apply (holds_maxLen memory), Hholds].
      apply Ok_inj. eapply returns_functional; eassumption.
    + pose proof (returns_functional memory cidr _ _ Hret Hdies) as Heq. discriminate Heq.
  - destruct (parseCIDRParts_ok cidr addr n Hparts) as [Hok Hn].
    pose proof (block_size_pos addr n Hn) as HB.
    pose proof (A_range addr n Hok Hn) as HA.
    destruct (base_quot _ _ _ HB HA) as [Hbase Hq].
    pose proof (Z.mod_pos_bound (be_value (Addr_bytes addr)) (block_size addr n) HB) as Hmod.
    unfold block_base. split; [|split].
    + rewrite Hbase, Z.mul_comm. apply Z.mod_mul. lia.
    + lia.
    + replace (2 ^ netip.BitLen addr) with (block_size addr n * 2 ^ n).
      2:{ unfold block_size. rewrite <- Z.pow_add_r by lia. f_equal. lia. }
      rewrite Hbase. nia.
Qed.

Lemma CIDRtoListIP_lists_block_witness :
  returns plenty "104.16.0.0/30"
    (utils.Ok ["104.16.0.0"; "104.16.0.1"; "104.16.0.2"; "104.16.0.3"]%string).
Proof.
  refine (proj1 (CIDRtoListIP_lists_block plenty "104.16.0.0/30" (netip.Addr4 [104; 16; 0; 0]) 30
                   eq_refl ltac:(lia) eq_refl) _).
  apply holds_plenty. vm_compute. discriminate.
Defined.




(** The IPv4-mapped addresses start [2 ^ 32] addresses or more into a block
    wider than /96 that holds them. *)
Lemma mapped_far_in (addr : netip.Addr) (n : Z) :
  Addr_ok addr -> 0 <= n <= netip.BitLen addr -> covers_mapped addr n = true ->
  2 ^ 32 <= mapped0 - block_base addr n.
Proof.
  intros Hok Hn Hcov.
  destruct (covers_mapped_true addr n Hcov) as (Hlt & Hq & _).
  assert (Hbits : netip.BitLen addr = 128) by (destruct addr; [discriminate Hcov|reflexivity]).
  pose proof (block_size_pos addr n Hn) as HB.
  assert (Hbase : block_base addr n = mapped0 - mapped0 mod block_size addr n).
  { unfold block_base. rewrite !Z.mod_eq by lia. rewrite Hq. lia. }
  rewrite Hbase.
  replace (mapped0 - (mapped0 - mapped0 mod block_size addr n))
    with (mapped0 mod block_size addr n) by lia.
  unfold block_size. rewrite Hbits.
  replace (128 - n) with (32 + (96 - n)) by lia.
  rewrite Z.pow_add_r by lia. unfold mapped0.
  rewrite (Z.mul_comm 65535), Z.mul_mod_distr_l
    by (try apply Z.pow_nonzero; try (apply Z.neq_sym, Z.lt_neq, Z.pow_pos_nonneg); lia).
  assert (Hodd : 1 <= 65535 mod 2 ^ (96 - n)).
  { assert (Hpos : 0 < 2 ^ (96 - n)) by (apply Z.pow_pos_nonneg; lia).
    pose proof (Z.mod_pos_bound 65535 (2 ^ (96 - n)) Hpos) as Hbound.
    destruct (Z.eq_dec (65535 mod 2 ^ (96 - n)) 0) as [Hzero|]; [|lia].
    exfalso. apply Z.mod_divide in Hzero; [|lia]. destruct Hzero as [q Hq'].
    replace (96 - n) with (1 + (95 - n)) in Hq' by lia.
    rewrite Z.pow_add_r in Hq' by lia. change (2 ^ 1) with 2 in Hq'. lia. }
  assert (0 < 2 ^ 32) by (apply Z.pow_pos_nonneg; lia). nia.
Qed.

(** An IPv6 CIDR wider than /96 whose block holds [::ffff:0.0.0.0] is never
    expanded into its whole block: the walk stops at [::ffff:0.0.0.0], for
    which [IPNet.Contains] answers false, [2 ^ 32] addresses or more into the
    block.  With memory for the strings before it the call returns them,
    fewer than the block has; with less the program ends at the first
    [append] that fails.  This is so of prefix length 0 as well. *)
Theorem CIDRtoListIP_stops_at_mapped_addresses (memory : nat -> bool) (cidr : string) addr n :
  net.parseCIDRParts cidr = Some (addr, n) ->
  covers_mapped addr n = true ->
  let count := mapped0 - block_base addr n in
  2 ^ 32 <= count < block_size addr n
  /\ (holds memory count ->
      returns memory cidr (utils.Ok (addresses addr (block_base addr n) count)))
  /\ (~ holds memory count -> returns memory cidr utils.OutOfMemory)
  /\ (forall IPs, returns memory cidr (utils.Ok IPs) ->
      IPs = addresses addr (block_base addr n) count
      /\ Z.of_nat (length IPs) < block_size addr n
      /\ count <= utils.maxLen).
Proof.
  intros Hparts Hcov. cbv zeta.
  destruct (parseCIDRParts_ok cidr addr n Hparts) as [Hok Hn].
  destruct (CIDRtoListIP_covering memory cidr addr n Hparts Hcov) as [Hrange Hends].
  pose proof (mapped_far_in addr n Hok Hn Hcov) as Hfar.
  split; [lia|]. split; [|split].
  - intros Hholds. destruct Hends as [[_ Hret]|[Hnot _]]; [exact Hret|contradiction].
  - intros Hnot. destruct Hends as [[Hholds _]|[_ Hdies]]; [contradiction|exact Hdies].
  - intros IPs Hret. destruct Hends as [[Hholds Hlist]|[_ Hdies]].
    + assert (Heq : IPs = addresses addr (block_base addr n) (mapped0 - block_base addr n))
        by (apply Ok_inj; eapply returns_functional; eassumption).
      split; [exact Heq|]. split; [|apply (holds_maxLen memory), Hholds].
      rewrite Heq, length_addresses by lia. lia.
    + pose proof (returns_functional memory cidr _ _ Hret Hdies) as Heq. discriminate Heq.
Qed.

Lemma CIDRtoListIP_stops_at_mapped_addresses_witness :
  returns plenty "::/0" utils.OutOfMemory
  /\ returns (fun n => (n <? 3)%nat) "::fffe:0:0/95" utils.OutOfMemory.
Proof.
  split.
  - refine (proj1 (proj2 (proj2 (CIDRtoListIP_stops_at_mapped_addresses plenty "::/0"
              (netip.Addr6 [0; 0; 0; 0; 0; 0; 0; 0; 0; 0; 0; 0; 0; 0; 0; 0]) 0 eq_refl eq_refl))) _).
    intros Hholds. apply holds_maxLen in Hholds. revert Hholds. vm_compute.
    intros H. apply H. reflexivity.
  - refine (proj1 (proj2 (proj2 (CIDRtoListIP_stops_at_mapped_addresses
              (fun n => (n <? 3)%nat) "::fffe:0:0/95"
              (netip.Addr6 [0; 0; 0; 0; 0; 0; 0; 0; 0; 0; 255; 254; 0; 0; 0; 0]) 95
              eq_refl eq_refl))) _).
    intros Hholds. specialize (Hholds 3%nat ltac:(vm_compute; reflexivity)).
    vm_compute in Hholds. discriminate Hholds.
Defined.

(** C7: a POST to /api/v1/proxy/stop is answered 200 when [StopProxy] returns
    no error and 404 with the error's message when it returns one; a POST to
    /api/v1/proxy/rotate is answered 200 when [RotateProxy] returns no error
    and 409 with the error's message when it returns one.  The manager is left
    in the state the operation produced. *)
Theorem proxy_stop_rotate_status
    (manager : Type) (StopProxy RotateProxy : manager -> manager * option error)
    (methodNotAllowed : Response) (m : manager) (r : web.Request) :
  web.Method r = "POST"%string ->
  web.handleProxyStop manager StopProxy methodNotAllowed m r
    = (fst (StopProxy m), stopped_reply (snd (StopProxy m)))
  /\ web.handleProxyRotate manager RotateProxy methodNotAllowed m r
    = (fst (RotateProxy m), rotated_reply (snd (RotateProxy m))).
Proof.
  intros Hpost. unfold web.handleProxyStop, web.handleProxyRotate.
  rewrite Hpost. simpl negb. cbv iota. split.
  - destruct (StopProxy m) as [m' [e|]]; reflexivity.
  - destruct (RotateProxy m) as [m' [e|]]; reflexivity.
Qed.

Lemma proxy_stop_rotate_status_witness :
  web.handleProxyStop bool toyStop (web.writeJSONError "Method not allowed" 405) false
    {| web.Method := "POST" |}
    = (false, {| StatusCode := 404;
                 Body := JObject [("error"%string, JString "proxy service is not running")] |})
  /\ web.handleProxyRotate bool toyRotate (web.writeJSONError "Method not allowed" 405) true
    {| web.Method := "POST" |}
    = (true, {| StatusCode := 200;
                Body := JObject [("status"%string, JString "Rotate signal sent")] |}).
Proof.
  split.
  - exact (proj1 (proxy_stop_rotate_status bool toyStop toyRotate _ false
                    {| web.Method := "POST" |} eq_refl)).
  - exact (proj2 (proxy_stop_rotate_status bool toyStop toyRotate _ true
                    {| web.Method := "POST" |} eq_refl)).
Defined.

(** C2, as stated, fails: the fallback list does not hold 17 IPv4 blocks. *)
Lemma fallback_not_17_IPv4 :
  length (filter (fun s => isIPv4CIDR s = true) web.cloudflareRanges) <> 17%nat.
Proof. vm_compute. discriminate. Qed.

(** C2 (amended): the hardcoded fallback list holds exactly 15 IPv4 CIDR
    blocks and 5 IPv6 CIDR blocks, 20 entries in all, the IPv4 ones first. *)
Theorem fallback_list_counts :
  length (filter (fun s => isIPv4CIDR s = true) web.cloudflareRanges) = 15%nat
  /\ length (filter (fun s => isIPv6CIDR s = true) web.cloudflareRanges) = 5%nat
  /\ length web.cloudflareRanges = 20%nat
  /\ forallb isIPv4CIDR (take 15 web.cloudflareRanges) = true
  /\ forallb isIPv6CIDR (drop 15 web.cloudflareRanges) = true.
Proof. vm_compute. repeat split; reflexivity. Qed.

(** ** The ranges handler *)
Section ranges.
Variable Get : string -> web.fetched.
Variable TrimSpace : string -> string.
Variable methodNotAllowed : Response.

Lemma fetchAll_error_iff (order : list string) (s : web.shared) :
  web.firstError (fold_left (fun s url => web.fetchOne Get TrimSpace url s) order s) = None
  <-> web.firstError s = None /\ existsb (fetch_failed Get) order = false.
Proof.
  revert s. induction order as [|url order IH]; intros s; simpl.
  - tauto.
  - rewrite IH. unfold web.fetchOne, fetch_failed.
    destruct s as [ranges [e|]];
      destruct (Get url);
      cbn [orb web.appendRanges web.setFirstError web.firstError web.allRanges];
      split; intros [? ?]; try discriminate; split; assumption.
Qed.

Lemma fetchAll_live (order : list string) (s : web.shared) :
  existsb (fetch_failed Get) order = false ->
  fold_left (fun s url => web.fetchOne Get TrimSpace url s) order s
  = fold_left (fun s url =>
      match Get url with
      | web.Fetched body => web.appendRanges s (web.splitLines (TrimSpace body))
      | _ => s
      end) order s.
Proof.
  revert s. induction order as [|url order IH]; intros s H; simpl in *; [reflexivity|].
  apply orb_false_iff in H as [H1 H2]. rewrite IH by exact H2.
  unfold web.fetchOne, fetch_failed in *. destruct (Get url); try discriminate. reflexivity.
Qed.

Lemma existsb_Permutation {X} (f : X -> bool) (l1 l2 : list X) :
  Permutation l1 l2 -> existsb f l1 = existsb f l2.
Proof.
  induction 1; simpl; try congruence.
  - destruct (f x), (f y); reflexivity.
Qed.

(** C3 (amended): a GET to /api/v1/scanner/cf/ranges is answered 200 with
    the hardcoded fallback list as soon as the fetch of one of the range
    URLs fails, and with the live ranges (the lines of every body, in the
    order the fetches finished) only when every fetch succeeds. *)
Theorem ranges_fallback_on_any_failure (order : list string) (r : web.Request) :
  web.Method r = "GET"%string ->
  Permutation order web.cloudflareRangesLink ->
  fst (web.handleCfScannerRanges methodNotAllowed Get TrimSpace order r)
  = {| StatusCode := 200;
       Body := JObject [("ranges"%string,
                 if existsb (fetch_failed Get) web.cloudflareRangesLink
                 then JArray (map JString web.cloudflareRanges)
                 else match live_ranges Get TrimSpace order with
                      | None => JNull
                      | Some l => JArray (map JString l)
                      end)] |}.
Proof.
  intros Hget Hperm. unfold web.handleCfScannerRanges. rewrite Hget. simpl negb. cbv iota.
  rewrite <- (existsb_Permutation (fetch_failed Get) _ _ Hperm).
  unfold web.fetchAll.
  pose proof (fetchAll_error_iff order {| web.allRanges := None; web.firstError := None |}) as Hiff.
  destruct (existsb (fetch_failed Get) order) eqn:Hany.
  - destruct (web.firstError _) as [err|] eqn:Herr; [reflexivity|].
    destruct Hiff as [Hiff _]. destruct (Hiff eq_refl). discriminate.
  - rewrite (proj2 Hiff) by (split; reflexivity).
    rewrite fetchAll_live by exact Hany. reflexivity.
Qed.

End ranges.

(** C3, as stated, fails: with one URL fetched and the other failing, the
    reply is the fallback list, and the range that was fetched is not in it. *)
Lemma ranges_fallback_though_one_fetched :
  halfGet "https://www.cloudflare.com/ips-v4" = web.Fetched "1.1.1.0/24"
  /\ fst (web.handleCfScannerRanges (web.writeJSONError "Method not allowed" 405) halfGet
            (fun s => s) web.cloudflareRangesLink {| web.Method := "GET" |})
     = {| StatusCode := 200;
          Body := JObject [("ranges"%string, JArray (map JString web.cloudflareRanges))] |}
  /\ ~ In "1.1.1.0/24"%string web.cloudflareRanges.
Proof.
  split; [reflexivity|]. split; [vm_compute; reflexivity|].
  vm_compute. intuition discriminate.
Qed.

Lemma ranges_fallback_on_any_failure_witness :
  fst (web.handleCfScannerRanges (web.writeJSONError "Method not allowed" 405) halfGet
         (fun s => s) (rev web.cloudflareRangesLink) {| web.Method := "GET" |})
  = {| StatusCode := 200;
       Body := JObject [("ranges"%string, JArray (map JString web.cloudflareRanges))] |}.
Proof.
  exact (ranges_fallback_on_any_failure halfGet (fun s => s) _
           (rev web.cloudflareRangesLink) {| web.Method := "GET" |} eq_refl
           (Permutation_sym (Permutation_rev _))).
Defined.

(** ** Batching of [http_result] messages *)
Section batching_facts.
Import websocket.
Variable HttpResult : Type.

Local Abbreviation World := (World HttpResult).
Local Abbreviation buffer w := (httpResultBuffer HttpResult (service HttpResult w)).
Local Abbreviation timer w := (httpResultTimer HttpResult (service HttpResult w)).

Lemma flush_spec (w : World) :
  let w' := flushHttpResultBuffer _ w in
  buffer w' = [] /\ concat (delivered _ w') = concat (delivered _ w) ++ buffer w
  /\ timer w' = timer w /\ intervals _ w' = intervals _ w.
Proof.
  unfold flushHttpResultBuffer. destruct (buffer w) as [|x l] eqn:Hb; simpl.
  - rewrite Hb, app_nil_r. auto.
  - rewrite concat_app. simpl. rewrite app_nil_r. auto.
Qed.

Lemma stop_spec (w : World) got :
  batching_inv w got ->
  let w' := stopHttpResultBatching _ w in
  buffer w' = [] /\ concat (delivered _ w') = got
  /\ timer w' = None /\ intervals _ w' = [].
Proof.
  intros [Hall Htimer Harmed]. unfold stopHttpResultBatching.
  destruct (timer w) as [id|] eqn:Ht.
  - match goal with |- context [flushHttpResultBuffer _ ?x] =>
      destruct (flush_spec x) as (H1 & H2 & H3 & H4) end.
    cbv zeta. rewrite H1, H2, H3, H4. simpl. rewrite Hall, Htimer. simpl.
    repeat split; try reflexivity.
    rewrite filter_cons_False by (simpl; intros H; apply H; reflexivity). reflexivity.
  - destruct (flush_spec w) as (H1 & H2 & H3 & H4).
    cbv zeta. rewrite H1, H2, H3, H4, Hall, Ht, Htimer. auto.
Qed.

Lemma step_inv (w : World) got (e : event HttpResult) :
  batching_inv w got -> batching_inv (step _ w e) (got ++ received _ [e]).
Proof.
  intros Hinv. destruct e as [[d|status|]|id| |]; simpl received; rewrite ?app_nil_r.
  - (* http_result *)
    destruct Hinv as [Hall Htimer Harmed]. simpl.
    unfold startHttpResultBatching. destruct (timer w) as [id|] eqn:Ht; simpl.
    + rewrite Ht. split; simpl; [rewrite app_assoc, Hall; reflexivity|exact Htimer|discriminate].
    + split; simpl; [rewrite app_assoc, Hall; reflexivity|rewrite Htimer; reflexivity|discriminate].
  - (* http_test_status *)
    destruct (stop_spec w got Hinv) as (H1 & H2 & H3 & H4). simpl.
    destruct (_ || _); split; simpl; rewrite ?H1, ?H2, ?H3, ?H4, ?app_nil_r; congruence.
  - exact Hinv.
  - (* an interval fires *)
    simpl. destruct (existsb _ _); [|exact Hinv].
    destruct Hinv as [Hall Htimer Harmed].
    destruct (flush_spec w) as (H1 & H2 & H3 & H4). cbv zeta in *.
    split; rewrite ?H1, ?H2, ?H3, ?H4, ?app_nil_r; congruence.
  - destruct (stop_spec w got Hinv) as (H1 & H2 & H3 & H4). simpl.
    split; rewrite ?H1, ?H2, ?H3, ?H4, ?app_nil_r; congruence.
  - destruct (stop_spec w got Hinv) as (H1 & H2 & H3 & H4). simpl.
    split; rewrite ?H1, ?H2, ?H3, ?H4, ?app_nil_r; congruence.
Qed.

Lemma run_inv (trace : list (event HttpResult)) :
  batching_inv (run _ trace) (received _ trace).
Proof.
  induction trace as [|e trace IH] using rev_ind.
  - split; [reflexivity|reflexivity|intros H; contradiction].
  - unfold run. rewrite fold_left_app. simpl fold_left. fold (run _ trace).
    unfold received. rewrite flat_map_app. fold (received _ trace). fold (received _ [e]).
    apply step_inv, IH.
Qed.

(** C8: every [http_result] message is appended to the buffer; while
    the buffer is not empty an interval of 250 ms is registered whose
    callback flushes it to the store; an [http_test_status] message clears
    the interval and flushes what is left.  At any time the batches handed
    to the store followed by the buffer are exactly the results received,
    in order: none is dropped, and none stays in the buffer past the next
    firing of the interval or the next status message. *)
Theorem http_results_batched_and_delivered (trace : list (event HttpResult)) :
  let w := run _ trace in
  concat (delivered _ w) ++ buffer w = received _ trace
  /\ (buffer w <> [] ->
      exists id, timer w = Some id /\ intervals _ w = [(id, 250)])
  /\ (forall id, In (id, 250) (intervals _ w) ->
      let w' := step _ w (IntervalFires _ id) in
      buffer w' = [] /\ concat (delivered _ w') = received _ trace)
  /\ (forall status,
      let w' := step _ w (Message _ (http_test_status _ status)) in
      buffer w' = [] /\ concat (delivered _ w') = received _ trace
      /\ timer w' = None /\ intervals _ w' = [])
  /\ (forall d,
      let w' := step _ w (Message _ (http_result _ d)) in
      buffer w' = buffer w ++ [d] /\ delivered _ w' = delivered _ w).
Proof.
  intros w. pose proof (run_inv trace) as Hinv. fold w in Hinv.
  destruct Hinv as [Hall Htimer Harmed]. split; [exact Hall|]. split; [|split; [|split]].
  - intros Hne. specialize (Harmed Hne). destruct (timer w) as [id|]; [|contradiction].
    exists id. split; [reflexivity|exact Htimer].
  - intros id Hin. cbv zeta. simpl step.
    assert (Hact : existsb (fun t => Nat.eqb (fst t) id) (intervals _ w) = true).
    { apply existsb_exists. exists (id, 250). split; [exact Hin|apply Nat.eqb_refl]. }
    rewrite Hact. destruct (flush_spec w) as (H1 & H2 & _ & _). cbv zeta in *.
    rewrite H1, H2, Hall. auto.
  - intros status. cbv zeta.
    destruct (stop_spec w (received _ trace)) as (H1 & H2 & H3 & H4); [split; assumption|].
    simpl step. destruct (_ || _); simpl; rewrite ?H1, ?H2, ?H3, ?H4; auto.
  - intros d. cbv zeta. simpl step. unfold startHttpResultBatching.
    destruct (timer w); simpl; auto.
Qed.

End batching_facts.

(** ** The CSV reader on what the writer wrote *)
Section readLines_facts.
Import csv.

Lemma readLines_cons2 (c c' : Z) (rest : list Z) :
  readLines (c :: c' :: rest) =
  if (c =? ch_CR) && (c' =? ch_LF) then readLines (c' :: rest) else c :: readLines (c' :: rest).
Proof.
  change (readLines (c :: c' :: rest)) with
    (if c =? ch_CR then (if c' =? ch_LF then readLines (c' :: rest) else c :: readLines (c' :: rest))
     else c :: readLines (c' :: rest)).
  destruct (c =? ch_CR), (c' =? ch_LF); reflexivity.
Qed.

Lemma readLines_not_CR (c : Z) (rest : list Z) :
  c <> ch_CR -> readLines (c :: rest) = c :: readLines rest.
Proof.
  intros Hc. simpl. destruct (Z.eqb_spec c ch_CR); [contradiction|reflexivity].
Qed.

Lemma unCRLF_cons2 (c c' : Z) (rest : list Z) :
  unCRLF (c :: c' :: rest) =
  if (c =? ch_CR) && (c' =? ch_LF) then unCRLF (c' :: rest) else c :: unCRLF (c' :: rest).
Proof. reflexivity. Qed.

(** Before a byte that is not a line feed, [readLines] works on the text
    before it as [unCRLF] does. *)
Lemma readLines_app (l : list Z) (c : Z) (tail : list Z) :
  c <> ch_LF -> readLines (l ++ c :: tail) = unCRLF l ++ readLines (c :: tail).
Proof.
  intros Hc. induction l as [|x l IH]; [reflexivity|].
  destruct l as [|y l].
  - change (([x] ++ c :: tail)) with (x :: c :: tail). rewrite readLines_cons2.
    destruct (Z.eqb_spec c ch_LF); [contradiction|]. rewrite andb_false_r. reflexivity.
  - change ((x :: y :: l) ++ c :: tail) with (x :: y :: (l ++ c :: tail)).
    rewrite readLines_cons2, unCRLF_cons2.
    change (y :: (l ++ c :: tail)) with ((y :: l) ++ c :: tail). rewrite IH.
    destruct ((x =? ch_CR) && (y =? ch_LF)); reflexivity.
Qed.

Lemma unCRLF_no_CR (l : list Z) : ~ In ch_CR l -> unCRLF l = l.
Proof.
  induction l as [|x l IH]; intros Hno; [reflexivity|].
  destruct l as [|y l]; [reflexivity|]. rewrite unCRLF_cons2.
  destruct (Z.eqb_spec x ch_CR) as [->|Hx]; [exfalso; apply Hno; left; reflexivity|].
  simpl andb. cbv iota. rewrite IH; [reflexivity|]. intros Hin. apply Hno. right. exact Hin.
Qed.

(** Doubling the quotes of a field and joining its ["\r\n"] commute. *)
Lemma unCRLF_writeQuoted (f : list Z) : unCRLF (writeQuoted f) = writeQuoted (unCRLF f).
Proof.
  induction f as [|c f IH]; [reflexivity|].
  destruct f as [|y f].
  - simpl. destruct (c =? ch_quote); reflexivity.
  - rewrite unCRLF_cons2.
    change (writeQuoted (c :: y :: f)) with
      (if c =? ch_quote then ch_quote :: ch_quote :: writeQuoted (y :: f)
       else c :: writeQuoted (y :: f)).
    destruct (Z.eqb_spec c ch_quote) as [->|Hq].
    + change (ch_quote =? ch_CR) with false. rewrite andb_false_l.
      change (writeQuoted (ch_quote :: unCRLF (y :: f))) with
        (ch_quote :: ch_quote :: writeQuoted (unCRLF (y :: f))).
      rewrite <- IH. rewrite unCRLF_cons2.
      change (ch_quote =? ch_CR) with false. rewrite andb_false_l. f_equal.
      destruct (writeQuoted (y :: f)) as [|z l] eqn:Hw; [reflexivity|].
      rewrite unCRLF_cons2. change (ch_quote =? ch_CR) with false. rewrite andb_false_l.
      reflexivity.
    + change (writeQuoted (y :: f)) with
        (if y =? ch_quote then ch_quote :: ch_quote :: writeQuoted f else y :: writeQuoted f) in *.
      destruct (Z.eqb_spec y ch_quote) as [->|Hy].
      * rewrite unCRLF_cons2. change (ch_quote =? ch_LF) with false. rewrite !andb_false_r.
        rewrite IH.
        change (writeQuoted (c :: unCRLF (ch_quote :: f))) with
          (if c =? ch_quote then ch_quote :: ch_quote :: writeQuoted (unCRLF (ch_quote :: f))
           else c :: writeQuoted (unCRLF (ch_quote :: f))).
        destruct (Z.eqb_spec c ch_quote); [contradiction|]. reflexivity.
      * rewrite unCRLF_cons2. rewrite IH.
        destruct ((c =? ch_CR) && (y =? ch_LF)); [reflexivity|].
        change (writeQuoted (c :: unCRLF (y :: f))) with
          (if c =? ch_quote then ch_quote :: ch_quote :: writeQuoted (unCRLF (y :: f))
           else c :: writeQuoted (unCRLF (y :: f))).
        destruct (Z.eqb_spec c ch_quote); [contradiction|]. reflexivity.
Qed.

End readLines_facts.

Section writer_facts.
Import csv.

Lemma fieldNeedsQuotes_false (f : list Z) :
  fieldNeedsQuotes f = false -> Forall plain f.
Proof.
  intros H. destruct f as [|c f]; [constructor|].
  unfold fieldNeedsQuotes in H.
  destruct (bool_decide (c :: f = [92; 46])); [discriminate|].
  destruct (existsb _ (c :: f)) eqn:Hex; [discriminate|].
  apply Forall_forall. intros x Hx. apply list_elem_of_In in Hx.
  assert (Hnot : ((x =? ch_LF) || (x =? ch_CR) || (x =? ch_quote) || (x =? Comma)) = false).
  { destruct (_ || _) eqn:Hb; [|reflexivity].
    assert (existsb (fun c => (c =? ch_LF) || (c =? ch_CR) || (c =? ch_quote) || (c =? Comma)) (c :: f) = true)
      by (apply existsb_exists; exists x; auto).
    congruence. }
  unfold plain. repeat (apply orb_false_iff in Hnot as [Hnot ?]).
  repeat split; apply Z.eqb_neq; assumption.
Qed.

Lemma readLines_plain (l tail : list Z) :
  Forall plain l -> readLines (l ++ tail) = l ++ readLines tail.
Proof.
  induction 1 as [|x l Hx Hl IH]; [reflexivity|].
  simpl app. destruct Hx as (_ & Hcr & _).
  rewrite readLines_not_CR by exact Hcr. rewrite IH. reflexivity.
Qed.

Lemma readLines_writeField (f : list Z) (sep : Z) (tail : list Z) :
  sep <> ch_CR ->
  readLines (writeField f ++ sep :: tail) = normField f ++ sep :: readLines tail.
Proof.
  intros Hsep.
  pose proof (readLines_not_CR sep tail Hsep) as Hs.
  unfold writeField, normField. destruct (fieldNeedsQuotes f) eqn:Hq.
  - replace ((ch_quote :: writeQuoted f ++ [ch_quote]) ++ sep :: tail)
      with ((ch_quote :: writeQuoted f) ++ ch_quote :: sep :: tail)
      by (simpl; rewrite <- app_assoc; reflexivity).
    rewrite readLines_app by discriminate.
    assert (Hun : unCRLF (ch_quote :: writeQuoted f) = ch_quote :: unCRLF (writeQuoted f)).
    { destruct (writeQuoted f) as [|y l]; [reflexivity|]. rewrite unCRLF_cons2. reflexivity. }
    rewrite Hun, unCRLF_writeQuoted.
    rewrite (readLines_not_CR ch_quote) by discriminate.
    rewrite Hs. simpl. rewrite <- app_assoc. reflexivity.
  - rewrite readLines_plain by (apply fieldNeedsQuotes_false; exact Hq).
    rewrite Hs. reflexivity.
Qed.

Lemma readLines_writeFields (first : bool) (record : list (list Z)) (tail : list Z) :
  readLines (writeFields first record ++ ch_LF :: tail)
  = normFields first record ++ ch_LF :: readLines tail.
Proof.
  revert first. induction record as [|f record IH]; intros first.
  - reflexivity.
  - simpl writeFields. simpl normFields.
    assert (Hrest : readLines (writeField f ++ writeFields false record ++ ch_LF :: tail)
                    = normField f ++ normFields false record ++ ch_LF :: readLines tail).
    { destruct record as [|f' record].
      - simpl app at 2. simpl normFields. simpl app at 3.
        apply readLines_writeField. discriminate.
      - specialize (IH false). simpl writeFields in *. simpl normFields in *.
        rewrite <- !app_comm_cons in *.
        rewrite readLines_writeField by discriminate.
        rewrite readLines_not_CR in IH by discriminate. injection IH as IH.
        rewrite IH. reflexivity. }
    destruct first; simpl app; rewrite <- ?app_assoc.
    + exact Hrest.
    + rewrite readLines_not_CR by discriminate. rewrite Hrest. reflexivity.
Qed.

Lemma readLines_Write (record : list (list Z)) (tail : list Z) :
  readLines (Write record ++ tail) = normWrite record ++ readLines tail.
Proof.
  unfold Write, normWrite. rewrite <- !app_assoc. simpl app.
  apply readLines_writeFields.
Qed.

Lemma readLines_rows (rows : list (list (list Z))) :
  readLines (concat (map Write rows)) = concat (map normWrite rows).
Proof.
  induction rows as [|row rows IH]; [reflexivity|].
  simpl. rewrite readLines_Write, IH. reflexivity.
Qed.

End writer_facts.

Section reader_facts.
Import csv.

Lemma readRecords_cons c rest m field record done fpr p :
  readRecords (c :: rest) m field record done fpr p
  = step (readRecords rest) (negb (bool_decide (rest = []))) m c field record done fpr p.
Proof. reflexivity. Qed.

(** A run of plain bytes is added to the non-quoted field at hand. *)
Lemma read_plain (g tail : list Z) :
  Forall plain g ->
  forall field record done fpr p, exists p',
    readRecords (g ++ tail) Unquoted field record done fpr p
    = readRecords tail Unquoted (field ++ g) record done fpr p'.
Proof.
  induction 1 as [|c g Hc Hg IH]; intros field record done fpr p.
  - exists p. rewrite app_nil_r. reflexivity.
  - destruct Hc as (Hlf & _ & Hq & Hcomma).
    simpl app. rewrite readRecords_cons. unfold step, stepUnquoted.
    destruct (Z.eqb_spec c Comma); [contradiction|].
    destruct (Z.eqb_spec c ch_LF); [contradiction|].
    destruct (Z.eqb_spec c ch_quote); [contradiction|].
    destruct (IH (field ++ [c]) record done fpr (nextCol p)) as [p' Hp'].
    exists p'. rewrite Hp', <- app_assoc. reflexivity.
Qed.

(** A quoted field is read up to its closing quote, doubled quotes once. *)
Lemma read_quoted (g tail : list Z) :
  forall field record done fpr p, exists p',
    readRecords (writeQuoted g ++ ch_quote :: tail) Quoted field record done fpr p
    = readRecords tail QuoteSeen (field ++ g) record done fpr p'.
Proof.
  induction g as [|c g IH]; intros field record done fpr p.
  - exists (nextCol p). rewrite app_nil_r. reflexivity.
  - simpl writeQuoted. destruct (Z.eqb_spec c ch_quote) as [->|Hq].
    + destruct (IH (field ++ [ch_quote]) record done fpr (nextCol (nextCol p))) as [p' Hp'].
      exists p'.
      replace (field ++ ch_quote :: g) with ((field ++ [ch_quote]) ++ g)
        by (rewrite <- app_assoc; reflexivity).
      rewrite <- Hp'. reflexivity.
    + simpl app. rewrite readRecords_cons. unfold step.
      destruct (Z.eqb_spec c ch_quote); [contradiction|].
      destruct (c =? ch_LF).
      * destruct (IH (field ++ [c]) record done fpr
                    (nextLine (negb (bool_decide (writeQuoted g ++ ch_quote :: tail = []))) p))
          as [p' Hp'].
        exists p'. rewrite Hp', <- app_assoc. reflexivity.
      * destruct (IH (field ++ [c]) record done fpr (nextCol p)) as [p' Hp'].
        exists p'. rewrite Hp', <- app_assoc. reflexivity.
Qed.

(** After the closing quote, a separator is read as after a non-quoted
    field. *)
Lemma read_after_quote (sep : Z) (tail : list Z) field record done fpr p :
  sep = Comma \/ sep = ch_LF ->
  readRecords (sep :: tail) QuoteSeen field record done fpr p
  = readRecords (sep :: tail) Unquoted field record done fpr p.
Proof. intros [-> | ->]; reflexivity. Qed.

(** One field, whichever way it was written. *)
Lemma read_field (f : list Z) (sep : Z) (tail : list Z) :
  sep = Comma \/ sep = ch_LF ->
  forall record done fpr p, exists p',
    readRecords (normField f ++ sep :: tail) FieldStart [] record done fpr p
    = readRecords (sep :: tail) Unquoted (unCRLF f) record done fpr p'.
Proof.
  intros Hsep record done fpr p. unfold normField.
  destruct (fieldNeedsQuotes f) eqn:Hq.
  - destruct (read_quoted (unCRLF f) (sep :: tail) [] record done fpr (nextCol p)) as [p' Hp'].
    exists p'. rewrite <- read_after_quote by exact Hsep.
    simpl app in Hp'. rewrite <- Hp'.
    rewrite <- app_comm_cons, <- app_assoc. reflexivity.
  - pose proof (fieldNeedsQuotes_false f Hq) as Hplain.
    assert (Hun : unCRLF f = f).
    { apply unCRLF_no_CR. intros Hin. rewrite Forall_forall in Hplain.
      apply list_elem_of_In, Hplain in Hin. destruct Hin as (_ & Hcr & _). contradiction. }
    rewrite Hun. destruct Hplain as [|c g Hc Hg].
    + exists p. destruct Hsep as [-> | ->]; reflexivity.
    + destruct (read_plain g (sep :: tail) Hg [c] record done fpr (nextCol p)) as [p' Hp'].
      exists p'. simpl app in *. rewrite <- Hp'. rewrite readRecords_cons.
      destruct Hc as (Hlf & _ & Hquote & Hcomma).
      unfold step, stepField, stepUnquoted.
      destruct (Z.eqb_spec c ch_quote); [contradiction|].
      destruct (Z.eqb_spec c Comma); [contradiction|].
      destruct (Z.eqb_spec c ch_LF); [contradiction|]. reflexivity.
Qed.

Lemma endRecord_ok (fpr n : Z) (record : list (list Z)) (p : position) :
  0 < n -> Z.of_nat (length record) = n -> fpr = 0 \/ fpr = n ->
  endRecord fpr record p = inr n.
Proof.
  intros Hn Hlen [-> | ->]; unfold endRecord.
  - simpl. rewrite Hlen. reflexivity.
  - destruct (Z.ltb_spec 0 n); [|lia]. rewrite Hlen, Z.eqb_refl. reflexivity.
Qed.

(** The fields of a record from one of them on, up to the end of the line. *)
Lemma read_record (fs : list (list Z)) :
  forall f record done fpr n p tail,
    0 < n -> Z.of_nat (length (record ++ f :: fs)) = n -> fpr = 0 \/ fpr = n ->
    exists p',
      readRecords (normField f ++ normFields false fs ++ ch_LF :: tail)
        FieldStart [] record done fpr p
      = readRecords tail RecordStart [] [] (done ++ [record ++ map unCRLF (f :: fs)]) n p'.
Proof.
  induction fs as [|f2 fs IH]; intros f record done fpr n p tail Hn Hlen Hfpr.
  - destruct (read_field f ch_LF tail ltac:(auto) record done fpr p) as [p' Hp'].
    exists p'. simpl normFields. simpl app at 2.
    rewrite Hp', readRecords_cons. unfold step, stepUnquoted.
    change (ch_LF =? Comma) with false. change (ch_LF =? ch_LF) with true. cbv iota.
    rewrite (endRecord_ok fpr n); [reflexivity|exact Hn| |exact Hfpr].
    rewrite length_app in *. simpl length in *. exact Hlen.
  - destruct (read_field f Comma (normField f2 ++ normFields false fs ++ ch_LF :: tail)
                ltac:(auto) record done fpr p) as [p1 Hp1].
    destruct (IH f2 (record ++ [unCRLF f]) done fpr n (nextCol p1) tail Hn) as [p' Hp'];
      [|exact Hfpr|].
    + rewrite length_app in *. simpl length in *. rewrite length_app. simpl length. lia.
    + exists p'. simpl normFields. rewrite <- app_comm_cons, <- app_assoc.
      rewrite Hp1, readRecords_cons. unfold step, stepUnquoted.
      change (Comma =? Comma) with true. cbv iota.
      rewrite Hp'. rewrite <- app_assoc. reflexivity.
Qed.

Lemma normField_sep_head (f : list Z) (tail : list Z) :
  exists c t, normField f ++ Comma :: tail = c :: t /\ c <> ch_LF.
Proof.
  unfold normField. destruct (fieldNeedsQuotes f) eqn:Hq.
  - eexists _, _. split; [reflexivity|discriminate].
  - destruct (fieldNeedsQuotes_false f Hq) as [|c g Hc Hg].
    + eexists _, _. split; [reflexivity|discriminate].
    + eexists _, _. split; [reflexivity|]. apply Hc.
Qed.

(** Records of [n >= 2] fields each, one after the other. *)
Lemma read_rows (n : Z) (rows : list (list (list Z))) :
  2 <= n -> Forall (fun row => Z.of_nat (length row) = n) rows ->
  forall done fpr p, fpr = 0 \/ fpr = n ->
    readRecords (concat (map normWrite rows)) RecordStart [] [] done fpr p
    = inr (done ++ map (map unCRLF) rows).
Proof.
  intros Hn Hrows. induction Hrows as [|row rows Hrow Hrows IH]; intros done fpr p Hfpr.
  - simpl. rewrite app_nil_r. reflexivity.
  - destruct row as [|f [|f2 fs]]; simpl length in Hrow; try lia.
    assert (Hinp : concat (map normWrite ((f :: f2 :: fs) :: rows))
                   = normField f ++ normFields false (f2 :: fs)
                     ++ ch_LF :: concat (map normWrite rows)).
    { simpl map. simpl concat. unfold normWrite at 1. simpl normFields.
      rewrite <- !app_assoc. reflexivity. }
    rewrite Hinp.
    destruct (read_record (f2 :: fs) f [] done fpr n (startRecord p)
                (concat (map normWrite rows)) ltac:(lia) Hrow Hfpr) as [p' Hp'].
    assert (Hstart :
      readRecords (normField f ++ normFields false (f2 :: fs)
                   ++ ch_LF :: concat (map normWrite rows)) RecordStart [] [] done fpr p
      = readRecords (normField f ++ normFields false (f2 :: fs)
                     ++ ch_LF :: concat (map normWrite rows)) FieldStart [] [] done fpr
          (startRecord p)).
    { simpl normFields. rewrite <- app_comm_cons.
      destruct (normField_sep_head f
                  ((normField f2 ++ normFields false fs) ++ ch_LF :: concat (map normWrite rows)))
        as (c & t & -> & Hc).
      rewrite !readRecords_cons. unfold step.
      destruct (Z.eqb_spec c ch_LF); [contradiction|reflexivity]. }
    rewrite Hstart, Hp'. rewrite IH by auto. rewrite <- app_assoc. reflexivity.
Qed.

(** [ReadAll] over what [Write] wrote, for records of the same number
    [n >= 2] of fields: the records, each field with its ["\r\n"] turned
    into ["\n"]. *)
Lemma ReadAll_Write (n : Z) (rows : list (list (list Z))) :
  2 <= n -> Forall (fun row => Z.of_nat (length row) = n) rows ->
  ReadAll (concat (map Write rows)) = inr (map (map unCRLF) rows).
Proof.
  intros Hn Hrows. unfold ReadAll. rewrite readLines_rows.
  apply (read_rows n rows Hn Hrows []). auto.
Qed.

End reader_facts.

(** ** Rows of a history file *)
Section strings_bytes.

Lemma ascii_of_byte_of_ascii (a : ascii) : ascii_of_byte (byte_of_ascii a) = a.
Proof.
  unfold ascii_of_byte, byte_of_ascii. rewrite N2Z.id. apply ascii_N_embedding.
Qed.

Lemma string_of_bytes_of_string (s : string) : string_of_bytes (bytes_of_string s) = s.
Proof.
  induction s as [|a s IH]; [reflexivity|]. simpl. rewrite IH, ascii_of_byte_of_ascii. reflexivity.
Qed.

Lemma byte_of_ascii_eqb (a b : ascii) : (byte_of_ascii a =? byte_of_ascii b) = Ascii.eqb a b.
Proof.
  destruct (Ascii.eqb_spec a b) as [->|Hne]; [apply Z.eqb_refl|].
  apply Z.eqb_neq. intros Heq. apply Hne.
  rewrite <- (ascii_of_byte_of_ascii a), <- (ascii_of_byte_of_ascii b), Heq. reflexivity.
Qed.

Lemma unCRLF_clean (s : string) : hasCRLF s = false -> noCRLF (bytes_of_string s).
Proof.
  unfold noCRLF. induction s as [|c s IH]; [reflexivity|].
  destruct s as [|c' s]; [reflexivity|]. intros Hs.
  change (hasCRLF (String c (String c' s)))
    with ((Ascii.eqb c "013" && Ascii.eqb c' "010") || hasCRLF (String c' s)) in Hs.
  apply orb_false_iff in Hs as [Hc Hs].
  change (bytes_of_string (String c (String c' s)))
    with (byte_of_ascii c :: byte_of_ascii c' :: bytes_of_string s).
  change (unCRLF (byte_of_ascii c :: byte_of_ascii c' :: bytes_of_string s))
    with (if (byte_of_ascii c =? csv.ch_CR) && (byte_of_ascii c' =? csv.ch_LF)
          then unCRLF (bytes_of_string (String c' s))
          else byte_of_ascii c :: unCRLF (bytes_of_string (String c' s))).
  change csv.ch_CR with (byte_of_ascii "013"). change csv.ch_LF with (byte_of_ascii "010").
  rewrite !byte_of_ascii_eqb, Hc, (IH Hs). reflexivity.
Qed.

Lemma readBack_clean (s : string) : hasCRLF s = false -> readBack s = s.
Proof.
  intros Hs. unfold readBack. rewrite (unCRLF_clean s Hs). apply string_of_bytes_of_string.
Qed.

End strings_bytes.

Section history_facts.
Context {R : Type} `{RowCodec R}.
Import history.

Lemma MarshalCSV_app (rs batch : list R) :
  gocsv.MarshalCSV rs ++ gocsv.MarshalCSVWithoutHeaders batch = gocsv.MarshalCSV (rs ++ batch).
Proof.
  unfold gocsv.MarshalCSV, gocsv.MarshalCSVWithoutHeaders, gocsv.writeTo.
  rewrite map_app, concat_app, <- app_assoc. reflexivity.
Qed.

Lemma MarshalCSV_rows (batch : list R) :
  gocsv.MarshalCSV batch
  = concat (map csv.Write (map (map bytes_of_string) (csvHeader :: map csvFields batch))).
Proof.
  unfold gocsv.MarshalCSV, gocsv.writeTo, gocsv.row. simpl. f_equal.
  rewrite !map_map. reflexivity.
Qed.

Lemma MarshalCSVWithoutHeaders_rows (batch : list R) :
  gocsv.MarshalCSVWithoutHeaders batch
  = concat (map csv.Write (map (map bytes_of_string) (map csvFields batch))).
Proof.
  unfold gocsv.MarshalCSVWithoutHeaders, gocsv.writeTo, gocsv.row. simpl. f_equal.
  rewrite !map_map. reflexivity.
Qed.

Lemma MarshalCSV_not_empty (batch : list R) : gocsv.MarshalCSV batch <> [].
Proof.
  unfold gocsv.MarshalCSV, gocsv.writeTo, gocsv.row, csv.Write.
  destruct (csv.writeFields true _); discriminate.
Qed.

Lemma rowsOf_app (b1 b2 : list R) : rowsOf (b1 ++ b2) = rowsOf b1 ++ rowsOf b2.
Proof. unfold rowsOf. apply map_app. Qed.

Lemma rowsOf_clean (batch : list R) : cleanBatch batch -> rowsOf batch = map csvFields batch.
Proof.
  intros Hclean. unfold rowsOf. induction Hclean as [|r batch Hr Hbatch IH]; [reflexivity|].
  simpl. rewrite IH. f_equal.
  clear - Hr. induction Hr as [|f fs Hf Hfs IH]; [reflexivity|].
  simpl. rewrite (readBack_clean f Hf), IH. reflexivity.
Qed.

Lemma decodeBody_length (headers : list string) (body : list (list string)) :
  forall (i : Z) (rows : list R),
  gocsv.decodeBody headers body i = inr rows ->
  Forall2 (fun row csvRow => csvDecode headers csvRow = inr row) rows body.
Proof.
  induction body as [|csvRow body IH]; intros i rows.
  - intros [= <-]. constructor.
  - cbn [gocsv.decodeBody]. destruct (csvDecode headers csvRow) as [[j msg]|r] eqn:Hrow;
      [discriminate|].
    destruct (gocsv.decodeBody headers body (i + 1)) as [err|rs] eqn:Hrest; [discriminate|].
    intros [= <-]. constructor; [exact Hrow|]. eapply IH, Hrest.
Qed.

(** Rows that decode to the records they were made of. *)
Lemma decodeBody_all (headers : list string) (records : list R) :
  Forall (fun r => csvDecode headers (csvFields r) = inr r) records ->
  forall i : Z, gocsv.decodeBody headers (map csvFields records) i = inr records.
Proof.
  induction 1 as [|r records Hr _ IH]; intros i; [reflexivity|].
  cbn [map gocsv.decodeBody]. rewrite Hr, IH. reflexivity.
Qed.

Context `{!RowCodecLaws R}.

Lemma header_readBack : map readBack (csvHeader (R := R)) = csvHeader.
Proof.
  pose proof header_clean as Hclean.
  induction Hclean as [|h hs Hh Hhs IH]; [reflexivity|].
  simpl. rewrite (readBack_clean h Hh), IH. reflexivity.
Qed.

Lemma strings_unCRLF (rows : list (list string)) :
  map (map string_of_bytes) (map (map unCRLF) (map (map bytes_of_string) rows))
  = map (map readBack) rows.
Proof.
  rewrite !map_map. apply map_ext. intros row. rewrite !map_map. reflexivity.
Qed.

Lemma rows_columns (batch : list R) :
  Forall (fun row => Z.of_nat (length row) = Z.of_nat (length (csvHeader (R := R))))
    (map (map bytes_of_string) (map csvFields batch)).
Proof.
  apply List.Forall_forall. intros row Hrow.
  apply in_map_iff in Hrow. destruct Hrow as (fields & <- & Hrow).
  apply in_map_iff in Hrow. destruct Hrow as (r & <- & _).
  rewrite length_map, fields_columns. reflexivity.
Qed.

(** The records in what [MarshalCSV] writes: the header, then one record
    for each row, with the fields as the reader hands them back. *)
Lemma recordsIn_MarshalCSV (batch : list R) :
  recordsIn (gocsv.MarshalCSV batch) = inr (csvHeader :: rowsOf batch).
Proof.
  unfold recordsIn. rewrite MarshalCSV_rows.
  pose proof header_columns as Hcols.
  rewrite (ReadAll_Write (Z.of_nat (length (csvHeader (R := R))))).
  - rewrite strings_unCRLF. simpl map. rewrite header_readBack.
    unfold rowsOf. rewrite map_map. reflexivity.
  - lia.
  - simpl map. constructor; [rewrite length_map; reflexivity|apply rows_columns].
Qed.

(** The records in what [MarshalCSVWithoutHeaders] writes: one for each
    row, and no other. *)
Lemma recordsIn_MarshalCSVWithoutHeaders (batch : list R) :
  recordsIn (gocsv.MarshalCSVWithoutHeaders batch) = inr (rowsOf batch).
Proof.
  unfold recordsIn. rewrite MarshalCSVWithoutHeaders_rows.
  pose proof header_columns as Hcols.
  rewrite (ReadAll_Write (Z.of_nat (length (csvHeader (R := R))))).
  - rewrite strings_unCRLF. unfold rowsOf. rewrite map_map. reflexivity.
  - lia.
  - apply rows_columns.
Qed.

(** What [UnmarshalFile] makes of a file [MarshalCSV] wrote: what [readTo]
    makes of the header and the fields as the reader hands them back. *)
Lemma UnmarshalFile_MarshalCSV (batch : list R) :
  gocsv.UnmarshalFile (gocsv.MarshalCSV batch) = gocsv.readTo (csvHeader :: rowsOf batch).
Proof.
  pose proof (recordsIn_MarshalCSV batch) as Hrecords. unfold recordsIn in Hrecords.
  unfold gocsv.UnmarshalFile.
  destruct (csv.ReadAll (gocsv.MarshalCSV batch)) as [err|records]; [discriminate|].
  injection Hrecords as ->. reflexivity.
Qed.

End history_facts.

Section append_load_facts.
Context {R : Type} `{RowCodec R}.
Import history.

Lemma toWrite_empty (batch : list R) : toWrite [] batch = gocsv.MarshalCSV batch.
Proof. reflexivity. Qed.

Lemma toWrite_more (old : list Z) (batch : list R) :
  old <> [] -> toWrite old batch = gocsv.MarshalCSVWithoutHeaders batch.
Proof.
  intros Hold. unfold toWrite. destruct old as [|c old]; [contradiction|].
  destruct (Z.eqb_spec (Z.of_nat (length (c :: old))) 0) as [Hlen|_]; [|reflexivity].
  simpl length in Hlen. lia.
Qed.

(** Every way a call can end: the other paths are as they were; the file
    holds what it held and, after it, all that was to be written when the
    call returns [nil], the first bytes of it otherwise. *)
Lemma appendResultsToCSV_outcome (faults : os.Faults) (fs : gmap string file)
    (filePath : string) (batch : list R) :
  let result := appendResultsToCSV faults fs filePath batch in
  (forall other, other <> filePath -> fst result !! other = fs !! other)
  /\ (snd result = None ->
      fst result !! filePath
      = Some (File (contentOf fs filePath ++ toWrite (contentOf fs filePath) batch)))
  /\ (exists k, contentOf (fst result) filePath
                = contentOf fs filePath ++ take k (toWrite (contentOf fs filePath) batch)).
Proof.
  cbv zeta. unfold appendResultsToCSV, os.OpenFile_append, os.Stat, os.Write, contentOf.
  destruct (fs !! filePath) as [[content|]|] eqn:Hfile.
  - fold (toWrite content batch).
    destruct (os.onStat faults) as [msg|]; cbn [fst snd].
    { split; [reflexivity|]. split; [discriminate|]. exists 0%nat.
      rewrite Hfile, take_0, app_nil_r. reflexivity. }
    destruct (os.onWrite faults) as [[[reached early] msg]|].
    + destruct (reached <? length (toWrite content batch))%nat; cbn [fst snd];
        rewrite lookup_insert_eq.
      * split; [intros other Hne; apply lookup_insert_ne; congruence|].
        split; [destruct (early && _); discriminate|]. exists reached. reflexivity.
      * split; [intros other Hne; apply lookup_insert_ne; congruence|].
        split; [reflexivity|]. exists (length (toWrite content batch)).
        rewrite firstn_all. reflexivity.
    + cbn [fst snd]. rewrite lookup_insert_eq.
      split; [intros other Hne; apply lookup_insert_ne; congruence|].
      split; [reflexivity|]. exists (length (toWrite content batch)).
      rewrite firstn_all. reflexivity.
  - cbn [fst snd]. split; [reflexivity|]. split; [discriminate|]. exists 0%nat.
    rewrite Hfile. reflexivity.
  - destruct (os.onCreate faults) as [msg|]; cbn [fst snd].
    { split; [reflexivity|]. split; [discriminate|]. exists 0%nat. rewrite Hfile. reflexivity. }
    change (Z.of_nat (length (@nil Z)) =? 0) with true. cbv iota.
    change (toWrite [] batch) with (gocsv.MarshalCSV batch).
    destruct (os.onStat faults) as [msg|]; cbn [fst snd].
    { split; [intros other Hne; apply lookup_insert_ne; congruence|].
      split; [discriminate|]. exists 0%nat. rewrite lookup_insert_eq. reflexivity. }
    destruct (os.onWrite faults) as [[[reached early] msg]|].
    + destruct (reached <? length (gocsv.MarshalCSV batch))%nat; cbn [fst snd];
        rewrite insert_insert_eq, lookup_insert_eq.
      * split; [intros other Hne; apply lookup_insert_ne; congruence|].
        split; [destruct (early && _); discriminate|]. exists reached. reflexivity.
      * split; [intros other Hne; apply lookup_insert_ne; congruence|].
        split; [reflexivity|]. exists (length (gocsv.MarshalCSV batch)).
        rewrite firstn_all. reflexivity.
    + cbn [fst snd]. rewrite insert_insert_eq, lookup_insert_eq.
      split; [intros other Hne; apply lookup_insert_ne; congruence|].
      split; [reflexivity|]. exists (length (gocsv.MarshalCSV batch)).
      rewrite firstn_all. reflexivity.
Qed.

(** A call that returned [nil], on a file of no bytes and on another. *)
Lemma appendResultsToCSV_nil (faults : os.Faults) (fs fs' : gmap string file)
    (filePath : string) (batch : list R) :
  appendResultsToCSV faults fs filePath batch = (fs', None) ->
  fs' !! filePath = Some (File (contentOf fs filePath ++ toWrite (contentOf fs filePath) batch)).
Proof.
  intros Hcall.
  destruct (appendResultsToCSV_outcome faults fs filePath batch) as (_ & Hnil & _).
  cbv zeta in Hnil. rewrite Hcall in Hnil. apply Hnil. reflexivity.
Qed.

Lemma contentOf_file (fs : gmap string file) (filePath : string) (content : list Z) :
  fs !! filePath = Some (File content) -> contentOf fs filePath = content.
Proof. intros Hfile. unfold contentOf. rewrite Hfile. reflexivity. Qed.

Lemma contentOf_fresh (fs : gmap string file) (filePath : string) :
  fs !! filePath = None \/ fs !! filePath = Some (File []) -> contentOf fs filePath = [].
Proof. unfold contentOf. intros [-> | ->]; reflexivity. Qed.

(** A run of calls that all returned [nil], after records were written to
    a file of no bytes. *)
Lemma appendAll_written (calls : list (os.Faults * list R)) (fs fs' : gmap string file)
    (filePath : string) (records : list R) :
  fs !! filePath = Some (File (gocsv.MarshalCSV records)) ->
  appendAll fs filePath calls = Some fs' ->
  fs' !! filePath = Some (File (gocsv.MarshalCSV (records ++ concat (map snd calls)))).
Proof.
  revert fs records. induction calls as [|[faults batch] calls IH]; intros fs records Hfile.
  - cbn. intros [= <-]. rewrite app_nil_r. exact Hfile.
  - cbn [appendAll map snd concat].
    destruct (appendResultsToCSV faults fs filePath batch) as [fs1 [err|]] eqn:Hcall;
      [discriminate|].
    intros Hrest. rewrite app_assoc. apply (IH fs1); [|exact Hrest].
    rewrite (appendResultsToCSV_nil _ _ _ _ _ Hcall), (contentOf_file _ _ _ Hfile).
    rewrite toWrite_more by apply MarshalCSV_not_empty.
    rewrite MarshalCSV_app. reflexivity.
Qed.

Lemma appendAll_fresh (faults : os.Faults) (batch : list R) (calls : list (os.Faults * list R))
    (fs fs' : gmap string file) (filePath : string) :
  fs !! filePath = None \/ fs !! filePath = Some (File []) ->
  appendAll fs filePath ((faults, batch) :: calls) = Some fs' ->
  fs' !! filePath = Some (File (gocsv.MarshalCSV (batch ++ concat (map snd calls)))).
Proof.
  intros Hfresh. cbn [appendAll].
  destruct (appendResultsToCSV faults fs filePath batch) as [fs1 [err|]] eqn:Hcall;
    [discriminate|].
  apply appendAll_written.
  rewrite (appendResultsToCSV_nil _ _ _ _ _ Hcall), (contentOf_fresh _ _ Hfresh).
  reflexivity.
Qed.


End append_load_facts.

(** ** Errors of the reader and of [gocsv] *)
Section reader_errors.
Import csv.

Lemma ParseError_not_EOF (StartLine Line Column : Z) (Err : string) :
  not_EOF (ParseError StartLine Line Column Err).
Proof.
  unfold not_EOF, ParseError. cbn [Error].
  destruct (String.eqb Err ErrFieldCount); [discriminate|].
  destruct (negb (StartLine =? Line)); discriminate.
Qed.

Lemma endRecord_not_EOF fpr record p err : endRecord fpr record p = inl err -> not_EOF err.
Proof.
  unfold endRecord. destruct (0 <? fpr); [|discriminate].
  destruct (negb _); [|discriminate]. intros [= <-]. apply ParseError_not_EOF.
Qed.

Lemma stepUnquoted_not_EOF continue c field record done fpr p err :
  (forall m f r d q p' e, continue m f r d q p' = inl e -> not_EOF e) ->
  stepUnquoted continue c field record done fpr p = inl err -> not_EOF err.
Proof.
  intros Hcont. unfold stepUnquoted.
  destruct (c =? Comma); [apply Hcont|].
  destruct (c =? ch_LF).
  - destruct (endRecord fpr (record ++ [field]) p) as [e|fpr'] eqn:Hend.
    + intros [= <-]. eapply endRecord_not_EOF, Hend.
    + apply Hcont.
  - destruct (c =? ch_quote); [intros [= <-]; apply ParseError_not_EOF|apply Hcont].
Qed.

Lemma step_not_EOF continue more m c field record done fpr p err :
  (forall m f r d q p' e, continue m f r d q p' = inl e -> not_EOF e) ->
  step continue more m c field record done fpr p = inl err -> not_EOF err.
Proof.
  intros Hcont. unfold step, stepField.
  destruct m.
  - destruct (c =? ch_LF); [apply Hcont|].
    destruct (c =? ch_quote); [apply Hcont|apply stepUnquoted_not_EOF, Hcont].
  - destruct (c =? ch_quote); [apply Hcont|apply stepUnquoted_not_EOF, Hcont].
  - apply stepUnquoted_not_EOF, Hcont.
  - destruct (c =? ch_quote); [apply Hcont|]. destruct (c =? ch_LF); apply Hcont.
  - destruct (c =? ch_quote); [apply Hcont|].
    destruct ((c =? Comma) || (c =? ch_LF));
      [apply stepUnquoted_not_EOF, Hcont|intros [= <-]; apply ParseError_not_EOF].
Qed.

Lemma readRecords_not_EOF input :
  forall m field record done fpr p err,
  readRecords input m field record done fpr p = inl err -> not_EOF err.
Proof.
  induction input as [|c rest IH]; intros m field record done fpr p err.
  - cbn [readRecords]. unfold atEOF. destruct m; try discriminate;
      try (destruct (endRecord fpr (record ++ [field]) p) as [e|fpr'] eqn:Hend;
           [intros [= <-]; eapply endRecord_not_EOF, Hend|discriminate]).
    intros [= <-]. apply ParseError_not_EOF.
  - cbn [readRecords]. apply step_not_EOF. exact IH.
Qed.

Lemma decodeBody_not_EOF {R : Type} `{RowCodec R} headers body :
  forall i err, gocsv.decodeBody (R := R) headers body i = inl err -> not_EOF err.
Proof.
  induction body as [|csvRow body IH]; intros i err; [discriminate|].
  cbn [gocsv.decodeBody]. destruct (csvDecode headers csvRow) as [[j msg]|r].
  - intros [= <-]. apply ParseError_not_EOF.
  - destruct (gocsv.decodeBody headers body (i + 1)) as [e|rs] eqn:Hrest; [|discriminate].
    intros [= <-]. eapply IH, Hrest.
Qed.

Lemma readTo_not_EOF {R : Type} `{RowCodec R} csvRows err :
  gocsv.readTo (R := R) csvRows = inl err -> not_EOF err.
Proof.
  unfold gocsv.readTo. destruct csvRows as [|headers body]; [intros [= <-]; discriminate|].
  destruct (_ =? 0)%nat; [intros [= <-]; discriminate|].
  destruct body as [|csvRow body]; [discriminate|].
  destruct (gocsv.decodeBody headers (csvRow :: body) 0) as [e|rows] eqn:Hbody; [|discriminate].
  intros [= <-]. eapply decodeBody_not_EOF, Hbody.
Qed.

Lemma UnmarshalFile_not_EOF {R : Type} `{RowCodec R} content err :
  gocsv.UnmarshalFile (R := R) content = inl err -> not_EOF err.
Proof.
  unfold gocsv.UnmarshalFile, ReadAll.
  destruct (readRecords _ _ _ _ _ _ _) as [e|csvRows] eqn:Hread.
  - intros [= <-]. eapply readRecords_not_EOF, Hread.
  - apply readTo_not_EOF.
Qed.

(** So [loadResultsFromCSV] never takes its "EOF" branch. *)
Lemma loadResultsFromCSV_loaded {R : Type} `{RowCodec R} (fs : gmap string file)
    (filePath : string) (content : list Z) :
  fs !! filePath = Some (File content) ->
  history.loadResultsFromCSV (R := R) fs filePath = loaded (gocsv.UnmarshalFile content).
Proof.
  intros Hcontent. unfold history.loadResultsFromCSV, os.Open, loaded. rewrite Hcontent.
  destruct (gocsv.UnmarshalFile content) as [err|rows] eqn:Hrows; [|reflexivity].
  pose proof (UnmarshalFile_not_EOF content err Hrows) as Hne. unfold not_EOF in Hne.
  destruct (String.eqb_spec (Error err) "EOF"); [contradiction|reflexivity].
Qed.

End reader_errors.

#[export] Instance textrow_laws : RowCodecLaws textrow.Row.
Proof.
  split.
  - simpl. lia.
  - repeat constructor.
  - intros r. reflexivity.
Qed.

Section written_files.
Context {R : Type} `{RowCodec R}.

(** With nothing refused, a call on a path that holds no file creates it
    and returns [nil]. *)
Lemma appendResultsToCSV_new (fs : gmap string file) (filePath : string) (batch : list R) :
  fs !! filePath = None ->
  history.appendResultsToCSV os.noFaults fs filePath batch
  = (<[filePath := File (gocsv.MarshalCSV batch)]> fs, None).
Proof.
  intros Hnew. unfold history.appendResultsToCSV, os.OpenFile_append. rewrite Hnew. simpl.
  rewrite insert_insert_eq. reflexivity.
Qed.

(** With nothing refused, calls on a file that can be opened return [nil]. *)
Lemma appendResultsToCSV_noFaults (fs : gmap string file) (filePath : string) (batch : list R) :
  fs !! filePath <> Some NoAccess ->
  exists fs', history.appendResultsToCSV os.noFaults fs filePath batch = (fs', None)
              /\ fs' !! filePath <> Some NoAccess.
Proof.
  intros Hopen. unfold history.appendResultsToCSV, os.OpenFile_append.
  destruct (fs !! filePath) as [[content|]|] eqn:Hfile; [|contradiction|]; simpl;
    eexists; (split; [reflexivity|]); rewrite lookup_insert_eq; discriminate.
Qed.

Lemma appendAll_noFaults (batches : list (list R)) (fs : gmap string file) (filePath : string) :
  fs !! filePath <> Some NoAccess ->
  exists fs', appendAll fs filePath (map (pair os.noFaults) batches) = Some fs'.
Proof.
  revert fs. induction batches as [|batch batches IH]; intros fs Hopen.
  - exists fs. reflexivity.
  - destruct (appendResultsToCSV_noFaults fs filePath batch Hopen) as (fs1 & Hcall & Hopen1).
    cbn [map appendAll]. rewrite Hcall. apply IH, Hopen1.
Qed.

Context `{!RowCodecLaws R}.

(** A file that holds the header and the rows of records whose fields are
    free of ["\r\n"], loaded. *)
Lemma loadResultsFromCSV_written (fs : gmap string file) (filePath : string) (records : list R) :
  fs !! filePath = Some (File (gocsv.MarshalCSV records)) ->
  cleanBatch records ->
  recordsOf fs filePath = inr (csvHeader :: map csvFields records)
  /\ history.loadResultsFromCSV fs filePath
     = loaded (gocsv.readTo (csvHeader :: map csvFields records))
  /\ (records = [] -> history.loadResultsFromCSV fs filePath = inr None)
  /\ (forall results,
      history.loadResultsFromCSV fs filePath = inr (Some results) ->
      Forall2 (fun row r => csvDecode csvHeader (csvFields r) = inr row) results records)
  /\ (records <> [] ->
      Forall (fun r => csvDecode csvHeader (csvFields r) = inr r) records ->
      history.loadResultsFromCSV fs filePath = inr (Some records)).
Proof.
  intros Hfile Hclean.
  assert (Hload : history.loadResultsFromCSV fs filePath
                  = loaded (gocsv.readTo (csvHeader :: map csvFields records))).
  { rewrite (loadResultsFromCSV_loaded fs filePath _ Hfile), UnmarshalFile_MarshalCSV.
    rewrite (rowsOf_clean records Hclean). reflexivity. }
  pose proof (header_columns (R := R)) as Hcols.
  split; [|split; [exact Hload|split; [|split]]].
  - unfold recordsOf. rewrite (contentOf_file _ _ _ Hfile), recordsIn_MarshalCSV.
    rewrite (rowsOf_clean records Hclean). reflexivity.
  - intros ->. rewrite Hload. cbn [map gocsv.readTo].
    destruct (Nat.eqb_spec (length (csvHeader (R := R))) 0); [lia|reflexivity].
  - intros results. rewrite Hload. unfold loaded, gocsv.readTo.
    destruct (_ =? 0)%nat; [discriminate|].
    destruct (map csvFields records) as [|csvRow body] eqn:Hrows; [discriminate|].
    destruct (gocsv.decodeBody csvHeader (csvRow :: body) 0) as [e|rows] eqn:Hbody;
      [discriminate|].
    intros [= <-]. rewrite <- Hrows in Hbody.
    apply decodeBody_length in Hbody. apply Forall2_fmap_r in Hbody. exact Hbody.
  - intros Hsome Hback. rewrite Hload. unfold loaded, gocsv.readTo.
    destruct (Nat.eqb_spec (length (csvHeader (R := R))) 0); [lia|].
    rewrite (decodeBody_all csvHeader records Hback 0).
    destruct records; [contradiction|reflexivity].
Qed.

End written_files.

(** ** The history files: header, missing and empty files, round trip *)

(** C4: whatever a call of [appendResultsToCSV] meets, the file keeps the
    bytes it held and grows at its end.  When the call returns [nil], what
    it appended reads, record by record, as the header row followed by one
    row for each result of the batch if the file held no byte (it was empty,
    or missing and so created), and as the rows of the batch alone, with no
    header, if the file held something.  Hence after any run of appends that
    began on a missing or empty file and all returned [nil], the file reads
    as the header row once, at the top, and after it the rows of all the
    results, in order: no header row stands in the middle. *)
Theorem appendResultsToCSV_header_iff_empty {R : Type} `{RowCodec R} `{!RowCodecLaws R}
    (faults : os.Faults) (fs : gmap string file) (filePath : string) (batch : list R) :
  let old := contentOf fs filePath in
  let result := history.appendResultsToCSV faults fs filePath batch in
  (exists appended,
     contentOf (fst result) filePath = old ++ appended
     /\ (snd result = None ->
         fst result !! filePath = Some (File (old ++ appended))
         /\ recordsIn appended
            = inr (if bool_decide (old = []) then csvHeader :: rowsOf batch else rowsOf batch)))
  /\ (forall calls fs',
      fs !! filePath = None \/ fs !! filePath = Some (File []) ->
      appendAll fs filePath ((faults, batch) :: calls) = Some fs' ->
      recordsOf fs' filePath = inr (csvHeader :: rowsOf (batch ++ concat (map snd calls)))).
Proof.
  cbv zeta. split.
  - destruct (appendResultsToCSV_outcome faults fs filePath batch) as (_ & Hnil & k & Hk).
    cbv zeta in Hnil, Hk.
    exists (take k (toWrite (contentOf fs filePath) batch)). split; [exact Hk|].
    intros Hreturned. specialize (Hnil Hreturned).
    assert (Hall : take k (toWrite (contentOf fs filePath) batch)
                   = toWrite (contentOf fs filePath) batch).
    { apply (app_inv_head (contentOf fs filePath)). rewrite <- Hk.
      apply contentOf_file, Hnil. }
    rewrite Hall. split; [exact Hnil|].
    destruct (decide (contentOf fs filePath = [])) as [Hempty|Hmore].
    + rewrite (bool_decide_eq_true_2 _ Hempty), Hempty, toWrite_empty.
      apply recordsIn_MarshalCSV.
    + rewrite (bool_decide_eq_false_2 _ Hmore), (toWrite_more _ _ Hmore).
      apply recordsIn_MarshalCSVWithoutHeaders.
  - intros calls fs' Hfresh Hrun. unfold recordsOf.
    rewrite (contentOf_file _ _ _ (appendAll_fresh faults batch calls fs fs' filePath Hfresh Hrun)).
    apply recordsIn_MarshalCSV.
Qed.

Lemma appendResultsToCSV_header_iff_empty_witness :
  exists fs',
    appendAll ∅ history.httpTesterHistoryFile
      [(os.noFaults, sampleBatch); (os.noFaults, []); (os.noFaults, rev sampleBatch)] = Some fs'
    /\ recordsOf fs' history.httpTesterHistoryFile
       = inr (textrow.header :: map textrow.fields (sampleBatch ++ rev sampleBatch)).
Proof.
  destruct (appendAll_noFaults [sampleBatch; []; rev sampleBatch] ∅
              history.httpTesterHistoryFile ltac:(rewrite lookup_empty; discriminate))
    as [fs' Hrun].
  exists fs'. split; [exact Hrun|].
  exact (proj2 (appendResultsToCSV_header_iff_empty os.noFaults ∅
                  history.httpTesterHistoryFile sampleBatch)
           [(os.noFaults, []); (os.noFaults, rev sampleBatch)] fs'
           (or_introl (lookup_empty _)) Hrun).
Defined.

(** C10: when the history file does not exist, [loadResultsFromCSV] returns
    no error and leaves the slice [nil], and [handleHttpTestHistory] replies
    200 with an empty array.  When the file exists and holds no byte,
    [gocsv.UnmarshalFile] fails with "empty csv file given", which is not
    "EOF": [loadResultsFromCSV] returns that error wrapped, and
    [handleHttpTestHistory] replies 500.  [handleCfScannerHistory] replies 200
    in both cases, with [null] for the missing file and an empty array for
    the empty one. *)
Theorem loadResultsFromCSV_missing_or_empty {R : Type} `{RowCodec R}
    (methodNotAllowed : Response) (fs : gmap string file) (filePath : string) :
  let get := {| web.Method := "GET" |} in
  let failure := "failed to parse CSV file: empty csv file given"%string in
  (fs !! filePath = None -> history.loadResultsFromCSV (R := R) fs filePath = inr None)
  /\ (fs !! filePath = Some (File []) ->
      history.loadResultsFromCSV (R := R) fs filePath
      = inl {| Error := failure; IsNotExist := false |})
  /\ (fs !! history.httpTesterHistoryFile = None ->
      history.handleHttpTestHistory (R := R) methodNotAllowed fs get
      = {| StatusCode := 200; Body := JArray [] |})
  /\ (fs !! history.httpTesterHistoryFile = Some (File []) ->
      history.handleHttpTestHistory (R := R) methodNotAllowed fs get
      = {| StatusCode := 500;
           Body := JObject [("error"%string,
                             JString ("failed to load http test history: " +:+ failure))] |})
  /\ (fs !! history.cfScannerHistoryFile = None ->
      history.handleCfScannerHistory (R := R) methodNotAllowed fs get
      = {| StatusCode := 200; Body := JNull |})
  /\ (fs !! history.cfScannerHistoryFile = Some (File []) ->
      history.handleCfScannerHistory (R := R) methodNotAllowed fs get
      = {| StatusCode := 200; Body := JArray [] |}).
Proof.
  cbv zeta.
  assert (Hmissing : forall path, fs !! path = None ->
            history.loadResultsFromCSV (R := R) fs path = inr None).
  { intros path Hnone. unfold history.loadResultsFromCSV, os.Open. rewrite Hnone. reflexivity. }
  assert (Hempty : forall path, fs !! path = Some (File []) ->
            history.loadResultsFromCSV (R := R) fs path
            = inl {| Error := "failed to parse CSV file: empty csv file given";
                     IsNotExist := false |}).
  { intros path Hfile. unfold history.loadResultsFromCSV, os.Open. rewrite Hfile. reflexivity. }
  split; [apply Hmissing|]. split; [apply Hempty|].
  unfold history.handleHttpTestHistory, history.handleCfScannerHistory.
  change (negb (web.Method {| web.Method := "GET" |} =? web.MethodGet)%string) with false.
  cbv iota.
  repeat split; intros Hfile;
    first [rewrite (Hmissing _ Hfile)|rewrite (Hempty _ Hfile)]; reflexivity.
Qed.




(** ** [incrementIP] repeated, and [IsIPv6] *)
Section counter_facts.
Import utils.

Lemma iter_incrementIP (k : nat) (n : nat) (v : Z) :
  Nat.iter k incrementIP (be_bytes n v) = be_bytes n (v + Z.of_nat k).
Proof.
  induction k as [|k IH].
  - simpl. f_equal. lia.
  - rewrite Nat.iter_succ, IH, incrementIP_of_value. f_equal. lia.
Qed.

Lemma be_bytes_eq_iff (n : nat) (v w : Z) :
  be_bytes n v = be_bytes n w <-> (v - w) mod 256 ^ Z.of_nat n = 0.
Proof.
  assert (Hpos : 0 < 256 ^ Z.of_nat n) by (apply Z.pow_pos_nonneg; lia).
  split.
  - intros Heq. apply (f_equal be_value) in Heq. rewrite !be_value_be_bytes in Heq.
    rewrite Zminus_mod, Heq, Z.sub_diag. apply Z.mod_0_l. lia.
  - intros Hmod. rewrite <- (be_bytes_mod n v), <- (be_bytes_mod n w). f_equal.
    replace v with (w + (v - w)) by lia.
    rewrite Z.add_mod, Hmod, Z.add_0_r, Z.mod_mod by lia. reflexivity.
Qed.

End counter_facts.

(** Incrementing [k] times adds [k] to the number the bytes spell, modulo
    [256 ^ n] for a slice of [n] bytes: the slice keeps its length, and it is
    back at the address it started from exactly when [k] is a multiple of
    [256 ^ n].  Two addresses fewer than [256 ^ n] increments apart differ. *)
Theorem incrementIP_repeated (ip : list Z) (k : nat) :
  bytes_ok ip ->
  length (Nat.iter k utils.incrementIP ip) = length ip
  /\ bytes_ok (Nat.iter k utils.incrementIP ip)
  /\ be_value (Nat.iter k utils.incrementIP ip)
     = (be_value ip + Z.of_nat k) mod 256 ^ Z.of_nat (length ip)
  /\ (Nat.iter k utils.incrementIP ip = ip <-> Z.of_nat k mod 256 ^ Z.of_nat (length ip) = 0)
  /\ (forall j : nat, (j < k)%nat -> Z.of_nat k - Z.of_nat j < 256 ^ Z.of_nat (length ip) ->
      Nat.iter j utils.incrementIP ip <> Nat.iter k utils.incrementIP ip).
Proof.
  intros Hok.
  assert (Hip : be_bytes (length ip) (be_value ip + Z.of_nat 0) = ip)
    by (rewrite Z.add_0_r; apply be_bytes_be_value, Hok).
  assert (Hiter : forall j, Nat.iter j utils.incrementIP ip
                            = be_bytes (length ip) (be_value ip + Z.of_nat j)).
  { intros j. rewrite <- Hip at 1. rewrite iter_incrementIP. f_equal. lia. }
  rewrite !Hiter. split; [apply length_be_bytes|]. split; [apply be_bytes_ok|].
  split; [apply be_value_be_bytes|]. split.
  - pose proof (be_bytes_eq_iff (length ip) (be_value ip + Z.of_nat k)
                  (be_value ip + Z.of_nat 0)) as Hiff.
    rewrite Hip in Hiff.
    replace (be_value ip + Z.of_nat k - (be_value ip + Z.of_nat 0)) with (Z.of_nat k)
      in Hiff by lia.
    exact Hiff.
  - intros j Hj Hk. rewrite (Hiter j). intros Hmod. apply be_bytes_eq_iff in Hmod.
    replace (be_value ip + Z.of_nat j - (be_value ip + Z.of_nat k))
      with (- (Z.of_nat k - Z.of_nat j)) in Hmod by lia.
    assert (Hpos : 0 < 256 ^ Z.of_nat (length ip)) by (apply Z.pow_pos_nonneg; lia).
    apply Z.mod_opp_l_z in Hmod; [|lia].
    rewrite Z.opp_involutive, Z.mod_small in Hmod by lia. lia.
Qed.

Lemma incrementIP_repeated_witness :
  Nat.iter 300 utils.incrementIP [10; 0; 0; 250] = [10; 0; 2; 38]
  /\ be_value (Nat.iter 300 utils.incrementIP [10; 0; 0; 250])
     = (be_value [10; 0; 0; 250] + 300) mod 256 ^ 4.
Proof.
  split; [vm_compute; reflexivity|].
  exact (proj1 (proj2 (proj2 (incrementIP_repeated [10; 0; 0; 250] 300
                                (bytes_ok_check [10; 0; 0; 250] eq_refl))))).
Defined.

(** [IsIPv6] answers true exactly for the text of an IPv6 address (without
    zone) outside [::ffff:0:0/96]: it answers false for what does not parse,
    for every dotted IPv4 address, and for an IPv4-mapped IPv6 address such as
    [::ffff:1.2.3.4], which [To4] turns into an IPv4 address. *)
Theorem IsIPv6_iff (ipStr : string) :
  utils.IsIPv6 ipStr = true
  <-> exists a, netip.ParseAddr (bytes_of_string ipStr) = Some (netip.Addr6 a)
                /\ take 12 a <> netip.v4InV6Prefix.
Proof.
  unfold utils.IsIPv6, net.ParseIP.
  destruct (netip.ParseAddr (bytes_of_string ipStr)) as [[a|a]|] eqn:Hparse.
  - pose proof (ParseAddr_ok _ _ Hparse) as [Hbytes Hlen]. simpl in Hbytes, Hlen.
    cbn [netip.As16]. split.
    + destruct a as [|a0 [|a1 [|a2 [|a3 [|]]]]]; try discriminate Hlen.
      vm_compute. discriminate.
    + intros (a' & Heq & _). discriminate Heq.
  - pose proof (ParseAddr_ok _ _ Hparse) as [Hbytes Hlen]. simpl in Hbytes, Hlen.
    cbn [netip.As16].
    assert (Hne : a <> []) by (intros ->; discriminate Hlen).
    rewrite (bool_decide_eq_false_2 _ Hne), (To4_len16 a Hlen Hbytes),
      (is_mapped_take12 a Hlen Hbytes).
    destruct (bool_decide (take 12 a = netip.v4InV6Prefix)) eqn:Hmapped.
    + apply bool_decide_eq_true_1 in Hmapped. split.
      * intros Htrue. apply bool_decide_eq_true_1 in Htrue.
        apply (f_equal length) in Htrue. rewrite length_drop, Hlen in Htrue. discriminate Htrue.
      * intros (a' & Heq & Hnot). injection Heq as <-. contradiction.
    + apply bool_decide_eq_false_1 in Hmapped. split.
      * intros _. exists a. split; [reflexivity|exact Hmapped].
      * intros _. apply bool_decide_eq_true_2. reflexivity.
  - split; [discriminate|]. intros (a & Heq & _). discriminate Heq.
Qed.

Example IsIPv6_examples :
  utils.IsIPv6 "2606:4700::1" = true
  /\ utils.IsIPv6 "104.16.0.1" = false
  /\ utils.IsIPv6 "::ffff:104.16.0.1" = false
  /\ utils.IsIPv6 "::ffff:6810:1" = false
  /\ utils.IsIPv6 "fe80::1%eth0" = false
  /\ utils.IsIPv6 "localhost" = false
  /\ utils.IsIPv6 EmptyString = false.
Proof. vm_compute. repeat split; reflexivity. Qed.

(** The bits of a CIDR's address after its prefix do not matter: two CIDR
    strings of the same family and prefix length whose addresses agree on the
    bits of the prefix are expanded alike, iteration by iteration. *)
Theorem CIDRtoListIP_ignores_host_bits (cidr1 cidr2 : string) a1 a2 n :
  net.parseCIDRParts cidr1 = Some (a1, n) ->
  net.parseCIDRParts cidr2 = Some (a2, n) ->
  netip.BitLen a1 = netip.BitLen a2 ->
  be_value (Addr_bytes a1) / 2 ^ (netip.BitLen a1 - n)
  = be_value (Addr_bytes a2) / 2 ^ (netip.BitLen a2 - n) ->
  forall memory fuel,
    utils.CIDRtoListIP memory fuel cidr1 = utils.CIDRtoListIP memory fuel cidr2.
Proof.
  intros Hp1 Hp2 Hbits Hprefix memory fuel.
  destruct (parseCIDRParts_ok _ _ _ Hp1) as [Hok1 Hn1].
  destruct (parseCIDRParts_ok _ _ _ Hp2) as [Hok2 Hn2].
  rewrite (CIDRtoListIP_parts memory fuel _ _ _ Hp1), (CIDRtoListIP_parts memory fuel _ _ _ Hp2).
  assert (Hlen : Addr_len a1 = Addr_len a2)
    by (destruct a1, a2; simpl in Hbits |- *; first [reflexivity|discriminate Hbits]).
  assert (Hbase : block_base a1 n = block_base a2 n).
  { unfold block_base, block_size. rewrite <- Hbits in Hprefix |- *.
    pose proof (block_size_pos a1 n Hn1) as HB. unfold block_size in HB.
    rewrite !Z.mod_eq by lia. rewrite Hprefix. lia. }
  assert (Hnet : network a1 n = network a2 n).
  { unfold network. cbv zeta.
    rewrite (network_start a1 n Hok1 Hn1), (network_start a2 n Hok2 Hn2).
    rewrite Hbits, Hlen, Hbase. reflexivity. }
  rewrite Hnet, Hlen, Hbase. reflexivity.
Qed.

Lemma CIDRtoListIP_ignores_host_bits_witness :
  utils.CIDRtoListIP plenty 5 "104.16.0.2/30"
  = Some (utils.Ok ["104.16.0.0"; "104.16.0.1"; "104.16.0.2"; "104.16.0.3"]%string).
Proof.
  exact (eq_trans
           (CIDRtoListIP_ignores_host_bits "104.16.0.2/30" "104.16.0.0/30"
              (netip.Addr4 [104; 16; 0; 2]) (netip.Addr4 [104; 16; 0; 0]) 30
              eq_refl eq_refl eq_refl eq_refl plenty 5%nat)
           eq_refl).
Defined.

(** ** The text of an IPv4 address, read back *)
Section ipv4_text.
Import netip.

Lemma appendDecimal_app (b : list Z) (x : Z) : appendDecimal b x = b ++ decimal x.
Proof.
  unfold decimal, appendDecimal.
  destruct (100 <=? x), (10 <=? x); simpl; rewrite <- ?app_assoc; reflexivity.
Qed.

Lemma string4_decimal (a0 a1 a2 a3 : Z) :
  string4 [a0; a1; a2; a3]
  = decimal a0 ++ ch_dot :: decimal a1 ++ ch_dot :: decimal a2 ++ ch_dot :: decimal a3.
Proof.
  unfold string4. rewrite !appendDecimal_app. cbn [app].
  repeat (rewrite <- app_assoc; cbn [app]). reflexivity.
Qed.

Lemma digits_decimal (d : Z) : 0 <= d <= 9 -> digits d = ch_0 + d.
Proof. intros Hd. unfold digits. destruct (Z.ltb_spec d 10); [reflexivity|lia]. Qed.

Lemma parseIPv4_digit (d : Z) rest first prev val pos digLen fields :
  0 <= d <= 9 -> 0 <= val -> (digLen = 1 -> val <> 0) -> val * 10 + d <= 255 ->
  parseIPv4_loop ((ch_0 + d) :: rest) first prev val pos digLen fields
  = parseIPv4_loop rest false (ch_0 + d) (val * 10 + d) pos (digLen + 1) fields.
Proof.
  intros Hd Hval Hlead Hmax. cbn [parseIPv4_loop]. unfold ch_0, ch_9.
  destruct (Z.leb_spec 48 (48 + d)); [|lia]. destruct (Z.leb_spec (48 + d) 57); [|lia].
  cbn [andb].
  assert (Hzero : (digLen =? 1) && (val =? 0) = false).
  { destruct (Z.eqb_spec digLen 1) as [H1|]; [|reflexivity].
    destruct (Z.eqb_spec val 0) as [Hv|]; [|reflexivity]. destruct (Hlead H1 Hv). }
  rewrite Hzero. replace (48 + d - 48) with d by lia.
  destruct (Z.ltb_spec 255 (val * 10 + d)); [lia|reflexivity].
Qed.

(** One octet: its digits are read into [val], whatever follows. *)
Lemma parseIPv4_octet (x : Z) rest first prev pos fields :
  is_byte x ->
  exists last digLen,
    parseIPv4_loop (decimal x ++ rest) first prev 0 pos 0 fields
    = parseIPv4_loop rest false last x pos digLen fields
    /\ last <> ch_dot.
Proof.
  intros Hx. unfold is_byte in Hx. unfold decimal, appendDecimal.
  destruct (Z.leb_spec 100 x) as [H100|H100]; destruct (Z.leb_spec 10 x) as [H10|H10];
    try lia; cbn [app].
  - rewrite !digits_decimal by (Z.to_euclidean_division_equations; lia).
    rewrite parseIPv4_digit by (Z.to_euclidean_division_equations; lia).
    rewrite parseIPv4_digit by (Z.to_euclidean_division_equations; lia).
    rewrite parseIPv4_digit by (Z.to_euclidean_division_equations; lia).
    replace (((0 * 10 + x / 100) * 10 + x / 10 mod 10) * 10 + x mod 10) with x
      by (Z.to_euclidean_division_equations; lia).
    eexists _, _. split; [reflexivity|].
    unfold ch_0, ch_dot. Z.to_euclidean_division_equations; lia.
  - rewrite !digits_decimal by (Z.to_euclidean_division_equations; lia).
    rewrite parseIPv4_digit by (Z.to_euclidean_division_equations; lia).
    rewrite parseIPv4_digit by (Z.to_euclidean_division_equations; lia).
    replace ((0 * 10 + x / 10 mod 10) * 10 + x mod 10) with x
      by (Z.to_euclidean_division_equations; lia).
    eexists _, _. split; [reflexivity|].
    unfold ch_0, ch_dot. Z.to_euclidean_division_equations; lia.
  - rewrite !digits_decimal by (Z.to_euclidean_division_equations; lia).
    rewrite parseIPv4_digit by (Z.to_euclidean_division_equations; lia).
    replace (0 * 10 + x mod 10) with x by (Z.to_euclidean_division_equations; lia).
    eexists _, _. split; [reflexivity|].
    unfold ch_0, ch_dot. Z.to_euclidean_division_equations; lia.
Qed.

Lemma decimal_head (x : Z) :
  is_byte x -> exists d tail, decimal x = (ch_0 + d) :: tail /\ 0 <= d <= 9.
Proof.
  intros Hx. unfold is_byte in Hx. unfold decimal, appendDecimal.
  destruct (Z.leb_spec 100 x) as [H100|H100]; destruct (Z.leb_spec 10 x) as [H10|H10];
    try lia; cbn [app];
    rewrite !digits_decimal by (Z.to_euclidean_division_equations; lia);
    eexists _, _; (split; [reflexivity|Z.to_euclidean_division_equations; lia]).
Qed.

Lemma parseIPv4_dot rest prev val pos digLen fields :
  rest <> [] -> prev <> ch_dot -> (pos < 3)%nat ->
  parseIPv4_loop (ch_dot :: rest) false prev val pos digLen fields
  = parseIPv4_loop rest false ch_dot 0 (S pos) 0 (fields ++ [val mod 256]).
Proof.
  intros Hrest Hprev Hpos. cbn [parseIPv4_loop].
  change ((ch_0 <=? ch_dot) && (ch_dot <=? ch_9)) with false. cbv iota.
  rewrite Z.eqb_refl. rewrite (bool_decide_eq_false_2 _ Hrest).
  destruct (Z.eqb_spec prev ch_dot); [contradiction|]. cbn [orb].
  destruct (Nat.eqb_spec pos 3); [lia|reflexivity].
Qed.

Lemma decimal_not_nil (x : Z) (rest : list Z) : is_byte x -> decimal x ++ rest <> [].
Proof. intros Hx. destruct (decimal_head x Hx) as (d & tail & -> & _). discriminate. Qed.

(** [parseIPv4] reads back what [string4] wrote. *)
Lemma parseIPv4_string4 (a : list Z) :
  length a = 4%nat -> bytes_ok a -> parseIPv4 (string4 a) = Some (Addr4 a).
Proof.
  intros Hlen Hok. destruct a as [|a0 [|a1 [|a2 [|a3 [|]]]]]; try discriminate Hlen.
  apply Forall_cons in Hok as [H0 Hok]. apply Forall_cons in Hok as [H1 Hok].
  apply Forall_cons in Hok as [H2 Hok]. apply Forall_cons in Hok as [H3 _].
  rewrite string4_decimal. unfold parseIPv4.
  destruct (parseIPv4_octet a0 (ch_dot :: decimal a1 ++ ch_dot :: decimal a2 ++ ch_dot :: decimal a3)
              true 0 0%nat [] H0) as (l0 & g0 & -> & Hl0).
  rewrite parseIPv4_dot by (try apply decimal_not_nil; try assumption; lia).
  destruct (parseIPv4_octet a1 (ch_dot :: decimal a2 ++ ch_dot :: decimal a3)
              false ch_dot 1%nat ([] ++ [a0 mod 256]) H1) as (l1 & g1 & -> & Hl1).
  rewrite parseIPv4_dot by (try apply decimal_not_nil; try assumption; lia).
  destruct (parseIPv4_octet a2 (ch_dot :: decimal a3)
              false ch_dot 2%nat (([] ++ [a0 mod 256]) ++ [a1 mod 256]) H2) as (l2 & g2 & -> & Hl2).
  rewrite parseIPv4_dot; [|rewrite <- (app_nil_r (decimal a3)); apply decimal_not_nil; assumption
                          |assumption|lia].
  rewrite <- (app_nil_r (decimal a3)).
  destruct (parseIPv4_octet a3 [] false ch_dot 3%nat
              ((([] ++ [a0 mod 256]) ++ [a1 mod 256]) ++ [a2 mod 256]) H3) as (l3 & g3 & -> & Hl3).
  cbn [parseIPv4_loop]. simpl. unfold is_byte in *.
  rewrite !Z.mod_small by lia. reflexivity.
Qed.

Lemma ParseAddr_scan_decimal (whole : list Z) (x : Z) (rest : list Z) :
  is_byte x -> ParseAddr_scan whole (decimal x ++ ch_dot :: rest) = parseIPv4 whole.
Proof.
  intros Hx. unfold is_byte in Hx. unfold decimal, appendDecimal.
  assert (Hdigit : forall d tail, 0 <= d <= 9 ->
            ParseAddr_scan whole (digits d :: tail) = ParseAddr_scan whole tail).
  { intros d tail Hd. rewrite digits_decimal by lia. cbn [ParseAddr_scan].
    unfold ch_0, ch_dot, ch_colon, ch_percent.
    destruct (Z.eqb_spec (48 + d) 46); [lia|]. destruct (Z.eqb_spec (48 + d) 58); [lia|].
    destruct (Z.eqb_spec (48 + d) 37); [lia|]. reflexivity. }
  assert (Hm : forall y, 0 <= y mod 10 <= 9) by (intros y; pose proof (Z.mod_pos_bound y 10); lia).
  assert (Hd2 : 100 <= x -> 0 <= x / 100 <= 9).
  { intros H. split; [apply Z.div_pos; lia|apply Z.div_le_upper_bound; lia]. }
  destruct (100 <=? x) eqn:H100; destruct (10 <=? x); cbn [app];
    rewrite ?Hdigit by (try apply Hm; apply Hd2; apply Z.leb_le, H100);
    cbn [ParseAddr_scan]; rewrite Z.eqb_refl; reflexivity.
Qed.

Lemma ParseAddr_string4 (a : list Z) :
  length a = 4%nat -> bytes_ok a -> ParseAddr (string4 a) = Some (Addr4 a).
Proof.
  intros Hlen Hok. rewrite <- (parseIPv4_string4 a Hlen Hok). unfold ParseAddr.
  destruct a as [|a0 [|a1 [|a2 [|a3 [|]]]]]; try discriminate Hlen.
  rewrite string4_decimal at 2. apply ParseAddr_scan_decimal.
  apply Forall_cons in Hok as [H0 _]. exact H0.
Qed.

End ipv4_text.

Section ipv4_text_back.
Import netip.

Lemma byte_of_ascii_of_byte (b : Z) : is_byte b -> byte_of_ascii (ascii_of_byte b) = b.
Proof.
  intros Hb. unfold is_byte in Hb. unfold byte_of_ascii, ascii_of_byte.
  rewrite N_ascii_embedding by lia. apply Z2N.id. lia.
Qed.

Lemma bytes_of_string_of_bytes (l : list Z) :
  bytes_ok l -> bytes_of_string (string_of_bytes l) = l.
Proof.
  induction 1 as [|b l Hb Hl IH]; [reflexivity|].
  simpl. rewrite IH, (byte_of_ascii_of_byte b Hb). reflexivity.
Qed.

Lemma decimal_ok (x : Z) : is_byte x -> bytes_ok (decimal x).
Proof.
  intros Hx. unfold is_byte in Hx. unfold decimal, appendDecimal.
  assert (Hdigit : forall d, 0 <= d <= 9 -> is_byte (digits d)).
  { intros d Hd. rewrite digits_decimal by lia. unfold is_byte, ch_0. lia. }
  destruct (Z.leb_spec 100 x); destruct (Z.leb_spec 10 x); cbn [app];
    repeat constructor; apply Hdigit; Z.to_euclidean_division_equations; lia.
Qed.

Lemma string4_ok (a : list Z) : bytes_ok a -> bytes_ok (string4 a).
Proof.
  intros Hok. destruct a as [|a0 [|a1 [|a2 [|a3 [|]]]]]; try apply Forall_nil_2.
  apply Forall_cons in Hok as [H0 Hok]. apply Forall_cons in Hok as [H1 Hok].
  apply Forall_cons in Hok as [H2 Hok]. apply Forall_cons in Hok as [H3 _].
  rewrite string4_decimal.
  assert (Hdot : is_byte ch_dot) by (unfold is_byte, ch_dot; lia).
  unfold bytes_ok. repeat first [rewrite Forall_app|rewrite Forall_cons].
  repeat match goal with |- _ /\ _ => split end; try apply decimal_ok; assumption.
Qed.

(** [net.ParseIP] reads back the text [IP.String] gives a 4-byte address. *)
Lemma ParseIP_String_v4 (ip : list Z) :
  length ip = 4%nat -> bytes_ok ip ->
  net.ParseIP (net.String ip) = v4InV6Prefix ++ ip
  /\ net.To4 (net.ParseIP (net.String ip)) = ip
  /\ utils.IsIPv6 (net.String ip) = false.
Proof.
  intros Hlen Hok.
  assert (Htext : net.String ip = string_of_bytes (string4 ip)).
  { unfold net.String. rewrite (To4_len4 ip Hlen), Hlen. reflexivity. }
  assert (Hparse : net.ParseIP (net.String ip) = v4InV6Prefix ++ ip).
  { unfold net.ParseIP.
    rewrite Htext, (bytes_of_string_of_bytes _ (string4_ok ip Hok)),
      (ParseAddr_string4 ip Hlen Hok). reflexivity. }
  assert (Hto4 : net.To4 (v4InV6Prefix ++ ip) = ip).
  { destruct ip as [|a0 [|a1 [|a2 [|a3 [|]]]]]; try discriminate Hlen. reflexivity. }
  split; [exact Hparse|]. split; [rewrite Hparse; exact Hto4|].
  unfold utils.IsIPv6. cbv zeta. rewrite Hparse, Hto4.
  destruct ip as [|a0 ip]; [discriminate Hlen|]. reflexivity.
Qed.

End ipv4_text_back.

(** The texts [CIDRtoListIP] returns for an IPv4 CIDR are pairwise
    distinct, and each is read back by [net.ParseIP] as the address it was
    written from: the [i]-th one is the [i]-th address of the block, and
    [IsIPv6] answers false for it. *)
Theorem CIDRtoListIP_IPv4_texts (memory : nat -> bool) (cidr : string) (a : list Z) (n : Z)
    (IPs : list string) :
  net.parseCIDRParts cidr = Some (netip.Addr4 a, n) ->
  returns memory cidr (utils.Ok IPs) ->
  NoDup IPs
  /\ forall (i : nat) (text : string), IPs !! i = Some text ->
       net.To4 (net.ParseIP text) = be_bytes 4 (block_base (netip.Addr4 a) n + Z.of_nat i)
       /\ Z.of_nat i < 2 ^ (32 - n)
       /\ utils.IsIPv6 text = false.
Proof.
  intros Hparts Hret.
  destruct (parseCIDRParts_ok _ _ _ Hparts) as [Hok Hn]. cbn [netip.BitLen] in Hn.
  assert (Hn1 : 1 <= n).
  { destruct (Z.eq_dec n 0) as [->|]; [|lia]. destruct Hret as [fuel Hfuel].
    destruct (CIDRtoListIP_whole_v4 memory cidr _ Hparts eq_refl) as [Hnever _].
    specialize (Hnever fuel _ Hfuel). discriminate Hnever. }
  assert (Hall : utils.Ok IPs
                 = utils.Ok (addresses (netip.Addr4 a) (block_base (netip.Addr4 a) n)
                               (block_size (netip.Addr4 a) n))).
  { destruct (CIDRtoListIP_regular memory cidr _ n Hparts Hn1 eq_refl) as [[_ Hblock]|[_ Hdies]].
    - apply (returns_functional memory cidr); assumption.
    - pose proof (returns_functional memory cidr _ _ Hret Hdies) as Heq. discriminate Heq. }
  apply Ok_inj in Hall. subst IPs. unfold addresses. cbn [Addr_len].
  set (base := block_base (netip.Addr4 a) n). set (size := block_size (netip.Addr4 a) n).
  assert (Hback : forall v, net.To4 (net.ParseIP (net.String (be_bytes 4 v))) = be_bytes 4 v
                            /\ utils.IsIPv6 (net.String (be_bytes 4 v)) = false).
  { intros v. destruct (ParseIP_String_v4 (be_bytes 4 v) (length_be_bytes 4 v) (be_bytes_ok 4 v))
      as (_ & H1 & H2). split; assumption. }
  assert (Hrange : 0 <= base /\ base + size <= 2 ^ 32).
  { pose proof (block_size_pos (netip.Addr4 a) n Hn) as HB. fold size in HB.
    pose proof (A_range (netip.Addr4 a) n Hok Hn) as HA. fold size in HA.
    destruct (base_quot _ _ _ HB HA) as [Hbase Hq].
    assert (Hspace : size * 2 ^ n = 2 ^ 32).
    { unfold size, block_size. cbn [netip.BitLen]. rewrite <- Z.pow_add_r by lia. f_equal. lia. }
    unfold base, block_base. fold size. rewrite Hbase. nia. }
  split.
  - apply NoDup_fmap_2_strong; [|apply NoDup_seqZ].
    intros v w Hv Hw Heq. apply elem_of_seqZ in Hv. apply elem_of_seqZ in Hw.
    apply (f_equal (fun t => net.To4 (net.ParseIP t))) in Heq.
    rewrite (proj1 (Hback v)), (proj1 (Hback w)) in Heq.
    apply (f_equal be_value) in Heq. rewrite !be_bytes_small in Heq; [exact Heq|simpl; lia..].
  - intros i text Hi. rewrite list_lookup_fmap in Hi.
    destruct (seqZ base size !! i) as [v|] eqn:Hv; [|discriminate Hi].
    apply lookup_seqZ in Hv as [-> Hlt]. injection Hi as <-.
    split; [apply Hback|]. split; [exact Hlt|apply Hback].
Qed.

Lemma CIDRtoListIP_IPv4_texts_witness :
  NoDup ["104.16.0.0"; "104.16.0.1"; "104.16.0.2"; "104.16.0.3"]%string
  /\ forall (i : nat) (text : string),
       ["104.16.0.0"; "104.16.0.1"; "104.16.0.2"; "104.16.0.3"]%string !! i = Some text ->
       net.To4 (net.ParseIP text)
       = be_bytes 4 (block_base (netip.Addr4 [104; 16; 0; 0]) 30 + Z.of_nat i)
       /\ Z.of_nat i < 2 ^ (32 - 30)
       /\ utils.IsIPv6 text = false.
Proof.
  apply (CIDRtoListIP_IPv4_texts plenty "104.16.0.0/30" [104; 16; 0; 0] 30); [reflexivity|].
  exists 5%nat. vm_compute. reflexivity.
Defined.

(** ** The history files over several calls *)

(** The history accumulates: after a run of one or more appends that began
    on a missing or empty file and all returned [nil], with no carriage
    return directly followed by a line feed in any field, the file reads as
    the header and the rows of all the batches, in the order they were
    appended, and [loadResultsFromCSV] returns what [gocsv] decodes from
    them: one record for each record appended, at its place (the records
    appended themselves, when [gocsv] decodes each from its own texts), and
    the [nil] slice when every batch was empty. *)
Theorem history_accumulates {R : Type} `{RowCodec R} `{!RowCodecLaws R}
    (fs fs' : gmap string file) (filePath : string) (calls : list (os.Faults * list R)) :
  let records := concat (map snd calls) in
  let read := history.loadResultsFromCSV fs' filePath in
  fs !! filePath = None \/ fs !! filePath = Some (File []) ->
  calls <> [] ->
  cleanBatch records ->
  appendAll fs filePath calls = Some fs' ->
  recordsOf fs' filePath = inr (csvHeader :: map csvFields records)
  /\ read = loaded (gocsv.readTo (csvHeader :: map csvFields records))
  /\ (records = [] -> read = inr None)
  /\ (forall results,
      read = inr (Some results) ->
      Forall2 (fun row r => csvDecode csvHeader (csvFields r) = inr row) results records)
  /\ (records <> [] ->
      Forall (fun r => csvDecode csvHeader (csvFields r) = inr r) records ->
      read = inr (Some records)).
Proof.
  cbv zeta. intros Hfresh Hcalls Hclean Hrun.
  destruct calls as [|[faults batch] calls]; [contradiction|].
  apply loadResultsFromCSV_written; [|exact Hclean].
  exact (appendAll_fresh faults batch calls fs fs' filePath Hfresh Hrun).
Qed.

Lemma history_accumulates_witness :
  exists fs',
    appendAll ∅ history.httpTesterHistoryFile
      [(os.noFaults, sampleBatch); (os.noFaults, []); (os.noFaults, rev sampleBatch)] = Some fs'
    /\ history.loadResultsFromCSV fs' history.httpTesterHistoryFile
       = inr (Some (sampleBatch ++ rev sampleBatch)).
Proof.
  destruct (appendAll_noFaults [sampleBatch; []; rev sampleBatch] ∅
              history.httpTesterHistoryFile ltac:(rewrite lookup_empty; discriminate))
    as [fs' Hrun].
  exists fs'. split; [exact Hrun|].
  refine (eq_trans
            (proj1 (proj2 (history_accumulates ∅ fs' history.httpTesterHistoryFile _
                             (or_introl (lookup_empty _)) _ _ Hrun)))
            eq_refl).
  - discriminate.
  - repeat constructor.
Defined.

(** [loadResultsFromCSV] leaves the slice [nil] without an error in two
    cases only: the file does not exist, or it holds one record and no more
    (a header with no row after it).  For a file that exists it returns what
    [gocsv.UnmarshalFile] returns, an error after "failed to parse CSV file:
    ": no error of the CSV reader or of [gocsv] reads "EOF", so the
    comparison with "EOF" never holds.  A file that cannot be opened gives the
    error of [os.Open] as it is. *)
Theorem loadResultsFromCSV_nil_slice {R : Type} `{RowCodec R}
    (fs : gmap string file) (filePath : string) :
  (history.loadResultsFromCSV (R := R) fs filePath = inr None
   <-> fs !! filePath = None
       \/ exists content headers,
            fs !! filePath = Some (File content)
            /\ csv.ReadAll content = inr [headers]
            /\ csvHeader (R := R) <> [])
  /\ (forall content, fs !! filePath = Some (File content) ->
      history.loadResultsFromCSV (R := R) fs filePath = loaded (gocsv.UnmarshalFile content))
  /\ (fs !! filePath = Some NoAccess ->
      history.loadResultsFromCSV (R := R) fs filePath
      = inl (os.PathError "open" filePath "permission denied" false)).
Proof.
  split; [|split; [apply loadResultsFromCSV_loaded|]].
  - split.
    + intros Hnil. destruct (fs !! filePath) as [[content|]|] eqn:Hlookup; [| |left; reflexivity].
      * right. rewrite (loadResultsFromCSV_loaded fs filePath content Hlookup) in Hnil.
        unfold loaded, gocsv.UnmarshalFile in Hnil.
        destruct (csv.ReadAll content) as [err|csvRows] eqn:Hread; [discriminate Hnil|].
        destruct csvRows as [|headers [|csvRow body]]; cbn [map gocsv.readTo] in Hnil.
        -- discriminate Hnil.
        -- exists content, headers. split; [reflexivity|]. split; [exact Hread|].
           intros Hnone. rewrite Hnone in Hnil. discriminate Hnil.
        -- destruct (_ =? 0)%nat; [discriminate Hnil|].
           destruct (gocsv.decodeBody _ _ _); discriminate Hnil.
      * unfold history.loadResultsFromCSV, os.Open in Hnil. rewrite Hlookup in Hnil.
        discriminate Hnil.
    + intros [Hnone|(content & headers & Hfile & Hread & Htags)].
      * unfold history.loadResultsFromCSV, os.Open. rewrite Hnone. reflexivity.
      * rewrite (loadResultsFromCSV_loaded fs filePath content Hfile).
        unfold gocsv.UnmarshalFile. rewrite Hread. cbn [map gocsv.readTo].
        destruct (csvHeader (R := R)); [contradiction|reflexivity].
  - intros Hno. unfold history.loadResultsFromCSV, os.Open. rewrite Hno. reflexivity.
Qed.

(** Clearing the history.  When the file is there and the operating system
    refuses to remove it, a POST to clear_history answers 500 with the
    handler's message and the error of [os.Remove], and the files are as they
    were.  Otherwise it answers 200 and leaves no history file, whether there
    was one or not, so that clearing again is the same; the other history
    file is left as it was; the HTTP tester's history is then the empty
    array and the scanner's history is [null].  The next append that returns
    [nil] starts a file with a header: [loadResultsFromCSV] then returns what
    [gocsv] decodes from the rows of that append alone, and after an append
    of no record the two histories are the empty array and [null] again. *)
Theorem clear_history_forgets {R : Type} `{RowCodec R} `{!RowCodecLaws R}
    (methodNotAllowed : Response) (faults : os.Faults) (fs : gmap string file) :
  let post := {| web.Method := "POST" |} in
  let get := {| web.Method := "GET" |} in
  let ok body := {| StatusCode := 200; Body := body |} in
  let cleared := ok (JObject [("status"%string, JString "History cleared")]) in
  let failed text := {| StatusCode := 500; Body := JObject [("error"%string, JString text)] |} in
  let http := history.httpTesterHistoryFile in
  let cf := history.cfScannerHistoryFile in
  (forall msg, is_Some (fs !! http) -> os.onRemove faults = Some msg ->
   history.handleHttpTestClearHistory methodNotAllowed faults fs post
   = (fs, failed ("Failed to clear http test history file: "
                  +:+ Error (os.PathError "remove" http msg false))))
  /\ (forall msg, is_Some (fs !! cf) -> os.onRemove faults = Some msg ->
      history.handleCfScannerClearHistory methodNotAllowed faults fs post
      = (fs, failed ("Failed to clear history file: "
                     +:+ Error (os.PathError "remove" cf msg false))))
  /\ (fs !! http = None \/ os.onRemove faults = None ->
      history.handleHttpTestClearHistory methodNotAllowed faults fs post
      = (delete http fs, cleared)
      /\ history.handleHttpTestClearHistory methodNotAllowed faults (delete http fs) post
         = (delete http fs, cleared)
      /\ delete http fs !! cf = fs !! cf
      /\ history.handleHttpTestHistory (R := R) methodNotAllowed (delete http fs) get
         = ok (JArray []))
  /\ (fs !! cf = None \/ os.onRemove faults = None ->
      history.handleCfScannerClearHistory methodNotAllowed faults fs post
      = (delete cf fs, cleared)
      /\ history.handleCfScannerClearHistory methodNotAllowed faults (delete cf fs) post
         = (delete cf fs, cleared)
      /\ delete cf fs !! http = fs !! http
      /\ history.handleCfScannerHistory (R := R) methodNotAllowed (delete cf fs) get
         = ok JNull)
  /\ (forall filePath faults' (batch : list R) fs',
      cleanBatch batch ->
      history.appendResultsToCSV faults' (delete filePath fs) filePath batch = (fs', None) ->
      recordsOf fs' filePath = inr (csvHeader :: map csvFields batch)
      /\ history.loadResultsFromCSV fs' filePath
         = loaded (gocsv.readTo (csvHeader :: map csvFields batch))
      /\ (batch = [] -> filePath = http ->
          history.handleHttpTestHistory (R := R) methodNotAllowed fs' get = ok (JArray []))
      /\ (batch = [] -> filePath = cf ->
          history.handleCfScannerHistory (R := R) methodNotAllowed fs' get = ok JNull)).
Proof.
  cbv zeta.
  assert (Hnone : forall fs0 filePath,
            history.loadResultsFromCSV (R := R) (delete filePath fs0) filePath = inr None).
  { intros fs0 filePath. unfold history.loadResultsFromCSV, os.Open.
    rewrite lookup_delete_eq. reflexivity. }
  assert (Hhttp : forall fs0,
            fs0 !! history.httpTesterHistoryFile = None \/ os.onRemove faults = None ->
            history.handleHttpTestClearHistory methodNotAllowed faults fs0
              {| web.Method := "POST" |}
            = (delete history.httpTesterHistoryFile fs0,
               {| StatusCode := 200;
                  Body := JObject [("status"%string, JString "History cleared")] |})).
  { intros fs0 Hgoes. unfold history.handleHttpTestClearHistory, os.Remove. cbn [web.Method].
    destruct (fs0 !! history.httpTesterHistoryFile) eqn:Hfile.
    - destruct Hgoes as [Hgone|Hgoes]; [discriminate Hgone|]. rewrite Hgoes. reflexivity.
    - cbn. rewrite delete_id by exact Hfile. reflexivity. }
  assert (Hcf : forall fs0,
            fs0 !! history.cfScannerHistoryFile = None \/ os.onRemove faults = None ->
            history.handleCfScannerClearHistory methodNotAllowed faults fs0
              {| web.Method := "POST" |}
            = (delete history.cfScannerHistoryFile fs0,
               {| StatusCode := 200;
                  Body := JObject [("status"%string, JString "History cleared")] |})).
  { intros fs0 Hgoes. unfold history.handleCfScannerClearHistory, os.Remove. cbn [web.Method].
    destruct (fs0 !! history.cfScannerHistoryFile) eqn:Hfile.
    - destruct Hgoes as [Hgone|Hgoes]; [discriminate Hgone|]. rewrite Hgoes. reflexivity.
    - cbn. rewrite delete_id by exact Hfile. reflexivity. }
  split; [|split; [|split; [|split]]].
  - intros msg [f Hfile] Hrefused.
    unfold history.handleHttpTestClearHistory, os.Remove. cbn [web.Method].
    rewrite Hfile, Hrefused. reflexivity.
  - intros msg [f Hfile] Hrefused.
    unfold history.handleCfScannerClearHistory, os.Remove. cbn [web.Method].
    rewrite Hfile, Hrefused. reflexivity.
  - intros Hgoes. split; [apply Hhttp, Hgoes|]. split; [|split].
    + rewrite Hhttp by (left; apply lookup_delete_eq). rewrite delete_delete_eq. reflexivity.
    + apply lookup_delete_ne. discriminate.
    + unfold history.handleHttpTestHistory. cbn [web.Method]. rewrite Hnone. reflexivity.
  - intros Hgoes. split; [apply Hcf, Hgoes|]. split; [|split].
    + rewrite Hcf by (left; apply lookup_delete_eq). rewrite delete_delete_eq. reflexivity.
    + apply lookup_delete_ne. discriminate.
    + unfold history.handleCfScannerHistory. cbn [web.Method]. rewrite Hnone. reflexivity.
  - intros filePath faults' batch fs' Hclean Hcall.
    pose proof (appendResultsToCSV_nil _ _ _ _ _ Hcall) as Hfile.
    rewrite (contentOf_fresh (delete filePath fs) filePath) in Hfile
      by (left; apply lookup_delete_eq).
    cbn [app] in Hfile. rewrite toWrite_empty in Hfile.
    destruct (loadResultsFromCSV_written fs' filePath batch Hfile Hclean)
      as (Hrecords & Hload & Hnil & _).
    split; [exact Hrecords|]. split; [exact Hload|]. split.
    + intros Hbatch ->. unfold history.handleHttpTestHistory. cbn [web.Method].
      rewrite (Hnil Hbatch). reflexivity.
    + intros Hbatch ->. unfold history.handleCfScannerHistory. cbn [web.Method].
      rewrite (Hnil Hbatch). reflexivity.
Qed.

Lemma clear_history_forgets_witness :
  let nope := web.writeJSONError "Method not allowed" 405 in
  let http := history.httpTesterHistoryFile in
  let old := <[http := File [104; 105; 10]]> ∅ in
  let post := {| web.Method := "POST" |} in
  let denied := {| os.onCreate := None; os.onStat := None; os.onWrite := None;
                   os.onRemove := Some "permission denied"%string |} in
  history.handleHttpTestClearHistory nope denied old post
  = (old, {| StatusCode := 500;
             Body := JObject [("error"%string,
                               JString ("Failed to clear http test history file: "
                                        +:+ "remove http_test_history.csv: permission denied"))] |})
  /\ history.handleHttpTestClearHistory nope os.noFaults old post
     = (delete http old,
        {| StatusCode := 200; Body := JObject [("status"%string, JString "History cleared")] |})
  /\ history.loadResultsFromCSV
       (fst (history.appendResultsToCSV os.noFaults (delete http old) http sampleBatch)) http
     = inr (Some sampleBatch).
Proof.
  cbv zeta. split; [|split].
  - apply (proj1 (clear_history_forgets (R := textrow.Row)
                    (web.writeJSONError "Method not allowed" 405)
                    {| os.onCreate := None; os.onStat := None; os.onWrite := None;
                       os.onRemove := Some "permission denied"%string |}
                    (<[history.httpTesterHistoryFile := File [104; 105; 10]]> ∅))
             "permission denied"%string).
    + eexists. apply lookup_insert_eq.
    + reflexivity.
  - apply (proj1 (proj2 (proj2 (clear_history_forgets (R := textrow.Row)
                    (web.writeJSONError "Method not allowed" 405) os.noFaults
                    (<[history.httpTesterHistoryFile := File [104; 105; 10]]> ∅))))).
    right. reflexivity.
  - rewrite appendResultsToCSV_new by apply lookup_delete_eq. cbn [fst].
    destruct (clear_history_forgets (R := textrow.Row)
                (web.writeJSONError "Method not allowed" 405) os.noFaults
                (<[history.httpTesterHistoryFile := File [104; 105; 10]]> ∅))
      as (_ & _ & _ & _ & Hnext).
    refine (eq_trans
              (proj1 (proj2 (Hnext history.httpTesterHistoryFile os.noFaults sampleBatch _ _
                               (appendResultsToCSV_new _ _ _ (lookup_delete_eq _ _)))))
              eq_refl).
    repeat constructor.
Defined.

(** ** The routes *)

Section route_facts.
Variable manager : Type.
Variable ProxyConfig Options HttpTestRequest ScannerConfig : Type.
Variable StartProxy : ProxyConfig -> manager -> manager * option error.
Variable StopProxy : manager -> manager * option error.
Variable RotateProxy : manager -> manager * option error.
Variable GetProxyStatus : manager -> manager * string.
Variable GetProxyDetails : manager -> manager * (error + JSON).
Variable StartHttpTest : HttpTestRequest -> manager -> manager * option error.
Variable GetHttpTestStatus : manager -> manager * string.
Variable StopHttpTest : manager -> manager.
Variable StartScanner : ScannerConfig -> manager -> manager * option error.
Variable StopScanner : manager -> manager.
Variable GetScannerStatus : manager -> manager * bool.
Variable decodeProxyConfig : string -> error + ProxyConfig.
Variable decodeHttpTest : string -> error + (list string * Z * Options).
Variable decodeScannerConfig : string -> error + ScannerConfig.
Variable mkHttpTestRequest : list string -> Z -> Options -> HttpTestRequest.
Variable methodNotAllowed : Response.
Context {HttpRow ScanRow : Type} {httpCodec : RowCodec HttpRow} {scanCodec : RowCodec ScanRow}.
Variable Get : string -> web.fetched.
Variable TrimSpace : string -> string.
Variable order : list string.
Variable faults : os.Faults.

Local Abbreviation routes :=
  (api.RegisterRoutes manager ProxyConfig Options HttpTestRequest ScannerConfig
     StartProxy StopProxy RotateProxy GetProxyStatus GetProxyDetails StartHttpTest
     GetHttpTestStatus StopHttpTest StartScanner StopScanner GetScannerStatus
     decodeProxyConfig decodeHttpTest decodeScannerConfig mkHttpTestRequest
     methodNotAllowed (HttpRow := HttpRow) (ScanRow := ScanRow) Get TrimSpace order faults).

Lemma wrong_method (r : web.Request) (method : string) :
  web.Method r <> method -> negb (String.eqb (web.Method r) method) = true.
Proof. intros Hne. destruct (String.eqb_spec (web.Method r) method); [contradiction|reflexivity]. Qed.

(** The sixteen patterns [RegisterRoutes] registers are pairwise distinct.
    A request whose method is not the one its route answers to gets the
    reply of [methodNotAllowed] and changes nothing: neither the manager nor a
    history file.  A POST to one of the three start routes whose body does not
    decode is answered 400 with "Invalid request body: " and the error, and
    does not reach the manager either. *)
Theorem requests_that_change_nothing :
  NoDup (map fst routes) /\ length routes = 16%nat
  /\ (forall pattern h, In (pattern, h) routes ->
      forall r body w, web.Method r <> acceptedMethod pattern ->
      h r body w = (w, methodNotAllowed))
  /\ (forall pattern h r body w err,
      In (pattern, h) routes -> web.Method r = "POST"%string ->
      (pattern = "/api/v1/proxy/start"%string /\ decodeProxyConfig body = inl err)
      \/ (pattern = "/api/v1/http/test"%string /\ decodeHttpTest body = inl err)
      \/ (pattern = "/api/v1/scanner/cf/start"%string /\ decodeScannerConfig body = inl err) ->
      h r body w
      = (w, {| StatusCode := 400;
               Body := JObject [("error"%string,
                                 JString ("Invalid request body: " +:+ Error err))] |})).
Proof.
  split; [|split; [reflexivity|split]].
  - unfold api.RegisterRoutes. cbn [map fst].
    apply (bool_decide_unpack _). vm_compute. reflexivity.
  - intros pattern h Hin r body [m fs] Hmethod. unfold api.RegisterRoutes in Hin. cbn [In] in Hin.
    repeat (destruct Hin as [Heq|Hin];
            [injection Heq as <- <-;
             apply wrong_method in Hmethod;
             change (negb (web.Method r =? "POST")%string = true) in Hmethod
             || change (negb (web.Method r =? "GET")%string = true) in Hmethod|]);
      try contradiction;
      unfold api.handleProxyStart, api.handleProxyStop, api.handleProxyRotate,
        api.handleProxyStatus, api.handleProxyDetails, api.handleHttpTest,
        api.handleHttpTestStatus, api.handleHttpTestStop, api.handleHttpTestHistory,
        api.handleHttpTestClearHistory, api.handleCfScannerStart, api.handleCfScannerStop,
        api.handleCfScannerStatus, api.handleCfScannerHistory, api.handleCfScannerClearHistory,
        api.handleCfScannerRanges, web.handleProxyStop, web.handleProxyRotate,
        history.handleHttpTestHistory, history.handleHttpTestClearHistory,
        history.handleCfScannerHistory, history.handleCfScannerClearHistory,
        web.handleCfScannerRanges, web.MethodPost, web.MethodGet;
      rewrite Hmethod; reflexivity.
  - intros pattern h r body w err Hin Hpost Hbad. unfold api.RegisterRoutes in Hin. cbn [In] in Hin.
    repeat (destruct Hin as [Heq|Hin]; [injection Heq as <- <-|]); try contradiction;
      destruct Hbad as [[Hp Hd]|[[Hp Hd]|[Hp Hd]]]; try discriminate Hp;
      unfold api.handleProxyStart, api.handleHttpTest, api.handleCfScannerStart, web.MethodPost;
      rewrite Hpost, Hd; reflexivity.
Qed.

End route_facts.

(** ** The WebSocket service: connection *)

Section connection_facts.
Variable JSON_parse : string -> option JSON.
Variable toText : option JSON -> option string.
Variable throws : nat -> bool.

Local Abbreviation step := (client.step JSON_parse toText throws).
Local Abbreviation run := (client.run JSON_parse toText throws).

Lemma connection_callListener ev data c cb :
  connection (client.callListener throws ev data c cb) = connection c.
Proof. unfold client.callListener. destruct (throws cb); reflexivity. Qed.

Lemma connection_emitLog data c : connection (client.emitLog throws data c) = connection c.
Proof.
  unfold client.emitLog, client.emit.
  destruct (client.ownSet (client.listeners c) "log") as [set|]; [|destruct (bool_decide _); reflexivity].
  revert c. induction set as [|cb set IH]; intros c; [reflexivity|].
  cbn [fold_left]. rewrite IH. apply connection_callListener.
Qed.

Lemma connection_stop c : connection (client.stopHttpResultBatching c) = connection c.
Proof.
  unfold client.stopHttpResultBatching.
  destruct (websocket.httpResultBuffer _ _); reflexivity.
Qed.

Lemma connection_flush c : connection (client.flushHttpResultBuffer c) = connection c.
Proof.
  unfold client.flushHttpResultBuffer.
  destruct (websocket.httpResultBuffer _ _); reflexivity.
Qed.

Lemma connection_store call c : connection (client.store call c) = connection c.
Proof. reflexivity. Qed.

Lemma connection_consoleLog label c : connection (client.consoleLog label c) = connection c.
Proof. reflexivity. Qed.

Lemma connection_withBatching c b : connection (client.withBatching c b) = connection c.
Proof. reflexivity. Qed.

Lemma connection_dispatch rawData type data c :
  connection (client.dispatch toText throws rawData type data c) = connection c.
Proof.
  unfold client.dispatch, client.invalidData, client.pushHttpResult,
    client.startHttpResultBatching.
  destruct (toText type);
  repeat match goal with
         | |- context [if ?b then _ else _] => destruct b
         end;
    repeat first [rewrite connection_store|rewrite connection_consoleLog
                 |rewrite connection_withBatching|rewrite connection_emitLog
                 |rewrite connection_stop];
    reflexivity.
Qed.

Lemma connection_handleMessage rawData c :
  connection (client.handleMessage JSON_parse toText throws rawData c) = connection c.
Proof.
  unfold client.handleMessage, client.invalidData.
  destruct (String.eqb rawData EmptyString); [reflexivity|].
  assert (Hinvalid : connection
            (client.emitLog throws
               (Some (JString (client.esc +:+ "[31m[WebSocket] Received invalid data: "
                                 +:+ rawData +:+ client.esc +:+ "[0m")))
               (client.consoleLog "WebSocket received non-JSON message:" c)) = connection c)
    by (rewrite connection_emitLog; reflexivity).
  destruct (JSON_parse rawData) as [message|]; [|exact Hinvalid].
  destruct (client.property message "type"); [|exact Hinvalid].
  destruct (client.property message "data"); [|exact Hinvalid].
  apply connection_dispatch.
Qed.

(** The invariant depends on the connection part alone. *)
Lemma sockets_inv_same c c' : connection c' = connection c -> sockets_inv c -> sockets_inv c'.
Proof.
  unfold connection. intros [= Hws Hstates Htimeouts _] [H1 H2].
  split; unfold client.stateOf in *; rewrite ?Hws, ?Hstates; assumption.
Qed.

Lemma reconnect_pending_same c c' :
  connection c' = connection c -> reconnect_pending c -> reconnect_pending c'.
Proof.
  unfold connection, reconnect_pending. intros [= Hws Hstates Htimeouts _] H.
  unfold client.stateOf in *. rewrite Hws, Hstates, Htimeouts. exact H.
Qed.

Lemma connection_inv_same c c' : connection c' = connection c -> connection_inv c -> connection_inv c'.
Proof.
  intros Hsame [H1 H2]. split; [eapply sockets_inv_same|eapply reconnect_pending_same]; eassumption.
Qed.

Lemma stateOf_setState c s state s' :
  (s < length (client.readyState c))%nat ->
  client.stateOf (client.setState s state c) s' = if Nat.eqb s' s then state else client.stateOf c s'.
Proof.
  intros Hs. unfold client.stateOf, client.setState. cbn [client.readyState].
  destruct (Nat.eqb_spec s' s) as [->|Hne].
  - rewrite list_lookup_insert_eq by exact Hs. reflexivity.
  - rewrite list_lookup_insert_ne by congruence. reflexivity.
Qed.

(** After [connect], [this.ws] is connecting or open. *)
Lemma inv_connect c : sockets_inv c -> connection_inv (client.connect c).
Proof.
  intros [H1 H2]. unfold client.connect.
  destruct (match client.ws c with
            | Some socket => client.stateOf c socket <? client.CLOSING
            | None => false
            end) eqn:Hlive.
  - split; [split; assumption|]. intros s Hs Hclosed. rewrite Hs in Hlive.
    apply Z.ltb_lt in Hlive. rewrite Hclosed in Hlive. unfold client.CLOSED, client.CLOSING in Hlive. lia.
  - assert (Hdead : forall s, (s < length (client.readyState c))%nat ->
                              ~ client.stateOf c s < client.CLOSING).
    { intros s Hs Hstate. specialize (H2 s Hs Hstate). rewrite H2 in Hlive.
      apply Z.ltb_ge in Hlive. lia. }
    split; [split|]; unfold reconnect_pending;
      cbn [client.ws client.readyState client.timeouts]; unfold client.stateOf;
      cbn [client.readyState]; rewrite ?length_app; cbn [length].
    + intros s' [= <-]. lia.
    + intros s' Hs' Hstate.
      destruct (Nat.eq_dec s' (length (client.readyState c))) as [->|Hne]; [reflexivity|].
      rewrite lookup_app_l in Hstate by lia. destruct (Hdead s' ltac:(lia) Hstate).
    + intros s' [= <-]. rewrite lookup_app_r by lia. rewrite Nat.sub_diag. cbn.
      unfold client.CONNECTING, client.CLOSED. discriminate.
Qed.

(** A socket leaves the states connecting and open. *)
Lemma sockets_inv_setState c s state :
  (s < length (client.readyState c))%nat -> client.CLOSING <= state ->
  sockets_inv c -> sockets_inv (client.setState s state c).
Proof.
  intros Hs Hstate [H1 H2]. split.
  - intros s' Hs'. cbn [client.readyState client.setState]. rewrite length_insert.
    apply H1. exact Hs'.
  - intros s' Hs' Hlive. cbn [client.readyState client.setState] in Hs'.
    rewrite length_insert in Hs'. rewrite (stateOf_setState c s _ s' Hs) in Hlive.
    destruct (Nat.eqb_spec s' s) as [->|Hne]; [lia|]. exact (H2 s' Hs' Hlive).
Qed.

Lemma sockets_inv_closeCurrent c : sockets_inv c -> sockets_inv (client.closeCurrent c).
Proof.
  intros Hinv. unfold client.closeCurrent.
  destruct (client.ws c) as [s|] eqn:Hws; [|exact Hinv].
  destruct (client.stateOf c s <? client.CLOSING); [|exact Hinv].
  apply sockets_inv_setState; [apply (proj1 Hinv), Hws|lia|exact Hinv].
Qed.

Lemma reconnect_pending_closeCurrent c :
  sockets_inv c -> reconnect_pending c -> reconnect_pending (client.closeCurrent c).
Proof.
  intros [H1 H2] Hpending. unfold client.closeCurrent.
  destruct (client.ws c) as [s|] eqn:Hws; [|exact Hpending].
  destruct (Z.ltb_spec (client.stateOf c s) client.CLOSING) as [Hlive|Hdead]; [|exact Hpending].
  intros s' Hs' Hclosed. cbn [client.ws client.setState] in Hs'.
  assert (s' = s) as -> by congruence.
  rewrite (stateOf_setState c s _ s (H1 s eq_refl)), Nat.eqb_refl in Hclosed.
  unfold client.CLOSING, client.CLOSED in Hclosed. discriminate Hclosed.
Qed.

Lemma connection_onclose c :
  connection (client.onclose throws c)
  = (client.ws c, client.readyState c, client.timeouts c ++ [client.nextTimeout c],
     S (client.nextTimeout c)).
Proof.
  unfold client.onclose. cbv zeta.
  set (c1 := client.stopHttpResultBatching _).
  assert (Hc1 : connection c1 = connection c)
    by (unfold c1; rewrite connection_stop, connection_emitLog; reflexivity).
  clearbody c1. unfold connection in *.
  cbn [client.ws client.readyState client.timeouts client.nextTimeout].
  injection Hc1 as -> -> -> ->. reflexivity.
Qed.

Lemma inv_onclose c : sockets_inv c -> connection_inv (client.onclose throws c).
Proof.
  intros [H1 H2]. pose proof (connection_onclose c) as Hconn.
  set (c' := client.onclose throws c) in *. clearbody c'.
  unfold connection in Hconn. injection Hconn as Hws Hstates Htimeouts _.
  split; [split|]; unfold reconnect_pending, client.stateOf; rewrite ?Hws, ?Hstates, ?Htimeouts.
  - exact H1.
  - exact H2.
  - intros _ _ _ Hnil. apply (f_equal length) in Hnil. rewrite length_app in Hnil.
    cbn in Hnil. lia.
Qed.

Lemma connection_closeCurrent c1 c :
  connection c1 = connection c ->
  connection (client.closeCurrent c1) = connection (client.closeCurrent c).
Proof.
  destruct c1, c. unfold connection, client.closeCurrent, client.stateOf, client.setState.
  cbn. intros [= -> -> -> ->]. destruct ws0 as [s|]; [|reflexivity].
  destruct (_ <? _); reflexivity.
Qed.

Lemma connection_onerror type c :
  connection (client.onerror throws type c) = connection (client.closeCurrent c).
Proof.
  unfold client.onerror. apply connection_closeCurrent.
  rewrite connection_emitLog. reflexivity.
Qed.

Lemma inv_step c e : connection_inv c -> connection_inv (step c e).
Proof.
  intros Hinv. pose proof Hinv as [Hsockets Hpending].
  destruct e as [ev cb|ev cb| | |s|s raw|s err|id|id]; cbn [client.step].
  - unfold client.on. destruct (client.ownSet _ _); [exact Hinv|].
    destruct (bool_decide _); exact Hinv.
  - unfold client.off. destruct (client.ownSet _ _); [exact Hinv|].
    destruct (bool_decide _); exact Hinv.
  - apply inv_connect, Hsockets.
  - unfold client.disconnect.
    assert (Hstop : connection_inv (client.stopHttpResultBatching c))
      by (eapply connection_inv_same; [apply connection_stop|exact Hinv]).
    split; [apply sockets_inv_closeCurrent, Hstop
           |apply reconnect_pending_closeCurrent; apply Hstop].
  - destruct (Nat.ltb_spec s (length (client.readyState c))) as [Hs|]; [|exact Hinv].
    destruct (Z.eqb_spec (client.stateOf c s) client.CONNECTING) as [Hstate|]; [|exact Hinv].
    cbn [andb]. unfold client.onopen.
    eapply connection_inv_same; [apply connection_emitLog|].
    assert (Hcurrent : client.ws c = Some s).
    { apply (proj2 Hsockets s Hs). rewrite Hstate. unfold client.CONNECTING, client.CLOSING. lia. }
    split; [split|].
    + intros s' Hs'. cbn [client.readyState client.setState]. rewrite length_insert.
      apply (proj1 Hsockets). exact Hs'.
    + intros s' Hs' Hlive. cbn [client.readyState client.setState] in Hs'.
      rewrite length_insert in Hs'. rewrite (stateOf_setState c s _ s' Hs) in Hlive.
      destruct (Nat.eqb_spec s' s) as [->|Hne]; [exact Hcurrent|].
      exact (proj2 Hsockets s' Hs' Hlive).
    + intros s' Hs' Hclosed. cbn [client.ws client.setState] in Hs'.
      assert (s' = s) as -> by congruence.
      rewrite (stateOf_setState c s _ s Hs), Nat.eqb_refl in Hclosed.
      unfold client.OPEN, client.CLOSED in Hclosed. discriminate Hclosed.
  - destruct (_ && _); [|exact Hinv].
    eapply connection_inv_same; [apply connection_handleMessage|exact Hinv].
  - destruct (Nat.ltb_spec s (length (client.readyState c))) as [Hs|]; [|exact Hinv].
    destruct (negb _); [|exact Hinv]. cbn [andb]. cbv zeta.
    apply inv_onclose.
    assert (Hclosed : sockets_inv (client.setState s client.CLOSED c))
      by (apply sockets_inv_setState; [exact Hs|unfold client.CLOSING, client.CLOSED; lia
                                      |exact Hsockets]).
    destruct err as [type|]; [|exact Hclosed].
    eapply sockets_inv_same; [apply connection_onerror|].
    apply sockets_inv_closeCurrent, Hclosed.
  - destruct (existsb _ _); [|exact Hinv].
    eapply connection_inv_same; [apply connection_flush|exact Hinv].
  - destruct (existsb _ _); [|exact Hinv].
    apply inv_connect. exact Hsockets.
Qed.

Lemma inv_run trace : connection_inv (run trace).
Proof.
  induction trace as [|e trace IH] using rev_ind.
  - split; [split|]; intros s Hs; try discriminate Hs. cbn in Hs. lia.
  - unfold client.run. rewrite fold_left_app. cbn [fold_left]. apply inv_step, IH.
Qed.

End connection_facts.

Section reconnect_facts.
Variable JSON_parse : string -> option JSON.
Variable toText : option JSON -> option string.
Variable throws : nat -> bool.

Local Abbreviation step := (client.step JSON_parse toText throws).

Lemma connection_disconnect c s :
  client.ws c = Some s -> client.stateOf c s < client.CLOSING ->
  connection (client.disconnect c)
  = (Some s, <[s := client.CLOSING]> (client.readyState c), client.timeouts c,
     client.nextTimeout c).
Proof.
  intros Hws Hlive. unfold client.disconnect.
  rewrite (connection_closeCurrent (client.stopHttpResultBatching c) c (connection_stop c)).
  unfold client.closeCurrent. rewrite Hws.
  destruct (Z.ltb_spec (client.stateOf c s) client.CLOSING); [|lia].
  unfold connection. cbn. rewrite Hws. reflexivity.
Qed.

Lemma connection_closes c s :
  (s < length (client.readyState c))%nat -> client.stateOf c s <> client.CLOSED ->
  connection (step c (client.Closes s None))
  = (client.ws c, <[s := client.CLOSED]> (client.readyState c),
     client.timeouts c ++ [client.nextTimeout c], S (client.nextTimeout c)).
Proof.
  intros Hs Hstate. cbn [client.step].
  destruct (Nat.ltb_spec s (length (client.readyState c))); [|lia].
  destruct (Z.eqb_spec (client.stateOf c s) client.CLOSED); [contradiction|].
  cbn [andb negb]. cbv zeta. rewrite connection_onclose. reflexivity.
Qed.

Lemma connection_timeout c id s :
  In id (client.timeouts c) -> client.ws c = Some s -> client.stateOf c s = client.CLOSED ->
  connection (step c (client.TimeoutFires id))
  = (Some (length (client.readyState c)), client.readyState c ++ [client.CONNECTING],
     filter (fun t => t <> id) (client.timeouts c), client.nextTimeout c).
Proof.
  intros Hid Hws Hclosed. cbn [client.step].
  assert (Hfires : existsb (Nat.eqb id) (client.timeouts c) = true).
  { apply existsb_exists. exists id. split; [exact Hid|apply Nat.eqb_refl]. }
  rewrite Hfires. unfold client.connect. cbn [client.ws]. rewrite Hws.
  change (client.stateOf _ s) with (client.stateOf c s). rewrite Hclosed.
  reflexivity.
Qed.

End reconnect_facts.

(** After any run of events, [this.ws] names a socket that was created; at
    most one socket is connecting or open, and it is [this.ws]; while
    [this.ws] is closed a reconnect is pending.  [disconnect] does not end
    that: once the socket it closes has closed and the timeout set by
    [onclose] fires, [connect] opens a new socket. *)
Theorem connection_kept (JSON_parse : string -> option JSON) (toText : option JSON -> option string)
    (throws : nat -> bool) (trace : list client.event) :
  let step := client.step JSON_parse toText throws in
  let c := client.run JSON_parse toText throws trace in
  (forall s, client.ws c = Some s -> (s < length (client.readyState c))%nat)
  /\ (forall s, (s < length (client.readyState c))%nat ->
      client.stateOf c s < client.CLOSING -> client.ws c = Some s)
  /\ (forall s, client.ws c = Some s -> client.stateOf c s = client.CLOSED ->
      client.timeouts c <> [])
  /\ (forall s, client.ws c = Some s -> client.stateOf c s < client.CLOSING ->
      let c' := fold_left step [ client.CallDisconnect; client.Closes s None;
                                 client.TimeoutFires (client.nextTimeout c) ] c in
      client.ws c' = Some (length (client.readyState c))
      /\ client.stateOf c' (length (client.readyState c)) = client.CONNECTING).
Proof.
  cbv zeta. destruct (inv_run JSON_parse toText throws trace) as [[Hcreated Hlive] Hpending].
  set (c := client.run JSON_parse toText throws trace) in *. clearbody c.
  split; [exact Hcreated|]. split; [exact Hlive|]. split; [exact Hpending|].
  intros s Hws Hstate. cbn [fold_left]. pose proof (Hcreated s Hws) as Hs.
  pose proof (connection_disconnect c s Hws Hstate) as H1.
  set (c1 := client.step JSON_parse toText throws c client.CallDisconnect) in *.
  change (client.disconnect c) with c1 in H1. clearbody c1.
  unfold connection in H1. injection H1 as Hws1 Hstates1 Htimeouts1 Hnext1.
  assert (Hs1 : (s < length (client.readyState c1))%nat)
    by (rewrite Hstates1, length_insert; exact Hs).
  assert (Hstate1 : client.stateOf c1 s <> client.CLOSED).
  { unfold client.stateOf. rewrite Hstates1, list_lookup_insert_eq by exact Hs.
    unfold client.CLOSING, client.CLOSED. discriminate. }
  pose proof (connection_closes JSON_parse toText throws c1 s Hs1 Hstate1) as H2.
  set (c2 := client.step JSON_parse toText throws c1 (client.Closes s None)) in *. clearbody c2.
  unfold connection in H2. injection H2 as Hws2 Hstates2 Htimeouts2 Hnext2.
  assert (Hid : In (client.nextTimeout c) (client.timeouts c2)).
  { rewrite Htimeouts2, Hnext1. apply in_or_app. right. left. reflexivity. }
  assert (Hclosed2 : client.stateOf c2 s = client.CLOSED).
  { unfold client.stateOf. rewrite Hstates2, list_lookup_insert_eq by exact Hs1. reflexivity. }
  pose proof (connection_timeout JSON_parse toText throws c2 _ s Hid
                (eq_trans Hws2 Hws1) Hclosed2) as H3.
  set (c3 := client.step JSON_parse toText throws c2 _) in *. clearbody c3.
  unfold connection in H3. injection H3 as Hws3 Hstates3 _ _.
  assert (Hlen : length (client.readyState c2) = length (client.readyState c))
    by (rewrite Hstates2, length_insert, Hstates1, length_insert; reflexivity).
  split; [rewrite Hws3, Hlen; reflexivity|].
  unfold client.stateOf. rewrite Hstates3, <- Hlen, lookup_app_r by lia.
  rewrite Nat.sub_diag. reflexivity.
Qed.

(** ** The WebSocket service: listeners *)

Section listener_facts.
Variable JSON_parse : string -> option JSON.
Variable toText : option JSON -> option string.
Variable throws : nat -> bool.

Local Abbreviation step := (client.step JSON_parse toText throws).
Local Abbreviation run := (client.run JSON_parse toText throws).

Lemma ownSet_setOwn_eq l event set : client.ownSet (client.setOwn l event set) event = Some set.
Proof using Type.
  induction l as [|[k old] l IH]; cbn.
  - rewrite String.eqb_refl. reflexivity.
  - destruct (String.eqb_spec k event) as [->|Hne]; cbn.
    + rewrite String.eqb_refl. reflexivity.
    + destruct (String.eqb_spec k event); [contradiction|exact IH].
Qed.

Lemma ownSet_setOwn_ne l event set other :
  other <> event -> client.ownSet (client.setOwn l event set) other = client.ownSet l other.
Proof using Type.
  intros Hne. induction l as [|[k old] l IH]; cbn.
  - destruct (String.eqb_spec event other); [congruence|reflexivity].
  - destruct (String.eqb_spec k event) as [->|Hk]; cbn.
    + destruct (String.eqb_spec event other); [congruence|reflexivity].
    + destruct (String.eqb_spec k other); [reflexivity|exact IH].
Qed.

Lemma elem_of_setAdd set callback x :
  x ∈ client.setAdd set callback <-> x ∈ set \/ x = callback.
Proof using Type.
  unfold client.setAdd. destruct (existsb (Nat.eqb callback) set) eqn:Hin.
  - apply existsb_exists in Hin as (y & Hy & Heq). apply Nat.eqb_eq in Heq. subst y.
    apply list_elem_of_In in Hy. split; [intros Hx; left; exact Hx|]. intros [Hx| ->]; assumption.
  - rewrite elem_of_app, list_elem_of_singleton. reflexivity.
Qed.

Lemma NoDup_setAdd set callback : NoDup set -> NoDup (client.setAdd set callback).
Proof using Type.
  intros Hset. unfold client.setAdd. destruct (existsb (Nat.eqb callback) set) eqn:Hin;
    [exact Hset|].
  apply NoDup_app. split; [exact Hset|]. split; [|apply NoDup_singleton].
  intros x Hx Hx'. apply list_elem_of_singleton in Hx'. subst x.
  assert (Htrue : existsb (Nat.eqb callback) set = true).
  { apply existsb_exists. exists callback. split; [apply list_elem_of_In, Hx|apply Nat.eqb_refl]. }
  congruence.
Qed.

Lemma elem_of_setDelete set callback x :
  x ∈ client.setDelete set callback <-> x ∈ set /\ x <> callback.
Proof using Type.
  unfold client.setDelete. rewrite list_elem_of_filter.
  split; intros [H1 H2]; split; assumption.
Qed.

Lemma listeners_callListener ev data c cb :
  client.listeners (client.callListener throws ev data c cb) = client.listeners c.
Proof. unfold client.callListener. destruct (throws cb); reflexivity. Qed.

Lemma listeners_emitLog data c : client.listeners (client.emitLog throws data c) = client.listeners c.
Proof.
  unfold client.emitLog, client.emit.
  destruct (client.ownSet (client.listeners c) "log") as [set|]; [|destruct (bool_decide _); reflexivity].
  revert c. induction set as [|cb set IH]; intros c; [reflexivity|].
  cbn [fold_left]. rewrite IH. apply listeners_callListener.
Qed.

Lemma listeners_stop c : client.listeners (client.stopHttpResultBatching c) = client.listeners c.
Proof. unfold client.stopHttpResultBatching. destruct (websocket.httpResultBuffer _ _); reflexivity. Qed.

Lemma listeners_flush c : client.listeners (client.flushHttpResultBuffer c) = client.listeners c.
Proof. unfold client.flushHttpResultBuffer. destruct (websocket.httpResultBuffer _ _); reflexivity. Qed.

Lemma listeners_closeCurrent c : client.listeners (client.closeCurrent c) = client.listeners c.
Proof.
  unfold client.closeCurrent. destruct (client.ws c); [|reflexivity].
  destruct (_ <? _); reflexivity.
Qed.

Lemma listeners_connect c : client.listeners (client.connect c) = client.listeners c.
Proof.
  unfold client.connect.
  destruct (match client.ws c with Some _ => _ | None => _ end); reflexivity.
Qed.

Lemma listeners_dispatch rawData type data c :
  client.listeners (client.dispatch toText throws rawData type data c) = client.listeners c.
Proof.
  unfold client.dispatch, client.invalidData, client.pushHttpResult,
    client.startHttpResultBatching.
  destruct (toText type);
  repeat match goal with
         | |- context [if ?b then _ else _] => destruct b
         end;
    cbn [client.listeners client.store client.consoleLog client.withBatching];
    rewrite ?listeners_emitLog, ?listeners_stop; reflexivity.
Qed.

Lemma listeners_handleMessage rawData c :
  client.listeners (client.handleMessage JSON_parse toText throws rawData c) = client.listeners c.
Proof.
  unfold client.handleMessage, client.invalidData.
  destruct (String.eqb rawData EmptyString); [reflexivity|].
  assert (Hinvalid : client.listeners
            (client.emitLog throws
               (Some (JString (client.esc +:+ "[31m[WebSocket] Received invalid data: "
                                 +:+ rawData +:+ client.esc +:+ "[0m")))
               (client.consoleLog "WebSocket received non-JSON message:" c))
            = client.listeners c)
    by (rewrite listeners_emitLog; reflexivity).
  destruct (JSON_parse rawData) as [message|]; [|exact Hinvalid].
  destruct (client.property message "type"); [|exact Hinvalid].
  destruct (client.property message "data"); [|exact Hinvalid].
  apply listeners_dispatch.
Qed.

(** Only [on] and [off] touch the listeners. *)
Lemma listeners_step c e :
  match e with
  | client.CallOn _ _ | client.CallOff _ _ => True
  | _ => client.listeners (step c e) = client.listeners c
  end.
Proof.
  destruct e as [ev cb|ev cb| | |s|s raw|s err|id|id]; cbn [client.step]; try exact I.
  - apply listeners_connect.
  - unfold client.disconnect. rewrite listeners_closeCurrent. apply listeners_stop.
  - destruct (_ && _); [|reflexivity]. unfold client.onopen. rewrite listeners_emitLog. reflexivity.
  - destruct (_ && _); [|reflexivity]. apply listeners_handleMessage.
  - destruct (_ && _); [|reflexivity]. cbv zeta. unfold client.onclose. cbv zeta.
    cbn [client.listeners]. rewrite listeners_stop, listeners_emitLog.
    destruct err as [type|]; [|reflexivity].
    unfold client.onerror. rewrite listeners_closeCurrent, listeners_emitLog. reflexivity.
  - destruct (existsb _ _); [|reflexivity]. apply listeners_flush.
  - destruct (existsb _ _); [|reflexivity]. rewrite listeners_connect. reflexivity.
Qed.

Lemma registered_on c event callback :
  event ∉ client.protoKeys ->
  exists c', client.on event callback c = Some c'
             /\ registered c' event = client.setAdd (registered c event) callback
             /\ (forall other, other <> event -> client.ownSet (client.listeners c') other
                                                  = client.ownSet (client.listeners c) other).
Proof.
  intros Hkey. unfold client.on, registered.
  destruct (client.ownSet (client.listeners c) event) as [set|] eqn:Hown.
  - eexists. split; [reflexivity|]. cbn [client.listeners client.withListeners].
    rewrite ownSet_setOwn_eq. split; [reflexivity|].
    intros other Hne. apply ownSet_setOwn_ne, Hne.
  - rewrite (bool_decide_eq_false_2 _ Hkey). eexists. split; [reflexivity|].
    cbn [client.listeners client.withListeners].
    rewrite ownSet_setOwn_eq. split; [reflexivity|].
    intros other Hne. apply ownSet_setOwn_ne, Hne.
Qed.

Lemma registered_off c event callback :
  event ∉ client.protoKeys ->
  exists c', client.off event callback c = Some c'
             /\ registered c' event = client.setDelete (registered c event) callback
             /\ (forall other, other <> event -> client.ownSet (client.listeners c') other
                                                  = client.ownSet (client.listeners c) other).
Proof.
  intros Hkey. unfold client.off, registered.
  destruct (client.ownSet (client.listeners c) event) as [set|] eqn:Hown.
  - eexists. split; [reflexivity|]. cbn [client.listeners client.withListeners].
    rewrite ownSet_setOwn_eq. split; [reflexivity|].
    intros other Hne. apply ownSet_setOwn_ne, Hne.
  - rewrite (bool_decide_eq_false_2 _ Hkey). eexists. split; [reflexivity|].
    rewrite Hown. split; reflexivity.
Qed.

End listener_facts.

Section listener_traces.
Variable JSON_parse : string -> option JSON.
Variable toText : option JSON -> option string.
Variable throws : nat -> bool.

Local Abbreviation step := (client.step JSON_parse toText throws).
Local Abbreviation run := (client.run JSON_parse toText throws).

Lemma listeners_inv_same c c' :
  client.listeners c' = client.listeners c -> listeners_inv c -> listeners_inv c'.
Proof. intros Hsame Hinv event. unfold registered. rewrite Hsame. apply Hinv. Qed.

Lemma listeners_inv_step c e : listeners_inv c -> listeners_inv (step c e).
Proof.
  intros Hinv. pose proof (listeners_step JSON_parse toText throws c e) as Hstep.
  destruct e as [ev cb|ev cb| | |s|s raw|s err|id|id];
    try (eapply listeners_inv_same; [exact Hstep|exact Hinv]); clear Hstep.
  - cbn [client.step]. destruct (decide (ev ∈ client.protoKeys)) as [Hkey|Hkey].
    + unfold client.on. rewrite (proj1 (Hinv ev) Hkey), (bool_decide_eq_true_2 _ Hkey). exact Hinv.
    + destruct (registered_on c ev cb Hkey) as (c' & -> & Hset & Hother).
      intros event. destruct (decide (event = ev)) as [->|Hne].
      * split; [contradiction|]. rewrite Hset. apply NoDup_setAdd, Hinv.
      * unfold registered. rewrite (Hother event Hne). apply Hinv.
  - cbn [client.step]. destruct (decide (ev ∈ client.protoKeys)) as [Hkey|Hkey].
    + unfold client.off. rewrite (proj1 (Hinv ev) Hkey), (bool_decide_eq_true_2 _ Hkey). exact Hinv.
    + destruct (registered_off c ev cb Hkey) as (c' & -> & Hset & Hother).
      intros event. destruct (decide (event = ev)) as [->|Hne].
      * split; [contradiction|]. rewrite Hset. apply NoDup_filter, Hinv.
      * unfold registered. rewrite (Hother event Hne). apply Hinv.
Qed.

Lemma registered_fold (event : string) (callback : nat) (trace : list client.event) :
  event ∉ client.protoKeys ->
  forall c, listeners_inv c ->
  callback ∈ registered (fold_left step trace c) event
  <-> lastIsOn trace event callback (bool_decide (callback ∈ registered c event)) = true.
Proof.
  intros Hkey. induction trace as [|e trace IH]; intros c Hinv.
  - cbn. rewrite bool_decide_eq_true. reflexivity.
  - cbn [fold_left]. rewrite (IH _ (listeners_inv_step c e Hinv)).
    assert (Hsame : forall b b', b = b' ->
              lastIsOn trace event callback b = true <-> lastIsOn trace event callback b' = true)
      by (intros b b' ->; reflexivity).
    pose proof (listeners_step JSON_parse toText throws c e) as Hstep.
    destruct e as [ev cb|ev cb| | |s|s raw|s err|id|id]; cbn [lastIsOn];
      try (apply Hsame; unfold registered; rewrite Hstep; reflexivity); clear Hstep.
    + apply Hsame. cbn [client.step].
      destruct (String.eqb_spec ev event) as [->|Hev]; cbn [andb].
      * destruct (registered_on c event cb Hkey) as (c' & -> & Hset & _). rewrite Hset.
        destruct (Nat.eqb_spec cb callback) as [->|Hcb].
        -- apply bool_decide_eq_true_2. apply elem_of_setAdd; right; reflexivity.
        -- apply bool_decide_ext. rewrite elem_of_setAdd. split; [|tauto].
           intros [H|H]; [exact H|congruence].
      * destruct (decide (ev ∈ client.protoKeys)) as [Hproto|Hproto].
        -- unfold client.on. rewrite (proj1 (Hinv ev) Hproto), (bool_decide_eq_true_2 _ Hproto).
           reflexivity.
        -- destruct (registered_on c ev cb Hproto) as (c' & -> & _ & Hother).
           unfold registered. rewrite (Hother event) by congruence. reflexivity.
    + apply Hsame. cbn [client.step].
      destruct (String.eqb_spec ev event) as [->|Hev]; cbn [andb].
      * destruct (registered_off c event cb Hkey) as (c' & -> & Hset & _). rewrite Hset.
        destruct (Nat.eqb_spec cb callback) as [->|Hcb].
        -- apply bool_decide_eq_false_2. rewrite elem_of_setDelete. tauto.
        -- apply bool_decide_ext. rewrite elem_of_setDelete. split; [tauto|].
           intros H. split; [exact H|congruence].
      * destruct (decide (ev ∈ client.protoKeys)) as [Hproto|Hproto].
        -- unfold client.off. rewrite (proj1 (Hinv ev) Hproto), (bool_decide_eq_true_2 _ Hproto).
           reflexivity.
        -- destruct (registered_off c ev cb Hproto) as (c' & -> & _ & Hother).
           unfold registered. rewrite (Hother event) by congruence. reflexivity.
Qed.

Lemma listeners_inv_run trace : listeners_inv (run trace).
Proof.
  induction trace as [|e trace IH] using rev_ind.
  - intros event. split; [reflexivity|apply NoDup_nil_2].
  - unfold client.run. rewrite fold_left_app. cbn [fold_left]. apply listeners_inv_step, IH.
Qed.

Lemma calls_emit (event : string) (data : option JSON) (set : list nat) :
  forall c,
  let c' := fold_left (client.callListener throws event data) set c in
  client.calls c' = client.calls c ++ map (fun k => (k, event, data)) set
  /\ client.listeners c' = client.listeners c
  /\ client.storeLog c' = client.storeLog c
  /\ client.batching c' = client.batching c.
Proof.
  induction set as [|k set IH]; intros c; cbv zeta.
  - cbn. rewrite app_nil_r. repeat split.
  - cbn [fold_left map]. destruct (IH (client.callListener throws event data c k))
      as (Hcalls & Hlisteners & Hstore & Hbatching).
    rewrite Hcalls, Hlisteners, Hstore, Hbatching.
    unfold client.callListener. destruct (throws k); cbn; rewrite <- app_assoc; repeat split.
Qed.

End listener_traces.

(** After any run of events, a callback is registered for an event exactly
    when the last call of [on] or [off] that named the two was a call of
    [on]; no callback is registered twice, however often [on] was called; and
    [emit] calls every registered callback once, in the order of
    registration, whether or not one of them throws.  This is so for every
    event name that is no property of [Object.prototype]; for one that is,
    such as "toString" or "constructor", [on], [off] and [emit] all throw. *)
Theorem listeners_kept (JSON_parse : string -> option JSON) (toText : option JSON -> option string)
    (throws : nat -> bool) (trace : list client.event)
    (event : string) (callback : nat) (data : option JSON) :
  let c := client.run JSON_parse toText throws trace in
  (event ∉ client.protoKeys ->
   (callback ∈ registered c event <-> lastIsOn trace event callback false = true)
   /\ NoDup (registered c event)
   /\ exists c', client.emit throws event data c = Some c'
                 /\ client.calls c'
                    = client.calls c ++ map (fun k => (k, event, data)) (registered c event)
                 /\ client.listeners c' = client.listeners c
                 /\ client.storeLog c' = client.storeLog c)
  /\ (event ∈ client.protoKeys ->
      client.on event callback c = None /\ client.off event callback c = None
      /\ client.emit throws event data c = None).
Proof.
  cbv zeta. pose proof (listeners_inv_run JSON_parse toText throws trace) as Hinv.
  split.
  - intros Hkey. split; [|split; [apply Hinv|]].
    + unfold client.run.
      rewrite (registered_fold JSON_parse toText throws event callback trace Hkey client.initial).
      * reflexivity.
      * intros ev. split; [reflexivity|apply NoDup_nil_2].
    + set (c := client.run JSON_parse toText throws trace) in *. clearbody c.
      unfold client.emit, registered.
      destruct (client.ownSet (client.listeners c) event) as [set|].
      * eexists. split; [reflexivity|].
        destruct (calls_emit throws event data set c) as (H1 & H2 & H3 & _). cbn [default].
        split; [exact H1|]. split; assumption.
      * rewrite (bool_decide_eq_false_2 _ Hkey). eexists. split; [reflexivity|].
        cbn. rewrite app_nil_r. repeat split.
  - intros Hkey. set (c := client.run JSON_parse toText throws trace) in *. clearbody c.
    unfold client.on, client.off, client.emit.
    rewrite (proj1 (Hinv event) Hkey), (bool_decide_eq_true_2 _ Hkey). repeat split.
Qed.

(** ** The WebSocket service: frames *)

Section frame_facts.
Variable JSON_parse : string -> option JSON.
Variable toText : option JSON -> option string.
Variable throws : nat -> bool.

Lemma emitLog_calls data c :
  let c' := client.emitLog throws data c in
  client.calls c' = client.calls c ++ map (fun k => (k, "log"%string, data)) (registered c "log")
  /\ client.storeLog c' = client.storeLog c
  /\ client.batching c' = client.batching c.
Proof.
  cbv zeta. unfold client.emitLog, client.emit, registered.
  destruct (client.ownSet (client.listeners c) "log") as [set|].
  - destruct (calls_emit throws "log" data set c) as (H1 & _ & H3 & H4). cbn [default].
    split; [exact H1|]. split; assumption.
  - destruct (bool_decide _); cbn; rewrite app_nil_r; repeat split.
Qed.

Lemma stop_spec_client c :
  let c' := client.stopHttpResultBatching c in
  bufferOf c' = [] /\ timerOf c' = None
  /\ client.storeLog c'
     = client.storeLog c
       ++ match bufferOf c with [] => [] | buffer => [client.addHttpResultsBatch buffer] end
  /\ client.calls c' = client.calls c.
Proof.
  cbv zeta. unfold client.stopHttpResultBatching, bufferOf, timerOf.
  unfold websocket.stopHttpResultBatching, websocket.flushHttpResultBuffer.
  destruct (client.batching c) as [[buffer timer] intervals next delivered status].
  cbn [websocket.service websocket.httpResultBuffer websocket.httpResultTimer].
  destruct timer as [id|]; destruct buffer as [|d buffer]; cbn; rewrite ?app_nil_r; repeat split.
Qed.

End frame_facts.

(** An empty frame changes nothing.  A frame that is not JSON, or is the
    JSON [null], reaches neither the store nor the buffer nor the connection
    nor the listeners: it is handed, as one line, to every 'log' listener.
    An [http_test_status] message stops the interval and hands what is left in
    the buffer to the store before it sets the status there, which is "idle"
    for "finished" and "stopped" and the status received otherwise. *)
Theorem frames_handled (JSON_parse : string -> option JSON) (toText : option JSON -> option string)
    (throws : nat -> bool) (rawData : string) (c : client.Client) :
  let c' := client.handleMessage JSON_parse toText throws rawData c in
  (rawData = EmptyString -> c' = c)
  /\ (rawData <> EmptyString ->
      JSON_parse rawData = None \/ JSON_parse rawData = Some JNull ->
      client.storeLog c' = client.storeLog c /\ client.batching c' = client.batching c
      /\ connection c' = connection c /\ client.listeners c' = client.listeners c
      /\ client.calls c'
         = client.calls c ++ map (fun k => (k, "log"%string, invalidLine rawData)) (registered c "log"))
  /\ (forall members data,
      rawData <> EmptyString -> JSON_parse rawData = Some (JObject members) ->
      client.lastMember members "type" None = Some (JString "http_test_status") ->
      client.lastMember members "data" None = data ->
      bufferOf c' = [] /\ timerOf c' = None
      /\ client.storeLog c'
         = client.storeLog c
           ++ match bufferOf c with [] => [] | buffer => [client.addHttpResultsBatch buffer] end
           ++ [client.setHttpTestStatus
                 (if client.isString data "finished" || client.isString data "stopped"
                  then Some (JString "idle") else data)]).
Proof.
  cbv zeta. split; [|split].
  - intros ->. reflexivity.
  - intros Hraw Hbad. unfold client.handleMessage.
    destruct (String.eqb_spec rawData EmptyString); [contradiction|].
    assert (Hinvalid : client.handleMessage JSON_parse toText throws rawData c
                       = client.invalidData throws rawData c).
    { unfold client.handleMessage.
      destruct (String.eqb_spec rawData EmptyString); [contradiction|].
      destruct Hbad as [-> | ->]; reflexivity. }
    unfold client.handleMessage in Hinvalid.
    destruct (String.eqb_spec rawData EmptyString); [contradiction|].
    rewrite Hinvalid. unfold client.invalidData.
    destruct (emitLog_calls throws (invalidLine rawData)
                (client.consoleLog "WebSocket received non-JSON message:" c)) as (H1 & H2 & H3).
    fold (invalidLine rawData).
    rewrite H1, H2, H3, connection_emitLog, listeners_emitLog. repeat split.
  - intros members data Hraw Hparse Htype Hdata. unfold client.handleMessage.
    destruct (String.eqb_spec rawData EmptyString); [contradiction|].
    rewrite Hparse. cbn [client.property]. rewrite Htype, Hdata.
    change (client.dispatch toText throws rawData (Some (JString "http_test_status")) data c)
      with (if client.isString data "finished" || client.isString data "stopped"
            then client.store (client.setHttpTestStatus (Some (JString "idle")))
                   (client.stopHttpResultBatching c)
            else client.store (client.setHttpTestStatus data) (client.stopHttpResultBatching c)).
    destruct (stop_spec_client c) as (Hbuffer & Htimer & Hlog & _).
    destruct (client.isString data "finished" || client.isString data "stopped");
      unfold bufferOf, timerOf in *; cbn [client.batching client.store client.storeLog];
      rewrite Hlog, <- app_assoc; repeat split; assumption.
Qed.

(** ** The log listener of [Dashboard] *)

Section dashboard_facts.
Variable JSON_parse : string -> option JSON.
Variable toText : option JSON -> option string.
Variable throws : nat -> bool.

Local Abbreviation step := (client.step JSON_parse toText throws).

Lemma log_own : "log"%string ∉ client.protoKeys.
Proof using Type. apply (bool_decide_unpack _). vm_compute. reflexivity. Qed.

Lemma registered_leavesLog c e :
  leavesLog e = true -> listeners_inv c -> registered (step c e) "log" = registered c "log".
Proof.
  intros Hleaves Hinv. pose proof (listeners_step JSON_parse toText throws c e) as Hstep.
  destruct e as [ev cb|ev cb| | |s|s raw|s err|id|id];
    try (unfold registered; rewrite Hstep; reflexivity); clear Hstep;
    cbn [leavesLog] in Hleaves; apply negb_true_iff in Hleaves;
    apply String.eqb_neq in Hleaves; cbn [client.step].
  - destruct (decide (ev ∈ client.protoKeys)) as [Hkey|Hkey].
    + unfold client.on. rewrite (proj1 (Hinv ev) Hkey), (bool_decide_eq_true_2 _ Hkey). reflexivity.
    + destruct (registered_on c ev cb Hkey) as (c' & -> & _ & Hother).
      unfold registered. rewrite (Hother "log"%string) by congruence. reflexivity.
  - destruct (decide (ev ∈ client.protoKeys)) as [Hkey|Hkey].
    + unfold client.off. rewrite (proj1 (Hinv ev) Hkey), (bool_decide_eq_true_2 _ Hkey). reflexivity.
    + destruct (registered_off c ev cb Hkey) as (c' & -> & _ & Hother).
      unfold registered. rewrite (Hother "log"%string) by congruence. reflexivity.
Qed.

Lemma listeners_inv_fold trace c : listeners_inv c -> listeners_inv (fold_left step trace c).
Proof.
  revert c. induction trace as [|e trace IH]; intros c Hinv; [exact Hinv|].
  cbn [fold_left]. apply IH, listeners_inv_step, Hinv.
Qed.

Lemma registered_leavesLog_fold trace c :
  forallb leavesLog trace = true -> listeners_inv c ->
  registered (fold_left step trace c) "log" = registered c "log".
Proof.
  revert c. induction trace as [|e trace IH]; intros c Hleaves Hinv; [reflexivity|].
  cbn [forallb] in Hleaves. apply andb_true_iff in Hleaves as [He Htrace].
  cbn [fold_left]. rewrite IH; [|exact Htrace|apply listeners_inv_step, Hinv].
  apply registered_leavesLog; assumption.
Qed.

Lemma registered_effect c logListener :
  registered c "log" = [] ->
  registered (fold_left step (dashboard.effect logListener) c) "log" = [logListener].
Proof.
  intros Hnone. cbn [dashboard.effect fold_left client.step].
  destruct (registered_on (client.connect c) "log" logListener log_own) as (c' & -> & Hset & _).
  rewrite Hset. unfold registered. rewrite listeners_connect. fold (registered c "log").
  rewrite Hnone. reflexivity.
Qed.

Lemma registered_cleanup c logListener :
  registered c "log" = [logListener] ->
  registered (fold_left step (dashboard.cleanup logListener) c) "log" = [].
Proof.
  intros Hone. cbn [dashboard.cleanup fold_left client.step].
  destruct (registered_off c "log" logListener log_own) as (c' & -> & Hset & _).
  rewrite Hset, Hone. unfold client.setDelete.
  rewrite filter_cons_False by (intros H; apply H; reflexivity). reflexivity.
Qed.

Lemma registered_lifetime runs c :
  Forall (fun run => forallb leavesLog (snd run) = true) runs ->
  listeners_inv c -> registered c "log" = [] ->
  registered (fold_left step (dashboard.lifetime runs) c) "log" = [].
Proof.
  intros Hruns. revert c. induction Hruns as [|[l evs] runs Hevs Hruns IH]; intros c Hinv Hnone;
    [exact Hnone|].
  unfold dashboard.lifetime. cbn [flat_map fst snd]. rewrite !fold_left_app.
  apply IH; [repeat apply listeners_inv_fold; exact Hinv|].
  apply registered_cleanup. rewrite registered_leavesLog_fold;
    [|exact Hevs|apply listeners_inv_fold, Hinv].
  apply registered_effect, Hnone.
Qed.

End dashboard_facts.

(** However often the effect of [Dashboard] has run and been cleaned up,
    and whatever the service went through meanwhile, as long as nothing else
    registers for 'log': while the component is mounted exactly one log
    listener is registered, the one of the latest run, so a log line is
    handed to it once and to no listener of an earlier run; after the cleanup
    none is registered. *)
Theorem dashboard_one_log_listener (JSON_parse : string -> option JSON)
    (toText : option JSON -> option string) (throws : nat -> bool)
    (runs : list (nat * list client.event)) (logListener : nat) (since : list client.event)
    (data : option JSON) :
  Forall (fun run => forallb leavesLog (snd run) = true) runs ->
  forallb leavesLog since = true ->
  let run := client.run JSON_parse toText throws in
  let c := run (dashboard.lifetime runs ++ dashboard.effect logListener ++ since) in
  registered c "log" = [logListener]
  /\ (exists c', client.emit throws "log" data c = Some c'
                 /\ client.calls c' = client.calls c ++ [(logListener, "log"%string, data)])
  /\ registered (run (dashboard.lifetime runs ++ dashboard.effect logListener ++ since
                      ++ dashboard.cleanup logListener)) "log" = []
  /\ registered (run (dashboard.lifetime runs)) "log" = [].
Proof.
  intros Hruns Hsince. cbv zeta.
  assert (Hinitial : listeners_inv client.initial)
    by (intros ev; split; [reflexivity|apply NoDup_nil_2]).
  assert (Hnone : registered (client.run JSON_parse toText throws (dashboard.lifetime runs)) "log" = [])
    by (apply registered_lifetime; [exact Hruns|exact Hinitial|reflexivity]).
  assert (Hone : registered (client.run JSON_parse toText throws
                   (dashboard.lifetime runs ++ dashboard.effect logListener ++ since)) "log"
                 = [logListener]).
  { unfold client.run in *. rewrite !fold_left_app.
    rewrite registered_leavesLog_fold; [|exact Hsince|repeat apply listeners_inv_fold; exact Hinitial].
    apply registered_effect, Hnone. }
  split; [exact Hone|]. split; [|split; [|exact Hnone]].
  - clear Hnone.
    set (c := client.run JSON_parse toText throws
                (dashboard.lifetime runs ++ dashboard.effect logListener ++ since)) in *.
    clearbody c. unfold client.emit. unfold registered in Hone.
    destruct (client.ownSet (client.listeners c) "log") as [members|];
      cbn in Hone; [|discriminate Hone].
    subst members. eexists. split; [reflexivity|].
    cbn [fold_left]. unfold client.callListener. destruct (throws logListener); reflexivity.
  - unfold client.run in *. rewrite !app_assoc, fold_left_app, <- !app_assoc.
    apply registered_cleanup, Hone.
Qed.

Lemma dashboard_one_log_listener_witness :
  registered (client.run (fun _ => None) (fun _ => None) (fun _ => false)
                (dashboard.lifetime [(0%nat, [client.Opens 0]); (1%nat, [client.Closes 0 None])]
                 ++ dashboard.effect 2 ++ [client.TimeoutFires 0; client.Opens 1]))
    "log" = [2%nat].
Proof.
  refine (proj1 (dashboard_one_log_listener (fun _ => None) (fun _ => None) (fun _ => false)
                   [(0%nat, [client.Opens 0]); (1%nat, [client.Closes 0 None])] 2%nat
                   [client.TimeoutFires 0; client.Opens 1] None _ _)).
  - repeat constructor.
  - reflexivity.
Defined.

(** ** [build.sh] *)

Section build_facts.
Variable script : string.
Variable sourceExists : bool.
Variable mkdir : Z.
Variable go : build.GoBuild -> Z.
Variable pid : nat -> string.

Local Abbreviation main := (build.main script sourceExists mkdir go pid).

Lemma waitAll_nil (index : nat) (js : list build.Job) :
  build.waitAll pid index js = [] <-> Forall (fun job => build.status job = 0) js.
Proof using Type.
  revert index. induction js as [|job js IH]; intros index; cbn [build.waitAll].
  - split; [intros _; constructor|reflexivity].
  - destruct (Z.eqb_spec (build.status job) 0) as [Hzero|Hfailed]; cbn [app].
    + rewrite IH. split; [intros H; constructor; assumption|intros H; inversion H; assumption].
    + split; [discriminate|]. intros H. inversion H. contradiction.
Qed.

Ltac case_eqb s :=
  match goal with
  | |- context [String.eqb ?a s] => destruct (String.eqb_spec a s)
  end.

(** Whatever the arguments, a command the script runs is one of the seven
    of [all]. *)
Lemma main_commands (args : list string) (cmd : build.GoBuild) :
  In cmd (build.commands (main args)) -> In cmd (map build.command (build.jobs go)).
Proof using Type.
  unfold build.main. destruct sourceExists; cbn [negb]; [|intros []].
  destruct (mkdir =? 0); cbn [negb]; [|intros []].
  destruct args as [|platform rest]; [intros []|].
  set (arch := match rest with [] => _ | _ => _ end). clearbody arch. cbv zeta.
  case_eqb "amd64"%string; try subst arch;
    case_eqb "arm64"%string; try discriminate; try subst arch;
    case_eqb "arm"%string; try discriminate; try subst arch;
    cbn [negb andb orb];
    repeat (match goal with
            | |- context [String.eqb ?a ?b] => destruct (String.eqb_spec a b)
            end; try discriminate; try subst platform; cbn [negb andb orb]);
    cbn [build.commands build.fail build.foreground build.build_app build.command In map
         build.jobs build.all];
    match goal with
    | |- False -> _ => intros []
    | |- _ \/ False -> _ => intros [<-|[]]; repeat first [left; reflexivity|right]
    | |- _ => intros H; exact H
    end.
Qed.

(** The ways a run ends. *)
Lemma main_cases (args : list string) :
  (exists lines, main args = build.fail lines)
  \/ (mkdir <> 0 /\ main args = {| build.stdout := []; build.commands := [];
                                     build.background := []; build.exit := mkdir |})
  \/ (exists platform output_name goos goarch goarm,
       main args = build.foreground (build.build_app go platform output_name goos goarch goarm))
  \/ main args = build.all go pid.
Proof using Type.
  unfold build.main. destruct sourceExists; cbn [negb]; [|left; eexists; reflexivity].
  destruct (Z.eqb_spec mkdir 0) as [Hmkdir|Hmkdir]; cbn [negb];
    [|right; left; split; [exact Hmkdir|reflexivity]].
  destruct args as [|platform rest]; [left; eexists; reflexivity|].
  cbv zeta.
  repeat match goal with
         | |- context [if ?b then _ else _] => destruct b
         end;
    first [ left; eexists; reflexivity
          | right; right; left; do 5 eexists; reflexivity
          | right; right; right; reflexivity ].
Qed.

Lemma all_status :
  Forall (fun job => build.status job = 0) (build.jobs go)
  <-> Forall (fun cmd => go cmd = 0) (map build.command (build.jobs go)).
Proof using Type.
  rewrite Forall_map. unfold build.jobs. rewrite !Forall_cons, !Forall_nil.
  split; intros H; exact H.
Qed.

Lemma all_exit :
  (build.exit (build.all go pid) = 0
   <-> Forall (fun cmd => go cmd = 0) (build.commands (build.all go pid)))
  /\ (build.exit (build.all go pid) = 0 \/ build.exit (build.all go pid) = 1).
Proof using Type.
  unfold build.all. cbv zeta. cbn [build.exit build.commands]. rewrite <- all_status, <- (waitAll_nil 0%nat).
  destruct (build.waitAll pid 0 (build.jobs go)) as [|line failed].
  - split; [split; reflexivity|left; reflexivity].
  - split; [split; discriminate|right; reflexivity].
Qed.

End build_facts.

(** Whatever its arguments, the script runs no [go build] command other
    than the seven of [all], which write seven different files.  When
    [main.go] is there and the [build] directory can be made, [all] runs the
    seven, whether or not an architecture is given with it, and each of them
    is also what one call with a platform and an architecture runs. *)
Theorem build_all_is_every_build (script : string) (sourceExists : bool) (mkdir : Z)
    (go : build.GoBuild -> Z) (pid : nat -> string) :
  let main := build.main script sourceExists mkdir go pid in
  let targets := map build.command (build.jobs go) in
  length targets = 7%nat /\ NoDup (map build.output targets)
  /\ (forall args cmd, In cmd (build.commands (main args)) -> In cmd targets)
  /\ (sourceExists = true -> mkdir = 0 ->
      build.commands (main ["all"%string]) = targets
      /\ (forall arch rest,
          arch = EmptyString \/ arch = "amd64"%string \/ arch = "arm64"%string ->
          build.commands (main ("all"%string :: arch :: rest)) = targets)
      /\ (forall cmd, In cmd targets ->
          exists platform arch,
            platform <> "all"%string /\ build.commands (main [platform; arch]) = [cmd])).
Proof.
  cbv zeta. split; [reflexivity|]. split; [|split].
  - apply (bool_decide_unpack _). vm_compute. reflexivity.
  - apply main_commands.
  - intros -> ->. split; [reflexivity|]. split.
    + intros arch rest [->|[->| ->]]; reflexivity.
    + intros cmd Hcmd. cbn [build.jobs map build.command build.build_app In] in Hcmd.
      destruct Hcmd as [<-|[<-|[<-|[<-|[<-|[<-|[<-|[]]]]]]]].
      * exists "darwin"%string, "amd64"%string. split; [discriminate|reflexivity].
      * exists "darwin"%string, "arm64"%string. split; [discriminate|reflexivity].
      * exists "windows"%string, "amd64"%string. split; [discriminate|reflexivity].
      * exists "windows"%string, "arm64"%string. split; [discriminate|reflexivity].
      * exists "linux"%string, "amd64"%string. split; [discriminate|reflexivity].
      * exists "linux"%string, "arm64"%string. split; [discriminate|reflexivity].
      * exists "linux"%string, "arm"%string. split; [discriminate|reflexivity].
Qed.

(** The script exits with 0 exactly when it ran at least one [go build]
    and every one it ran succeeded.  With one build it exits with the status
    of that build; with several, with 1 as soon as one failed; and with a
    status other than 0 when it ran none.  Which commands it runs does not
    depend on how any of them ends: [all] starts the seven builds even when
    some fail. *)
Theorem build_exit_status (script : string) (sourceExists : bool) (mkdir : Z)
    (go : build.GoBuild -> Z) (pid : nat -> string) (args : list string) :
  let r := build.main script sourceExists mkdir go pid args in
  (build.exit r = 0
   <-> build.commands r <> [] /\ Forall (fun cmd => go cmd = 0) (build.commands r))
  /\ (forall cmd, build.commands r = [cmd] -> build.exit r = go cmd)
  /\ (forall cmd cmd' more, build.commands r = cmd :: cmd' :: more ->
      build.exit r = 0 \/ build.exit r = 1)
  /\ (forall go', build.commands (build.main script sourceExists mkdir go' pid args)
                  = build.commands r).
Proof.
  cbv zeta. split; [|split; [|split]].
  - destruct (main_cases script sourceExists mkdir go pid args)
      as [[lines ->]|[[Hmkdir ->]|[(p & o & goos & goarch & goarm & ->)| ->]]].
    + cbn. split; [discriminate|]. intros [H _]. contradiction.
    + cbn. split; [contradiction|]. intros [H _]. contradiction.
    + cbn [build.foreground build.exit build.commands build.build_app build.status build.command].
      split.
      * intros H. split; [discriminate|]. constructor; [exact H|constructor].
      * intros [_ H]. inversion H. assumption.
    + destruct (all_exit go pid) as [Hiff _]. rewrite Hiff. split; [|intros [_ H]; exact H].
      intros H. split; [discriminate|exact H].
  - destruct (main_cases script sourceExists mkdir go pid args)
      as [[lines ->]|[[Hmkdir ->]|[(p & o & goos & goarch & goarm & ->)| ->]]];
      intros cmd; cbn; try discriminate.
    intros [= <-]. reflexivity.
  - destruct (main_cases script sourceExists mkdir go pid args)
      as [[lines ->]|[[Hmkdir ->]|[(p & o & goos & goarch & goarm & ->)| ->]]];
      intros cmd cmd' more; try (cbn; discriminate).
    intros _. apply all_exit.
  - intros go'. unfold build.main. destruct sourceExists; [|reflexivity].
    destruct (mkdir =? 0); [|reflexivity]. destruct args as [|platform rest]; [reflexivity|].
    cbv zeta.
    repeat match goal with
           | |- context [if ?b then _ else _] => destruct b
           end; reflexivity.
Qed.
